(** * item-auras-scanner: the cache-and-resolve engine of [src/index.js]

    A shallow embedding of the JavaScript functions [getData],
    [getAurasForItem], [loadCache], [updateItemsCache], [updateSpellsCache],
    [cacheRelatedSpells] and of the item loop of [prepareItemAndSpellData],
    followed by the properties of the specification that concern them.

    Conventions of the embedding.
    - Ids are JSON integers, modelled as [Z].  A JavaScript [Set] of ids is a
      [gset Z]; the object [auras] (keys are the decimal spelling of a spell
      id, which is injective) is a [gmap Z string]; arrays are lists.
    - Mutation of the shared objects [auras], [lookedup], [spells], [cache]
      is explicit state passing: every call of a call tree receives and
      returns the one state that holds them.
    - A JavaScript call either returns, or throws (the exception propagates
      with the state as mutated so far), which is the type [Completion].
      Recursion that follows spell references is bounded by a fuel argument;
      running out of fuel is a third, separate outcome that the theorems
      below exclude.
    - The console is a list of structured events, one per message.
    - Records have the shape the program reads ([ID], [Name], [Spells],
      [Effects], [Aura], [AffectedSpell]); a file that is read may be
      missing or unparsable; writing a file succeeds.

    The first part is the program, in the order of the source; the second
    the vocabulary of the properties; then the examples; then the stages
    around the engine, [prepareCategories], [prepareCategoryLists],
    [prepareDatabase], [updateLibItemBuffs], [getVersionString] and
    [getMeDataz], which work on the text of pages and files; then the
    lemmas and, under the headings C1 to C10, the properties of the
    specification; last, under the headings X1 to X22, further properties
    of the engine and of the stages. *)

From stdpp Require Import gmap strings list fin_maps sorting.
From Stdlib Require Import ZArith Lia.

Local Open Scope string_scope.
Local Open Scope list_scope.
Local Open Scope Z_scope.

(** ** Data model (the JSON records returned by wowdb) *)

(** One entry of [spell.Effects]: [Aura] is read for truthiness,
    [AffectedSpell] is absent ([None]) or a spell id. *)
Record Effect := mkEffect {
  Aura : bool;
  AffectedSpell : option Z
}.

Module Spell.
Record t := mk {
  ID : Z;
  Name : string;
  Effects : list Effect
}.
End Spell.

(** One entry of [item.Spells]. *)
Record SpellRef := mkSpellRef { SpellID : Z }.

Module Item.
Record t := mk {
  ID : Z;
  Name : string;
  Spells : list SpellRef
}.
End Item.

(** [if (effect.AffectedSpell)]: [undefined], [null] and [0] are falsy. *)
Definition truthy (v : option Z) : option Z :=
  match v with
  | Some n => if decide (n = 0) then None else Some n
  | None => None
  end.

(** ** Outcomes and console *)

Inductive Kind := item | spell.

(** The exceptions of the program: a [TypeError] of the runtime, or an
    [Error] raised by the network, the file system or [JSON.parse]. *)
Inductive Exception :=
  | TypeError (message : string)
  | Error (message : string).

Definition message_of (error : Exception) : string :=
  match error with
  | TypeError m => m
  | Error m => m
  end.

Inductive LogEvent :=
  | LogFetching (type : Kind) (id : Z)
      (* console.log(`Fetching data for ${type} ${id} ...`) *)
  | LogFailedFetching (type : Kind) (id : Z) (message : string)
      (* console.log(`Failed fetching ${type} ${id}: ${error.message}`) *)
  | LogNoSpellData (id : Z)
      (* console.error(`No spell data for ${spellID}`) *)
  | LogNewFound (type : Kind) (n : nat)
      (* console.log(`${cache.size - numFound} new ${type}s found.`) *)
  | LogReusingCache (category : string) (type : Kind)
      (* console.log(`Reusing cache ${file}`) *)
  | LogNoAurasFound (category : string) (ids : gset Z)
      (* console.warn(`No auras found for ${category}: ${[...itemsCache]}`) *)
  | LogError (e : Exception).
      (* console.error(error) *)

Inductive Completion (S A : Type) :=
  | Return (a : A) (s : S)
  | Throw (e : Exception) (s : S)
  | OutOfFuel.
Arguments Return {S A} a s.
Arguments Throw {S A} e s.
Arguments OutOfFuel {S A}.

(** [for (const x of l) body(x)], over an array that the body does not
    modify: the first exception leaves the loop. *)
Fixpoint for_of {S A : Type} (body : A → S → Completion S unit)
    (l : list A) (s : S) : Completion S unit :=
  match l with
  | [] => Return tt s
  | x :: rest =>
      match body x s with
      | Return _ s' => for_of body rest s'
      | Throw e s' => Throw e s'
      | OutOfFuel => OutOfFuel
      end
  end.

(** The state an outcome ends in, when there is one. *)
Definition final_state {S A : Type} (c : Completion S A) : option S :=
  match c with
  | Return _ s => Some s
  | Throw _ s => Some s
  | OutOfFuel => None
  end.

(** The outcome is a normal return. *)
Definition returns {S A : Type} (c : Completion S A) : Prop :=
  match c with Return _ _ => True | _ => False end.

(** ** [getData] (index.js, lines 237-243): sequential search, first match *)

Fixpoint getData (id : Z) (store : list Spell.t) : option Spell.t :=
  match store with
  | [] => None
  | data :: rest =>
      if decide (Spell.ID data = id) then Some data else getData id rest
  end.

(** ** The exclusion set [blacklist] (lines 186-198) *)

Definition blacklist : gset string :=
  list_to_set [
    "Drink"; "Food"; "Food & Drink"; "Brain Food"; "Refreshment";
    "Refreshing Drink"; "Refreshing Food"; "Bountiful Drink";
    "Bountiful Food"; "Holiday Drink"; "Brewfest Drink" ].

Definition blacklist_has (name : string) : bool :=
  bool_decide (name ∈ blacklist).

(** ** [getAurasForItem] (lines 208-228) *)

(** The objects shared by one call tree of [getAurasForItem], and the
    console.  [processed] is a history variable, not a variable of the
    program: it lists, latest first, the ids for which the body ran past the
    guard (one entry at each [lookedup.add(spellID)]). *)
Record Resolution := mkResolution {
  auras : gmap Z string;
  lookedup : gset Z;
  console : list LogEvent;
  processed : list Z
}.

(** What a call returns: [return;] (undefined) or [return auras;], the
    reference to the shared object [auras] of the state. *)
Inductive Returned := RetUndefined | RetAuras.

Definition log_resolution (ev : LogEvent) (st : Resolution) : Resolution :=
  mkResolution (auras st) (lookedup st) (console st ++ [ev]) (processed st).

Definition add_lookedup (spellID : Z) (st : Resolution) : Resolution :=
  mkResolution (auras st) ({[spellID]} ∪ lookedup st) (console st)
    (spellID :: processed st).

Definition set_aura (spellID : Z) (name : string) (st : Resolution)
    : Resolution :=
  mkResolution (<[spellID := name]> (auras st)) (lookedup st) (console st)
    (processed st).

(** The body of [for (const effect of spellData.Effects)]; [recur] is the
    recursive call [getAurasForItem(_, spells, auras, lookedup)], whose
    returned value is dropped. *)
Definition effect_body (recur : Z → Resolution → Completion Resolution Returned)
    (spellID : Z) (spellData : Spell.t) (effect : Effect) (st : Resolution)
    : Completion Resolution unit :=
  let st1 :=
    if Aura effect && negb (blacklist_has (Spell.Name spellData))
    then set_aura spellID (Spell.Name spellData) st
    else st in
  match truthy (AffectedSpell effect) with
  | Some target =>
      match recur target st1 with
      | Return _ st2 => Return tt st2
      | Throw e st2 => Throw e st2
      | OutOfFuel => OutOfFuel
      end
  | None => Return tt st1
  end.

(** What [spellData.Effects] throws when [spellData] is undefined. *)
Definition undefined_Effects : Exception :=
  TypeError "Cannot read properties of undefined (reading 'Effects')".

(** The function with its four parameters; [auras], [lookedup] and the
    console are in [st].  [fuel] bounds the depth of the recursion. *)
Fixpoint getAurasForItem_rec (fuel : nat) (spells : list Spell.t)
    (spellID : Z) (st : Resolution) : Completion Resolution Returned :=
  match fuel with
  | O => OutOfFuel
  | S fuel' =>
      if decide (spellID ∈ lookedup st) then Return RetUndefined st
      else
        match getData spellID spells with
        | None =>
            (* the message is printed, the id is added, and reading
               [spellData.Effects] of undefined throws *)
            Throw undefined_Effects
              (add_lookedup spellID (log_resolution (LogNoSpellData spellID) st))
        | Some spellData =>
            match for_of (effect_body (getAurasForItem_rec fuel' spells)
                            spellID spellData)
                    (Spell.Effects spellData) (add_lookedup spellID st) with
            | Return _ st' => Return RetAuras st'
            | Throw e st' => Throw e st'
            | OutOfFuel => OutOfFuel
            end
        end
  end.

(** The call [getAurasForItem(spellID, spells)] of [prepareItemAndSpellData]:
    the default parameters create a new object [auras = {}] and a new
    [lookedup = new Set()] at every such call.  One level of recursion for
    each distinct id of [spells], and one more for the call that stops at
    the guard or at a missing record, always suffices (see
    [getAurasForItem_rec_enough_fuel]). *)
Definition fresh_resolution (out : list LogEvent) : Resolution :=
  mkResolution ∅ ∅ out [].

Definition getAurasForItem (spellID : Z) (spells : list Spell.t)
    (out : list LogEvent) : Completion Resolution Returned :=
  getAurasForItem_rec (S (length spells)) spells spellID (fresh_resolution out).

(** ** The remote service and the cache directory *)

(** What [JSON.parse] of a wowdb answer yields for each kind of record. *)
Definition Json (type : Kind) : Type :=
  match type with
  | item => Item.t
  | spell => Spell.t
  end.

(** The remote service.  [wowdb_get type id w] is the whole of
    [wowdb.get], the stripping of the parentheses and [JSON.parse]: a record,
    or the exception one of them raised; the service may answer differently
    each time it is asked ([World] is its state). *)
Class Remote (World : Type) := {
  wowdb_get : ∀ type : Kind, Z → World → (Exception + Json type) * World
}.

(** A JSON file of [./cache/<category>/]. *)
Inductive File (A : Type) :=
  | Missing                (* [fs.readFile] throws *)
  | Unparsable             (* [JSON.parse] throws *)
  | Parsed (content : A).
Arguments Missing {A}.
Arguments Unparsable {A}.
Arguments Parsed {A} content.

Record Files := mkFiles {
  items_json : File (list Item.t);
  spells_json : File (list Spell.t);
  category_json : File (list Z);       (* the field [itemIDs] *)
  output_json : File (gmap Z (gmap Z string))
}.

Definition no_files : Files := mkFiles Missing Missing Missing Missing.

(** [items.sort((a, b) => a.ID - b.ID)]: the stable sort by ascending id. *)
Fixpoint insert_by {A : Type} (key : A → Z) (x : A) (l : list A) : list A :=
  match l with
  | [] => [x]
  | y :: rest =>
      if decide (key x ≤ key y) then x :: l else y :: insert_by key x rest
  end.

Definition sort_by {A : Type} (key : A → Z) (l : list A) : list A :=
  foldr (insert_by key) [] l.

(** [for (const r of records) cache.add(r.ID)] on [cache = new Set()]. *)
Definition ids_of {A : Type} (key : A → Z) (records : list A) : gset Z :=
  foldl (λ cache r, {[key r]} ∪ cache) ∅ records.

Section Engine.
Context {World : Type} `{!Remote World}.

(** Everything outside the program's own variables. *)
Record Env := mkEnv {
  files : gmap string Files;       (* the directory [./cache] *)
  world : World;                   (* the remote service *)
  out : list LogEvent;             (* the console *)
  itemNames : gmap Z string        (* the global object [itemNames] *)
}.

Definition dir (category : string) (e : Env) : Files :=
  default no_files (files e !! category).

Definition log (ev : LogEvent) (e : Env) : Env :=
  mkEnv (files e) (world e) (out e ++ [ev]) (itemNames e).

(** The array [items] or [spells] and the set [cache], as one update of a
    cache threads them. *)
Record Run (A : Type) := mkRun {
  records : list A;
  cache : gset Z;
  env : Env
}.
Arguments mkRun {A} records cache env.
Arguments records {A} r.
Arguments cache {A} r.
Arguments env {A} r.

(** [downloadJson] (lines 352-359). *)
Definition downloadJson (type : Kind) (id : Z) (e : Env)
    : Completion Env (Json type) :=
  let e1 := log (LogFetching type id) e in
  match wowdb_get type id (world e1) with
  | (inr data, w) => Return data (mkEnv (files e1) w (out e1) (itemNames e1))
  | (inl error, w) => Throw error (mkEnv (files e1) w (out e1) (itemNames e1))
  end.

(** [loadCache] (lines 255-263): the message is printed once the file is
    read, before [JSON.parse]; any exception gives the empty array. *)
Definition loadCache {A : Type} (category : string) (type : Kind)
    (file : File (list A)) (e : Env) : list A * Env :=
  match file with
  | Missing => ([], e)
  | Unparsable => ([], log (LogReusingCache category type) e)
  | Parsed loaded => (loaded, log (LogReusingCache category type) e)
  end.

(** *** [updateItemsCache] (lines 272-306) *)

(** The body of [for (const itemID of info)]. *)
Definition fetch_item (itemID : Z) (st : Run Item.t)
    : Completion (Run Item.t) unit :=
  if decide (itemID ∈ cache st) then Return tt st
  else
    match downloadJson item itemID (env st) with
    | Return it e =>
        Return tt (mkRun (records st ++ [it]) ({[itemID]} ∪ cache st) e)
    | Throw error e =>
        Return tt (mkRun (records st) (cache st)
          (log (LogFailedFetching item itemID (message_of error)) e))
    | OutOfFuel => OutOfFuel
    end.

(** [fs.writeJSON] of the three files the program writes. *)
Definition write_items (category : string) (items : list Item.t) (e : Env)
    : Env :=
  let d := dir category e in
  mkEnv (<[category := mkFiles (Parsed items) (spells_json d)
                         (category_json d) (output_json d)]> (files e))
    (world e) (out e) (itemNames e).

Definition write_spells (category : string) (spells : list Spell.t)
    (e : Env) : Env :=
  let d := dir category e in
  mkEnv (<[category := mkFiles (items_json d) (Parsed spells)
                         (category_json d) (output_json d)]> (files e))
    (world e) (out e) (itemNames e).

Definition write_output (category : string)
    (output : gmap Z (gmap Z string)) (e : Env) : Env :=
  let d := dir category e in
  mkEnv (<[category := mkFiles (items_json d) (spells_json d)
                         (category_json d) (Parsed output)]> (files e))
    (world e) (out e) (itemNames e).

(** [if (cache.size !== numFound) { log; sort; writeJSON }], common to both
    caches; the result is the pair [{ records, cache }] that is returned. *)
Definition persist_if_grown {A : Type} (type : Kind) (key : A → Z)
    (write : list A → Env → Env) (numFound : nat) (st : Run A)
    : Completion Env (list A * gset Z) :=
  if decide (size (cache st) ≠ numFound) then
    let e := log (LogNewFound type (size (cache st) - numFound)) (env st) in
    let sorted := sort_by key (records st) in
    Return (sorted, cache st) (write sorted e)
  else Return (records st, cache st) (env st).

Definition updateItemsCache (category : string) (e : Env)
    : Completion Env (list Item.t * gset Z) :=
  let (items, e1) := loadCache category item (items_json (dir category e)) e in
  let cache := ids_of Item.ID items in
  let numFound := size cache in
  match category_json (dir category e1) with
  | Parsed info =>
      match for_of fetch_item info (mkRun items cache e1) with
      | Return _ st =>
          persist_if_grown item Item.ID (write_items category) numFound st
      | Throw error st => Throw error (env st)
      | OutOfFuel => OutOfFuel
      end
  | Missing => Throw (Error "ENOENT: no such file or directory") e1
  | Unparsable => Throw (Error "Unexpected token in JSON") e1
  end.

(** *** [cacheRelatedSpells] (lines 334-350) and [updateSpellsCache]
    (lines 308-332) *)

(** The body of [for (const effect of spell.Effects)]. *)
Definition follow_effect (recur : Z → Run Spell.t → Completion (Run Spell.t) unit)
    (effect : Effect) (st : Run Spell.t) : Completion (Run Spell.t) unit :=
  match truthy (AffectedSpell effect) with
  | Some target => recur target st
  | None => Return tt st
  end.

(** The [catch] block: [console.log(`Failed fetching ...`)]. *)
Definition failed_fetching (type : Kind) (id : Z) (error : Exception)
    {A : Type} (st : Run A) : Run A :=
  mkRun (records st) (cache st)
    (log (LogFailedFetching type id (message_of error)) (env st)).

Fixpoint cacheRelatedSpells (fuel : nat) (spellID : Z) (st : Run Spell.t)
    : Completion (Run Spell.t) unit :=
  match fuel with
  | O => OutOfFuel
  | S fuel' =>
      if decide (spellID ∈ cache st) then Return tt st
      else
        (* try *)
        match downloadJson spell spellID (env st) with
        | Return sp e =>
            match for_of (follow_effect (cacheRelatedSpells fuel'))
                    (Spell.Effects sp)
                    (mkRun (records st ++ [sp]) ({[spellID]} ∪ cache st) e)
            with
            | Return _ st' => Return tt st'
            | Throw error st' =>
                (* catch *) Return tt (failed_fetching spell spellID error st')
            | OutOfFuel => OutOfFuel
            end
        | Throw error e =>
            (* catch *)
            Return tt (failed_fetching spell spellID error
                         (mkRun (records st) (cache st) e))
        | OutOfFuel => OutOfFuel
        end
  end.

(** [for (let spell of item.Spells) await cacheRelatedSpells(...)] *)
Definition cache_item_spells (fuel : nat) (it : Item.t) (st : Run Spell.t)
    : Completion (Run Spell.t) unit :=
  for_of (λ sp, cacheRelatedSpells fuel (SpellID sp)) (Item.Spells it) st.

Definition updateSpellsCache (fuel : nat) (category : string)
    (items : list Item.t) (e : Env)
    : Completion Env (list Spell.t * gset Z) :=
  let (spells, e1) := loadCache category spell (spells_json (dir category e)) e in
  let cache := ids_of Spell.ID spells in
  let numFound := size cache in
  match for_of (cache_item_spells fuel) items (mkRun spells cache e1) with
  | Return _ st =>
      persist_if_grown spell Spell.ID (write_spells category) numFound st
  | Throw error st => Throw error (env st)
  | OutOfFuel => OutOfFuel
  end.

(** *** [prepareItemAndSpellData] (lines 75-113) *)

(** The variables of the loop over the items of one category. *)
Record Aggregate := mkAggregate {
  itemsCache : gset Z;
  categoryData : gmap Z (gmap Z string);
  agg_env : Env
}.

(** What [Object.keys(undefined)] throws. *)
Definition undefined_keys : Exception :=
  TypeError "Cannot convert undefined or null to object".

(** The body of [for (const spell of item.Spells)]: the call
    [getAurasForItem(spell.SpellID, spells)] passes neither [auras] nor
    [lookedup], so both start empty at every granted spell. *)
Definition resolve_spell (spells : list Spell.t) (it : Item.t)
    (sp : SpellRef) (ag : Aggregate) : Completion Aggregate unit :=
  let e := agg_env ag in
  let after (r : Resolution) :=
    mkEnv (files e) (world e) (console r) (itemNames e) in
  match getAurasForItem (SpellID sp) spells (out e) with
  | Return RetAuras r =>
      if decide (size (auras r) ≠ 0%nat) then
        Return tt (mkAggregate (itemsCache ag ∖ {[Item.ID it]})
                     (<[Item.ID it := auras r]> (categoryData ag)) (after r))
      else Return tt (mkAggregate (itemsCache ag) (categoryData ag) (after r))
  | Return RetUndefined r =>
      Throw undefined_keys
        (mkAggregate (itemsCache ag) (categoryData ag) (after r))
  | Throw error r =>
      Throw error (mkAggregate (itemsCache ag) (categoryData ag) (after r))
  | OutOfFuel => OutOfFuel
  end.

(** The body of [for (const item of items)]. *)
Definition resolve_item (spells : list Spell.t) (it : Item.t)
    (ag : Aggregate) : Completion Aggregate unit :=
  let e := agg_env ag in
  let e1 := mkEnv (files e) (world e) (out e)
              (<[Item.ID it := Item.Name it]> (itemNames e)) in
  for_of (resolve_spell spells it) (Item.Spells it)
    (mkAggregate (itemsCache ag) (categoryData ag) e1).

(** The body of [for (const category of Object.keys(categories))]; the
    result is [categoryData]. *)
Definition prepareCategory (fuel : nat) (category : string) (e : Env)
    : Completion Env (gmap Z (gmap Z string)) :=
  match updateItemsCache category e with
  | Return (items, cache_of_items) e1 =>
      match updateSpellsCache fuel category items e1 with
      | Return (spells, cache_of_spells) e2 =>
          match for_of (resolve_item spells) items
                  (mkAggregate cache_of_items ∅ e2) with
          | Return _ ag =>
              let e3 :=
                if decide (0 < size (itemsCache ag))%nat
                then log (LogNoAurasFound category (itemsCache ag)) (agg_env ag)
                else agg_env ag in
              Return (categoryData ag)
                (write_output category (categoryData ag) e3)
          | Throw error ag => Throw error (agg_env ag)
          | OutOfFuel => OutOfFuel
          end
      | Throw error e2 => Throw error e2
      | OutOfFuel => OutOfFuel
      end
  | Throw error e1 => Throw error e1
  | OutOfFuel => OutOfFuel
  end.

(** The whole function: one [try] around the loop over the categories; an
    exception is printed and the function returns [undefined] ([None]). *)
Definition prepareItemAndSpellData (fuel : nat) (categories : list string)
    (e : Env)
    : Completion Env (option (gmap string (gmap Z (gmap Z string)))) :=
  let body (category : string)
      (st : gmap string (gmap Z (gmap Z string)) * Env) :=
    match prepareCategory fuel category st.2 with
    | Return categoryData e' =>
        Return tt (<[category := categoryData]> st.1, e')
    | Throw error e' => Throw error (st.1, e')
    | OutOfFuel => OutOfFuel
    end in
  match for_of body categories (∅, e) with
  | Return _ st => Return (Some st.1) st.2
  | Throw error st => Return None (log (LogError error) st.2)
  | OutOfFuel => OutOfFuel
  end.

End Engine.

Arguments mkRun {World A} records cache env.
Arguments records {World A} r.
Arguments cache {World A} r.
Arguments env {World A} r.

(** The keys of the object [categories], in order. *)
Definition categories : list string :=
  [ "bandages"; "elixirs"; "flasks"; "food_and_drinks";
    "miscellaneous_items"; "other_consumables"; "potions"; "trinkets" ].

(** * Vocabulary of the properties *)

(** ** Resolution *)

Definition grants_aura (sd : Spell.t) : Prop :=
  ∃ e, e ∈ Spell.Effects sd ∧ Aura e = true.

Section ResolutionSpec.
Variable spells : list Spell.t.

(** [references x t]: the record found for [x] has an effect whose
    [AffectedSpell] is the (truthy) id [t]. *)
Definition references (x t : Z) : Prop :=
  ∃ sd e, getData x spells = Some sd ∧ e ∈ Spell.Effects sd ∧
          truthy (AffectedSpell e) = Some t.

(** [st'] comes after [st] in one call tree. *)
Record extends (st st' : Resolution) : Prop := {
  ext_lookedup : lookedup st ⊆ lookedup st';
  ext_processed :
    ∃ new, processed st' = new ++ processed st ∧ NoDup new ∧
           ∀ x, x ∈ new ↔ x ∈ lookedup st' ∧ x ∉ lookedup st;
  ext_console : ∃ extra, console st' = console st ++ extra;
  ext_auras_old :
    ∀ k, (k ∈ lookedup st ∨ k ∉ lookedup st') →
         auras st' !! k = auras st !! k;
  ext_auras_new :
    ∀ k v, auras st' !! k = Some v →
      auras st !! k = Some v ∨
      ((k ∉ lookedup st) ∧ k ∈ lookedup st' ∧
       (∃ sd, getData k spells = Some sd ∧ v = Spell.Name sd ∧
              blacklist_has (Spell.Name sd) = false ∧ grants_aura sd))
}.

(** In [s], the spell [x] has been dealt with completely. *)
Definition done_at (s : Resolution) (x : Z) : Prop :=
  ∃ sd, getData x spells = Some sd ∧
    (∀ e t, e ∈ Spell.Effects sd → truthy (AffectedSpell e) = Some t →
            t ∈ lookedup s) ∧
    (grants_aura sd → blacklist_has (Spell.Name sd) = false →
     auras s !! x = Some (Spell.Name sd)).

(** Every spell looked up between [st] and [st'] is dealt with in [st']. *)
Definition resolved (st st' : Resolution) : Prop :=
  ∀ x, x ∈ lookedup st' → x ∉ lookedup st → done_at st' x.

(** The invariant of the loop over the effects of [sd], the record of
    [id], in the call that started in [st]; [pre] are the effects already
    iterated over. *)
Record effects_inv (id : Z) (sd : Spell.t) (st : Resolution)
    (pre : list Effect) (s : Resolution) : Prop := {
  inv_extends : extends st s;
  inv_self : id ∈ lookedup s;
  inv_others : ∀ x, x ∈ lookedup s → x ∉ lookedup st → x ≠ id → done_at s x;
  inv_targets :
    ∀ e t, e ∈ pre → truthy (AffectedSpell e) = Some t → t ∈ lookedup s;
  inv_aura :
    (∃ e, e ∈ pre ∧ Aura e = true) →
    blacklist_has (Spell.Name sd) = false →
    auras s !! id = Some (Spell.Name sd)
}.

(** What a call that throws leaves behind: the warning for a missing id
    is the last message on the console. *)
Definition thrown (st : Resolution) (e : Exception) (st' : Resolution)
    : Prop :=
  extends st st' ∧ e = undefined_Effects ∧
  (∃ missing, getData missing spells = None ∧ missing ∈ lookedup st' ∧
              (missing ∉ lookedup st) ∧
              last (console st') = Some (LogNoSpellData missing)).

(** What a call on [id] started in [st] guarantees of its outcome [c]. *)
Definition call_spec (id : Z) (st : Resolution)
    (c : Completion Resolution Returned) : Prop :=
  match c with
  | Return v st' =>
      extends st st' ∧ resolved st st' ∧ id ∈ lookedup st' ∧
      (v = RetUndefined ↔ id ∈ lookedup st)
  | Throw e st' => thrown st e st' ∧ id ∈ lookedup st'
  | OutOfFuel => True
  end.

(** The ids of the records of the collection. *)
Definition spell_ids : gset Z := list_to_set (Spell.ID <$> spells).

(** The spells a resolution from [root] can come to. *)
Definition reachable (root : Z) : Z → Prop := rtc references root.

End ResolutionSpec.

(** The entry a record contributes: its name, when one of its effects has
    the flag [Aura] and the name is not excluded. *)
Definition is_aura (sd : Spell.t) : bool :=
  existsb Aura (Spell.Effects sd) && negb (blacklist_has (Spell.Name sd)).

(** The entry of the output mapping for the id of [sd], if any. *)
Definition aura_entry (sd : Spell.t) : option string :=
  if is_aura sd then Some (Spell.Name sd) else None.

(** A state, and an outcome, with the console left out. *)
Definition erase (st : Resolution) : Resolution :=
  mkResolution (auras st) (lookedup st) [] (processed st).

Definition erase_outcome {A : Type} (c : Completion Resolution A)
    : Completion Resolution A :=
  match c with
  | Return a s => Return a (erase s)
  | Throw e s => Throw e (erase s)
  | OutOfFuel => OutOfFuel
  end.

(** The mapping a top-level call from [root] builds (its content when the
    call ends, by [return auras] or by an exception). *)
Definition auras_of (root : Z) (spells : list Spell.t) : gmap Z string :=
  from_option auras ∅ (final_state (getAurasForItem root spells [])).

(** [if (Object.keys(auras).length) categoryData.set(item.ID, auras)] *)
Definition record_entry (itemID : Z) (categoryData : gmap Z (gmap Z string))
    (m : gmap Z string) : gmap Z (gmap Z string) :=
  if decide (size m ≠ 0%nat) then <[itemID := m]> categoryData
  else categoryData.

(** Every entry of the category mapping is the mapping of some top-level
    resolution, or was there before. *)
Definition entries_from (spells : list Spell.t)
    (cd cd' : gmap Z (gmap Z string)) : Prop :=
  ∀ i m, cd' !! i = Some m →
         cd !! i = Some m ∨ ∃ root, m = auras_of root spells.

(** ** The caches *)

(** One request to the service during an update: the id asked for and the
    answer. *)
Definition Attempt (type : Kind) : Type := (Z * (Exception + Json type))%type.

(** What an attempt prints: the announcement of [downloadJson], and the
    message of the [catch] when it failed. *)
Definition render {type : Kind} (a : Attempt type) : list LogEvent :=
  LogFetching type a.1 ::
  match a.2 with
  | inl error => [LogFailedFetching type a.1 (message_of error)]
  | inr _ => []
  end.

(** The successful attempts: the id asked for, with the record received. *)
Definition fetched {type : Kind} (attempts : list (Attempt type))
    : list (Z * Json type) :=
  omap (λ a, match a.2 with inr r => Some (a.1, r) | inl _ => None end)
       attempts.

(** The failed attempts. *)
Definition failed {type : Kind} (attempts : list (Attempt type)) : list Z :=
  omap (λ a, match a.2 with inl _ => Some a.1 | inr _ => None end) attempts.

(** The set [cache] after a sequence of attempts. *)
Definition cache_after {type : Kind} (cache : gset Z)
    (attempts : list (Attempt type)) : gset Z :=
  foldl (λ c a, match a.2 with inr _ => {[a.1]} ∪ c | inl _ => c end)
        cache attempts.

Section CacheSpec.
Context {World : Type} `{!Remote World}.

Section PerKind.
Variable type : Kind.

(** A sequence of attempts that an update starting with the set [cache]
    can make: each id asked for is outside the set as it stands then, and
    each answer is one the service gave. *)
Fixpoint attempts_ok (cache : gset Z) (attempts : list (Attempt type))
    : Prop :=
  match attempts with
  | [] => True
  | a :: rest =>
      (a.1 ∉ cache) ∧
      (∃ w w', wowdb_get type a.1 w = (a.2, w')) ∧
      attempts_ok (cache_after cache [a]) rest
  end.

(** [st'] comes from [st] by the attempts [attempts]. *)
Record grows (st st' : @Run World (Json type)) (attempts : list (Attempt type))
    : Prop := {
  grows_ok : attempts_ok (cache st) attempts;
  grows_records : records st' = records st ++ (fetched attempts).*2;
  grows_cache : cache st' = cache_after (cache st) attempts;
  grows_out : out (env st') = out (env st) ++ flat_map render attempts;
  grows_files : files (env st') = files (env st);
  grows_names : itemNames (env st') = itemNames (env st)
}.

End PerKind.

(** What a call of [cacheRelatedSpells] on [spellID] started in [st]
    guarantees of its outcome [c]: it does not throw, and [spellID] ends in
    the set or with a failed attempt. *)
Definition expanded (spellID : Z) (st : @Run World Spell.t)
    (c : Completion (@Run World Spell.t) unit) : Prop :=
  match c with
  | Return _ st' =>
      ∃ l, grows spell st st' l ∧ (spellID ∈ cache st' ∨ spellID ∈ failed l)
  | Throw _ _ => False
  | OutOfFuel => True
  end.

(** What [persist_if_grown] does after the attempts [l]: nothing when none
    succeeded, the message, the sort and the write otherwise. *)
Definition persisted (type : Kind) (key : Json type → Z)
    (write : list (Json type) → @Env World → @Env World)
    (st' : @Run World (Json type)) (l : list (Attempt type))
    : Completion (@Env World) (list (Json type) * gset Z) :=
  match fetched l with
  | [] => Return (records st', cache st') (env st')
  | _ :: _ =>
      Return (sort_by key (records st'), cache st')
        (write (sort_by key (records st'))
           (log (LogNewFound type (length (fetched l))) (env st')))
  end.

(** The collection and the state an update starts its fetches from. *)
Definition loaded_items (category : string) (e : @Env World) : list Item.t :=
  (loadCache category item (items_json (dir category e)) e).1.

Definition loaded_spells (category : string) (e : @Env World)
    : list Spell.t :=
  (loadCache category spell (spells_json (dir category e)) e).1.

Definition items_start (category : string) (e : @Env World)
    : @Run World Item.t :=
  mkRun (loaded_items category e) (ids_of Item.ID (loaded_items category e))
    (loadCache category item (items_json (dir category e)) e).2.

Definition spells_start (category : string) (e : @Env World)
    : @Run World Spell.t :=
  mkRun (loaded_spells category e)
    (ids_of Spell.ID (loaded_spells category e))
    (loadCache category spell (spells_json (dir category e)) e).2.

(** What the fetches of one update leave, in terms of its [attempts], in
    order: they are requests the update can make, each is on the console,
    with its failure when it failed; the returned set holds the ids loaded
    and the ids of the attempts that succeeded, and no other; the returned
    collection holds the records loaded and the records received, and no
    other.  A failed attempt adds nothing, and an id is outside the set
    exactly when it was not loaded and no attempt for it succeeded. *)
Definition attempts_account (type : Kind) (key : Json type → Z)
    (loaded returned : list (Json type)) (cache' : gset Z)
    (out0 out' : list LogEvent) (attempts : list (Attempt type)) : Prop :=
  attempts_ok type (ids_of key loaded) attempts ∧
  (∃ post, out' = out0 ++ flat_map render attempts ++ post) ∧
  (∀ id, id ∈ failed attempts →
     ∃ msg, LogFailedFetching type id msg ∈ out') ∧
  (∀ id, id ∈ cache' ↔ id ∈ key <$> loaded ∨ id ∈ (fetched attempts).*1) ∧
  returned ≡ₚ loaded ++ (fetched attempts).*2.

(** What "a failed fetch is local" says of one run of [updateItemsCache]
    over the listing [info]: the run returns; every listed id is in the
    returned set or has a failed attempt; the attempts account for the set,
    the collection and the console; and an id that the service never
    answers with a record stays out of both. *)
Definition items_failure_is_local (category : string) (e : @Env World)
    (info : list Z) : Prop :=
  ∃ items' cache' e' (attempts : list (Attempt item)),
    updateItemsCache category e = Return (items', cache') e' ∧
    (∀ a, a ∈ attempts → a.1 ∈ info) ∧
    (∀ id, id ∈ info → id ∈ cache' ∨ id ∈ failed attempts) ∧
    attempts_account item Item.ID (loaded_items category e) items' cache'
      (out (env (items_start category e))) (out e') attempts ∧
    (∀ id, id ∈ info →
       id ∈ cache' ∨ ∃ msg, LogFailedFetching item id msg ∈ out e') ∧
    (∀ id,
       (∀ w, ∃ error w', wowdb_get item id w = (inl error, w')) →
       id ∉ Item.ID <$> loaded_items category e →
       (id ∉ cache') ∧
       (id ∈ info → ∃ msg, LogFailedFetching item id msg ∈ out e') ∧
       ((∀ j w r w', wowdb_get item j w = (inr r, w') → Item.ID r = j) →
        id ∉ Item.ID <$> items')).

(** The same of one run of [updateSpellsCache] over [items]. *)
Definition spells_failure_is_local (fuel : nat) (category : string)
    (items : list Item.t) (e : @Env World) : Prop :=
  (∀ error e', updateSpellsCache fuel category items e ≠ Throw error e') ∧
  (∀ spells' cache' e',
     updateSpellsCache fuel category items e = Return (spells', cache') e' →
     (∃ attempts : list (Attempt spell),
        (∀ it sp, it ∈ items → sp ∈ Item.Spells it →
           SpellID sp ∈ cache' ∨ SpellID sp ∈ failed attempts) ∧
        attempts_account spell Spell.ID (loaded_spells category e) spells'
          cache' (out (env (spells_start category e))) (out e') attempts) ∧
     (∀ it sp, it ∈ items → sp ∈ Item.Spells it →
        SpellID sp ∈ cache' ∨
        ∃ msg, LogFailedFetching spell (SpellID sp) msg ∈ out e') ∧
     (∀ id,
        (∀ w, ∃ error w', wowdb_get spell id w = (inl error, w')) →
        id ∉ Spell.ID <$> loaded_spells category e →
        (id ∉ cache') ∧
        ((∀ j w r w', wowdb_get spell j w = (inr r, w') → Spell.ID r = j) →
         id ∉ Spell.ID <$> spells'))).

End CacheSpec.

Arguments attempts_ok {World _} type cache attempts.
Arguments grows {World _} type st st' attempts.
Arguments attempts_account {World _} type key loaded returned cache'
  out0 out' attempts.

(** How an update of a cache ends, in terms of its attempts: [printed] is
    what it added to the console after loading. *)
Definition update_outcome {type : Kind} (key : Json type → Z)
    (loaded returned : list (Json type)) (cache0 cache' : gset Z)
    (file_before file_after : File (list (Json type)))
    (files_before files_after : gmap string Files)
    (printed : list LogEvent) : Prop :=
  ∃ attempts : list (Attempt type),
    printed = flat_map render attempts ++
              match fetched attempts with
              | [] => []
              | _ :: _ => [LogNewFound type (length (fetched attempts))]
              end ∧
    match fetched attempts with
    | [] =>
        cache' = cache0 ∧ files_after = files_before ∧ returned = loaded
    | _ :: _ =>
        cache' ≠ cache0 ∧ file_after = Parsed returned ∧
        file_after ≠ file_before ∧
        returned = sort_by key (loaded ++ (fetched attempts).*2)
    end.

(** * Remote services and records of the examples *)

(** No request succeeds. *)
Definition offline : Remote unit :=
  {| wowdb_get := λ type id w, (inl (Error "Network Error"), w) |}.

(** The records of two tables are served, any other id is unknown. *)
Definition serving (items : list Item.t) (spells : list Spell.t)
    : Remote unit :=
  {| wowdb_get := λ type id w,
       match type as t return (Exception + Json t) * unit with
       | item =>
           (match list_find (λ r, Item.ID r = id) items with
            | Some (_, r) => inr r
            | None => inl (Error "Request failed with status code 404")
            end, w)
       | spell =>
           (match list_find (λ r, Spell.ID r = id) spells with
            | Some (_, r) => inr r
            | None => inl (Error "Request failed with status code 404")
            end, w)
       end |}.

(** The first [n] requests fail, the later ones are served: the state of
    the service is the number of requests received. *)
Definition flaky (n : nat) (items : list Item.t) (spells : list Spell.t)
    : Remote nat :=
  {| wowdb_get := λ type id w,
       if decide (w < n)%nat then (inl (Error "timeout"), S w)
       else (fst (@wowdb_get unit (serving items spells) type id tt), S w) |}.

(** Spells and items of the scenarios of the specification. *)
Definition spell10 : Spell.t := Spell.mk 10 "Haste Boost" [mkEffect true None].
Definition spell11 : Spell.t := Spell.mk 11 "Regen" [mkEffect true None].
Definition spell20 : Spell.t := Spell.mk 20 "Trigger" [mkEffect false (Some 21)].
Definition spell21 : Spell.t := Spell.mk 21 "Regen" [mkEffect true None].
Definition spell30 : Spell.t := Spell.mk 30 "Ping" [mkEffect true (Some 31)].
Definition spell31 : Spell.t := Spell.mk 31 "Pong" [mkEffect true (Some 30)].
Definition spell40 : Spell.t := Spell.mk 40 "Food" [mkEffect true (Some 41)].
Definition spell41 : Spell.t := Spell.mk 41 "Well Fed" [mkEffect true None].

Definition item100 : Item.t := Item.mk 100 "Swift Charm" [mkSpellRef 10].
Definition item200 : Item.t := Item.mk 200 "Old Totem" [mkSpellRef 20].
Definition item300 : Item.t :=
  Item.mk 300 "Twin Idol" [mkSpellRef 10; mkSpellRef 11].

(** A spell whose two effects reference spell 51, which the service does
    not know. *)
Definition spell50 : Spell.t :=
  Spell.mk 50 "Chain" [mkEffect false (Some 51); mkEffect false (Some 51)].

(** A cache directory whose three input files parse. *)
Definition cached (items : list Item.t) (spells : list Spell.t)
    (itemIDs : list Z) : Files :=
  mkFiles (Parsed items) (Parsed spells) (Parsed itemIDs) Missing.

(** The state before a run: nothing printed, no name recorded. *)
Definition start {World : Type} (files : gmap string Files) (w : World)
    : @Env World :=
  mkEnv files w [] ∅.

(** A category directory used in the examples: two items cached (out of
    order), three listed; the service knows item 200 and not 999. *)
Definition potions_before : @Env unit :=
  start {[ "potions" := mkFiles (Parsed [item300; item100]) Missing
                          (Parsed [100; 200; 999]) Missing ]} tt.

Definition potions_after : @Env unit :=
  mkEnv {[ "potions" := mkFiles (Parsed [item100; item200; item300]) Missing
                          (Parsed [100; 200; 999]) Missing ]} tt
    [ LogReusingCache "potions" item; LogFetching item 200;
      LogFetching item 999;
      LogFailedFetching item 999 "Request failed with status code 404";
      LogNewFound item 1 ] ∅.

(** A second directory of the examples: one spell cached; the service knows
    the spells 20 and 21. *)
Definition elixirs_before : @Env unit :=
  start {[ "elixirs" := mkFiles Missing (Parsed [spell10]) Missing Missing ]} tt.

Definition elixirs_after : @Env unit :=
  mkEnv {[ "elixirs" := mkFiles Missing (Parsed [spell10; spell20; spell21])
                          Missing Missing ]} tt
    [ LogReusingCache "elixirs" spell; LogFetching spell 20;
      LogFetching spell 21; LogNewFound spell 2 ] ∅.

(** A listing that names item 200 twice, with nothing cached; and two items
    that grant the same spell 60. *)
Definition twice_listed : @Env nat :=
  start {[ "potions" := cached [] [] [200; 200] ]} 0%nat.

Definition spell60 : Spell.t := Spell.mk 60 "Thorns" [].
Definition item600 : Item.t := Item.mk 600 "Briar Ring" [mkSpellRef 60].
Definition item601 : Item.t := Item.mk 601 "Briar Band" [mkSpellRef 60].

(** The service of these two examples. *)
Definition wowdb_example : Remote unit :=
  serving [item200] [spell20; spell21].

(** * The stages around the engine

    [prepareCategoryLists], [prepareDatabase], [updateLibItemBuffs] and
    [getVersionString] work on text.  A JavaScript string is a sequence of
    UTF-16 code units, modelled as a [list N]; the names of the records,
    which are [string]s above, are read as their code units.  Numbers are
    the integers, which JavaScript represents exactly up to 2^53; the ids
    are keys of objects and, as the ids of the game are, non-negative and
    below 2^32 - 1, for which [Object.entries] enumerates the keys in
    ascending order. *)

(** ** Strings *)

(** The code units of a literal. *)
Definition js (s : string) : list N :=
  Ascii.N_of_ascii <$> String.list_ascii_of_string s.

Fixpoint take_while {A : Type} (p : A → bool) (l : list A) : list A :=
  match l with
  | x :: rest => if p x then x :: take_while p rest else []
  | [] => []
  end.

Fixpoint drop_while {A : Type} (p : A → bool) (l : list A) : list A :=
  match l with
  | x :: rest => if p x then drop_while p rest else l
  | [] => []
  end.

(** [s.startsWith(p)], with what follows [p] in [s]. *)
Fixpoint strip_prefix (p s : list N) : option (list N) :=
  match p, s with
  | [], _ => Some s
  | a :: p', b :: s' => if decide (a = b) then strip_prefix p' s' else None
  | _ :: _, [] => None
  end.

(** A relative index of [substring]: negative values count as [0], values
    beyond the length as the length. *)
Definition clamp (i : Z) (s : list N) : nat :=
  Z.to_nat (Z.max 0 (Z.min i (Z.of_nat (length s)))).

(** [s.substring(a, b)]: the code units from the smaller to the larger of
    the two clamped indices. *)
Definition substring (a b : Z) (s : list N) : list N :=
  let i := clamp a s in
  let j := clamp b s in
  take (Nat.max i j - Nat.min i j) (drop (Nat.min i j) s).

(** [s.substring(a)] and [s.slice(a)]: to the end of the string; a negative
    argument is [0] for [substring] and counts from the end for [slice]. *)
Definition substring_from (a : Z) (s : list N) : list N :=
  drop (clamp a s) s.

Definition slice_from (a : Z) (s : list N) : list N :=
  drop (clamp (if decide (a < 0) then Z.of_nat (length s) + a else a) s) s.

(** [s.indexOf(t)]: the first index at which [t] occurs in [s], or [-1]. *)
Fixpoint indexOf (t s : list N) : Z :=
  match strip_prefix t s with
  | Some _ => 0
  | None =>
      match s with
      | [] => -1
      | _ :: rest =>
          let i := indexOf t rest in
          if decide (i < 0) then -1 else 1 + i
      end
  end.

(** [lines.join("\n")] *)
Fixpoint join (sep : list N) (lines : list (list N)) : list N :=
  match lines with
  | [] => []
  | [line] => line
  | line :: rest => line ++ sep ++ join sep rest
  end.

(** ** Numbers and their decimal spelling *)

Definition is_digit (c : N) : bool := bool_decide (48 ≤ c ≤ 57)%N.

(** The decimal digits of a non-negative integer, the last one first;
    [fuel] is a bound on the number of digits. *)
Fixpoint rev_digits (fuel : nat) (n : Z) : list N :=
  match fuel with
  | O => []
  | S fuel' =>
      (48 + Z.to_N (n mod 10))%N ::
      (if decide (n < 10) then [] else rev_digits fuel' (n / 10))
  end.

(** [String(n)] and [`${n}`] for an integer [n]: its decimal spelling. *)
Definition digits (n : Z) : list N :=
  rev (rev_digits (S (Z.to_nat (Z.log2 n))) n).

Definition to_string (n : Z) : list N :=
  if decide (n < 0) then 45%N :: digits (- n) else digits n.

(** The characters of [\s] and of the white space that [parseInt] skips:
    WhiteSpace and LineTerminator of ECMAScript. *)
Definition LineTerminator (c : N) : bool :=
  bool_decide (c ∈ [10; 13; 8232; 8233]%N).

Definition WhiteSpace (c : N) : bool :=
  bool_decide (c ∈ [9; 11; 12; 32; 160; 5760; 8239; 8287; 12288; 65279]%N)
  || bool_decide (8192 ≤ c ≤ 8202)%N.

Definition white (c : N) : bool := WhiteSpace c || LineTerminator c.

(** The value of a digit in a radix of at most 36. *)
Definition digit_value (radix : Z) (c : N) : option Z :=
  let v :=
    if is_digit c then Some (Z.of_N c - 48)
    else if bool_decide (97 ≤ c ≤ 122)%N then Some (Z.of_N c - 87)
    else if bool_decide (65 ≤ c ≤ 90)%N then Some (Z.of_N c - 55)
    else None in
  v ≫= λ v, if decide (v < radix) then Some v else None.

(** The values of the longest run of digits that [s] starts with. *)
Fixpoint leading_digits (radix : Z) (s : list N) : list Z :=
  match s with
  | c :: rest =>
      match digit_value radix c with
      | Some v => v :: leading_digits radix rest
      | None => []
      end
  | [] => []
  end.

Definition number_of (radix : Z) (values : list Z) : Z :=
  foldl (λ acc v, radix * acc + v) 0 values.

(** [parseInt(s)], without a radix argument: leading white space, a sign,
    the prefix [0x] or [0X] of a hexadecimal number, and the longest run of
    digits; [None] is [NaN]. *)
Definition parseInt (s : list N) : option Z :=
  let s1 := drop_while white s in
  let (sign, s2) :=
    match s1 with
    | 45%N :: rest => (-1, rest)
    | 43%N :: rest => (1, rest)
    | _ => (1, s1)
    end in
  let (radix, s3) :=
    match s2 with
    | 48%N :: 120%N :: rest => (16, rest)
    | 48%N :: 88%N :: rest => (16, rest)
    | _ => (10, s2)
    end in
  match leading_digits radix s3 with
  | [] => None
  | values => Some (sign * number_of radix values)
  end.

(** [numbers.sort((a, b) => a - b)] *)
Definition sort_numbers (l : list Z) : list Z := sort_by id l.

(** ** The two regular expressions of [prepareCategoryLists] *)

(** [/^var\slistviewitems.+$/m] at a position where [^] holds: the two
    words with one character of [\s] between them, then [.+], which takes
    the characters up to the next line terminator or the end of the page,
    where [$] holds; there must be at least one.  The result is the text
    matched. *)
Definition listview_here (s : list N) : option (list N) :=
  match strip_prefix (js "var") s with
  | Some (c :: rest) =>
      if white c then
        match strip_prefix (js "listviewitems") rest with
        | Some rest' =>
            match take_while (λ c, negb (LineTerminator c)) rest' with
            | [] => None
            | run => Some (js "var" ++ c :: js "listviewitems" ++ run)
            end
        | None => None
        end
      else None
  | _ => None
  end.

(** [page.match(/^var\slistviewitems.+$/m)]: the first position, from the
    left, at which the expression matches; with the flag [m], [^] holds at
    the start of the page and after every line terminator.  [None] is
    [null]. *)
Fixpoint match_listview (line_start : bool) (s : list N)
    : option (list N) :=
  match s with
  | [] => None
  | c :: rest =>
      match (if line_start then listview_here s else None) with
      | Some found => Some found
      | None => match_listview (LineTerminator c) rest
      end
  end.

(** The five characters of the key: a quote, [id], a quote, a colon. *)
Definition id_key : list N := [34; 105; 100; 34; 58]%N.

(** [/\"id\":\d+/] at the head of [s]: the key and the longest run of
    digits, at least one. *)
Definition id_here (s : list N) : option (list N) :=
  match strip_prefix id_key s with
  | Some rest =>
      match take_while is_digit rest with
      | [] => None
      | run => Some (id_key ++ run)
      end
  | None => None
  end.

(** [line.match(/\"id\":\d+/g)]: all the matches from left to right, the
    search resuming where the previous match ended ([skip] counts the
    characters of that match still to pass); the empty list is [null]. *)
Fixpoint match_ids (skip : nat) (s : list N) : list (list N) :=
  match s with
  | [] => []
  | _ :: rest =>
      match skip with
      | S skip' => match_ids skip' rest
      | O =>
          match id_here s with
          | Some found => found :: match_ids (length found - 1) rest
          | None => match_ids 0 rest
          end
      end
  end.

(** What reading a property of [null] throws. *)
Definition null_property (name : string) : Exception :=
  TypeError ("Cannot read properties of null (reading '" +:+ name +:+ "')").

(** Lines 54 to 57: from the page to the sorted ids.  An entry is the key
    followed by digits, so that [parseInt] of what follows the key is a
    number; the model returns no ids should one be [NaN]. *)
Definition itemIDs_of_page (page : list N) : Exception + list Z :=
  match match_listview true page with
  | None => inl (null_property "0")
  | Some line =>
      match match_ids 0 line with
      | [] => inl (null_property "map")
      | entries =>
          inr (sort_numbers
                 (default []
                    (mapM (λ entry, parseInt (substring_from 5 entry))
                       entries)))
      end
  end.

(** ** The state of the stages *)

(** The site the pages of the categories come from: [wowhead.get(path)]
    with [response.data], or the exception. *)
Class Web (World : Type) := {
  wowhead_get : string → World → (Exception + list N) * World
}.

(** The object [categories] (lines 7-16): names and paths. *)
Definition category_paths : list (string * string) :=
  [ ("bandages", "/bandages"); ("elixirs", "/elixirs");
    ("flasks", "/flasks"); ("food_and_drinks", "/food-and-drinks");
    ("miscellaneous_items", "/miscellaneous-items?filter=161:62;1:1;0:2");
    ("other_consumables", "/other-consumables"); ("potions", "/potions");
    ("trinkets", "/trinkets") ].

(** What [fs.readFile] throws for a file that does not exist, and
    [JSON.parse] for a text that is not JSON. *)
Definition ENOENT : Exception := Error "ENOENT: no such file or directory".
Definition not_JSON : Exception := Error "Unexpected token in JSON".

(** The object [db] of [prepareDatabase]: for each of the two groups, the
    items of every aura. *)
Abbreviation Database := (gmap string (gmap Z (gset Z))).

(** [Object.entries(o)] for an object whose keys are ids: in ascending
    order of the keys. *)
Definition entries {V : Type} (o : gmap Z V) : list (Z * V) :=
  sort_by fst (map_to_list o).

Section Stages.
Context {World : Type} `{!Remote World} `{!Web World}.

(** What the stages share besides the state of the engine. *)
Record Stage := mkStage {
  pages : gmap string (list N);    (* ./cache/<category>/<category>.html *)
  database : option (list N);      (* LibItemBuffs-Database-1.0.lua *)
  spellNames : gmap Z string;      (* the global object [spellNames] *)
  announced : list string;         (* the lines [Preparing category ...] *)
  now : list N;                    (* [new Date().toISOString()] *)
  engine : @Env World
}.

Definition with_engine (e : @Env World) (st : Stage) : Stage :=
  mkStage (pages st) (database st) (spellNames st) (announced st) (now st) e.

Definition with_world (w : World) (st : Stage) : Stage :=
  let e := engine st in
  with_engine (mkEnv (files e) w (out e) (itemNames e)) st.

(** [console.error(error)] *)
Definition log_error (error : Exception) (st : Stage) : Stage :=
  with_engine (log (LogError error) (engine st)) st.

(** ** [prepareCategories] (lines 31-44) *)

(** The body of the loop: the announcement, [fs.ensureDir], which like the
    writes succeeds, the request and the write of the page. *)
Definition prepareCategoryPage (entry : string * string) (st : Stage)
    : Completion Stage unit :=
  let st1 :=
    mkStage (pages st) (database st) (spellNames st)
      (announced st ++ [entry.1]) (now st) (engine st) in
  match wowhead_get entry.2 (world (engine st1)) with
  | (inr data, w) =>
      let st2 := with_world w st1 in
      Return tt
        (mkStage (<[entry.1 := data]> (pages st2)) (database st2)
           (spellNames st2) (announced st2) (now st2) (engine st2))
  | (inl error, w) => Throw error (with_world w st1)
  end.

(** The [try] is around the loop: the first exception ends it and is
    printed. *)
Definition prepareCategories (paths : list (string * string)) (st : Stage)
    : Completion Stage unit :=
  match for_of prepareCategoryPage paths st with
  | Return _ st' => Return tt st'
  | Throw error st' => Return tt (log_error error st')
  | OutOfFuel => OutOfFuel
  end.

(** ** [prepareCategoryLists] (lines 50-68) *)

(** [fs.writeJSON(`${fileBase}.json`, info)]: of [info], the program reads
    the field [itemIDs] only. *)
Definition write_category (category : string) (itemIDs : list Z)
    (e : @Env World) : @Env World :=
  let d := dir category e in
  mkEnv (<[category := mkFiles (items_json d) (spells_json d)
                         (Parsed itemIDs) (output_json d)]> (files e))
    (world e) (out e) (itemNames e).

(** The body of the loop. *)
Definition prepareCategoryList (category : string) (st : Stage)
    : Completion Stage unit :=
  match pages st !! category with
  | None => Throw ENOENT st
  | Some page =>
      match itemIDs_of_page page with
      | inl error => Throw error st
      | inr data =>
          Return tt (with_engine (write_category category data (engine st)) st)
      end
  end.

Definition prepareCategoryLists (categories : list string) (st : Stage)
    : Completion Stage unit :=
  match for_of prepareCategoryList categories st with
  | Return _ st' => Return tt st'
  | Throw error st' => Return tt (log_error error st')
  | OutOfFuel => OutOfFuel
  end.

(** ** [prepareDatabase] (lines 162-181) *)

(** [category === 'trinkets' ? 'trinkets' : 'consumables'] *)
Definition group_of (category : string) : string :=
  if decide (category = "trinkets") then "trinkets" else "consumables".

(** The body of the innermost loop, for one aura of one item:
    [spellNames[spellID] = name] and
    [db[cat][spellID] = (db[cat][spellID] || new Set()).add(itemID)]. *)
Definition add_aura (cat : string) (itemID : Z)
    (acc : Database * gmap Z string) (aura : Z * string)
    : Database * gmap Z string :=
  let group := default ∅ (acc.1 !! cat) in
  (<[cat := <[aura.1 := {[itemID]} ∪ default ∅ (group !! aura.1)]> group]>
     acc.1,
   <[aura.1 := aura.2]> acc.2).

(** The two loops over the entries of one [output.json]. *)
Definition merge_output (cat : string) (data : gmap Z (gmap Z string))
    (acc : Database * gmap Z string) : Database * gmap Z string :=
  foldl (λ acc item, foldl (add_aura cat item.1) acc (entries item.2))
    acc (entries data).

(** The body of the loop over the categories, with its [try]: an
    [output.json] that cannot be read or parsed is reported, and the loop
    goes on. *)
Definition merge_category (s : Database * Stage) (category : string)
    : Database * Stage :=
  let cat := group_of category in
  let db := <[cat := default ∅ (s.1 !! cat)]> s.1 in
  match output_json (dir category (engine s.2)) with
  | Parsed data =>
      let merged := merge_output cat data (db, spellNames s.2) in
      (merged.1,
       mkStage (pages s.2) (database s.2) merged.2 (announced s.2) (now s.2)
         (engine s.2))
  | Missing => (db, log_error ENOENT s.2)
  | Unparsable => (db, log_error not_JSON s.2)
  end.

Definition prepareDatabase (categories : list string) (st : Stage)
    : Database * Stage :=
  foldl merge_category (∅, st) categories.

(** ** [getVersionString] (lines 245-248) *)

(** [now.substring(0, 19).replace(/[T:-]/g, '')] *)
Definition getVersionString (now : list N) : list N :=
  filter (λ c, c ∉ [84; 58; 45]%N) (substring 0 19 now).

(** ** [updateLibItemBuffs] (lines 115-160) *)

Definition cutMarker : list N := js "--== CUT HERE ==--".

(** [(`      ${id}`).slice(-6)] *)
Definition pad6 (text : list N) : list N :=
  slice_from (-6) (js "      " ++ text).

(** [`${name}`] for a name that may be [undefined]. *)
Definition name_text (name : option string) : list N :=
  match name with
  | Some n => js n
  | None => js "undefined"
  end.

(** [category[0].toUpperCase() + category.slice(1)], for the two names it
    is applied to, which start with a small letter of the alphabet. *)
Definition capitalize (category : list N) : list N :=
  match category with
  | c :: _ =>
      (if bool_decide (97 ≤ c ≤ 122)%N then (c - 32)%N else c) ::
      slice_from 1 category
  | [] => []
  end.

(** One line of a table of items (line 146). *)
Definition item_line (itemNames : gmap Z string) (itemID : Z) : list N :=
  [9%N] ++ pad6 (to_string itemID) ++ js ", -- " ++
  name_text (itemNames !! itemID).

(** The body of [for (let [spellID, items] of Object.entries(data))]: the
    lines pushed for one aura. *)
Definition spell_lines (category : string) (spellNames itemNames : gmap Z string)
    (entry : Z * gset Z) : list (list N) :=
  let items := elements entry.2 in
  let spellName := spellNames !! entry.1 in
  let spell := pad6 (to_string entry.1) in
  match items with
  | [itemID] =>
      let item := pad6 (to_string itemID) in
      let itemName := itemNames !! itemID in
      let name :=
        if decide (spellName ≠ itemName)
        then name_text spellName ++ js " (" ++ name_text itemName ++ js ")"
        else name_text spellName in
      [js category ++ js "[" ++ spell ++ js "] = " ++ item ++ js " -- " ++ name]
  | _ =>
      (js category ++ js "[" ++ spell ++ js "] = { -- " ++ name_text spellName)
      :: (item_line itemNames <$> sort_numbers items) ++ [js "}"]
  end.

(** The body of [forEach]: [Object.entries(data)] throws when the database
    has no such group. *)
Definition category_lines (category : string) (db : Database)
    (spellNames itemNames : gmap Z string) : Exception + list (list N) :=
  match db !! category with
  | None => inl undefined_keys
  | Some data =>
      inr ((js "-- " ++ capitalize (js category)) ::
           flat_map (spell_lines category spellNames itemNames) (entries data))
  end.

(** The last line pushed, which ends with a line feed. *)
Definition upgrade_line : list N :=
  js "LibStub('LibItemBuffs-1.0'):__UpgradeDatabase(version, trinkets, consumables, enchantments)"
  ++ [10%N].

(** The array [code] once both groups are in. *)
Definition code_lines (version : list N) (trinkets consumables : list (list N))
    : list (list N) :=
  [cutMarker; js "version = " ++ version] ++ trinkets ++ consumables ++
  [[]; upgrade_line].

(** Lines 156 to 159: what is written over the file whose text was
    [old]. *)
Definition spliced (old : list N) (code : list (list N)) : list N :=
  substring 0 (indexOf cutMarker old - 1) old ++ [10%N] ++ join [10%N] code.

Definition updateLibItemBuffs (categories : list string) (st : Stage)
    : Completion Stage unit :=
  let (db, st1) := prepareDatabase categories st in
  let lines (category : string) :=
    category_lines category db (spellNames st1) (itemNames (engine st1)) in
  match lines "trinkets" with
  | inl error => Throw error st1
  | inr trinkets =>
      match lines "consumables" with
      | inl error => Throw error st1
      | inr consumables =>
          match database st1 with
          | None => Throw ENOENT st1
          | Some old =>
              let code :=
                code_lines (getVersionString (now st1)) trinkets consumables in
              Return tt
                (mkStage (pages st1) (Some (spliced old code))
                   (spellNames st1) (announced st1) (now st1) (engine st1))
          end
      end
  end.

(** ** [getMeDataz] (lines 361-366): the four stages in turn *)

Definition getMeDataz (fuel : nat) (st : Stage) : Completion Stage unit :=
  match prepareCategories category_paths st with
  | Return _ st1 =>
      match prepareCategoryLists categories st1 with
      | Return _ st2 =>
          match prepareItemAndSpellData fuel categories (engine st2) with
          | Return _ e3 => updateLibItemBuffs categories (with_engine e3 st2)
          | Throw error e3 => Throw error (with_engine e3 st2)
          | OutOfFuel => OutOfFuel
          end
      | Throw error st2 => Throw error st2
      | OutOfFuel => OutOfFuel
      end
  | Throw error st1 => Throw error st1
  | OutOfFuel => OutOfFuel
  end.

End Stages.

(** * Vocabulary and examples of the further properties *)

(** The item loop leaves the files and the service alone. *)
Definition same_outside {World : Type} (ag ag' : @Aggregate World) : Prop :=
  files (agg_env ag') = files (agg_env ag) ∧
  world (agg_env ag') = world (agg_env ag).

(** An item that grants no spell. *)
Definition item400 : Item.t := Item.mk 400 "Plain Stone" [].

(** A directory whose files are all read from the cache: item 100 has the
    aura of spell 10, item 400 has none. *)
Definition trinkets_before : @Env unit :=
  start {[ "trinkets" := cached [item100; item400] [spell10] [100; 400] ]} tt.

Definition trinkets_after : @Env unit :=
  mkEnv {[ "trinkets" :=
             mkFiles (Parsed [item100; item400]) (Parsed [spell10])
               (Parsed [100; 400])
               (Parsed {[ 100 := {[ 10 := "Haste Boost" ]} ]}) ]} tt
    [ LogReusingCache "trinkets" item; LogReusingCache "trinkets" spell;
      LogNoAurasFound "trinkets" {[400]} ]
    {[ 100 := "Swift Charm"; 400 := "Plain Stone" ]}.

(** ** Vocabulary of the properties of the stages *)

(** The number that a run of decimal digits spells. *)
Definition decimal (run : list N) : Z :=
  number_of 10 ((λ c, Z.of_N c - 48) <$> run).

(** The parts of a text that start at each of its positions, from the
    left. *)
Fixpoint tails {A : Type} (l : list A) : list (list A) :=
  match l with
  | [] => []
  | _ :: rest => l :: tails rest
  end.

(** The number that follows the key, when [s] starts with the key and a
    digit. *)
Definition id_number (s : list N) : option Z :=
  match strip_prefix id_key s with
  | Some rest =>
      match take_while is_digit rest with
      | [] => None
      | run => Some (decimal run)
      end
  | None => None
  end.

(** A page of the examples: the listing is on the third line, and a second
    listing follows it. *)
Definition page_example : list N :=
  js "<script>" ++ [10%N] ++ js "var x = 1;" ++ [13; 10]%N ++
  js "var listviewitems = [{" ++ id_key ++ js "300},{" ++ id_key ++
  js "100}];" ++ [10%N] ++
  js "var listviewitems = [{" ++ id_key ++ js "999}];".

Definition line_example : list N :=
  js "var listviewitems = [{" ++ id_key ++ js "300},{" ++ id_key ++
  js "100}];".

(** [db[cat][spellID]], empty when the group or the aura is not there. *)
Definition items_of (db : Database) (cat : string) (spellID : Z) : gset Z :=
  default ∅ (default ∅ (db !! cat) !! spellID).

(** Some [output.json] of the categories gives the item [itemID] the aura
    [spellID] under the name [name], in a category of the group [cat]. *)
Definition in_outputs {World : Type} (categories : list string)
    (e : @Env World) (cat : string) (spellID itemID : Z) (name : string)
    : Prop :=
  ∃ category data auras,
    category ∈ categories ∧ group_of category = cat ∧
    output_json (dir category e) = Parsed data ∧
    data !! itemID = Some auras ∧ auras !! spellID = Some name.

(** What [prepareDatabase] leaves as it was. *)
Definition same_but_names {World : Type} (st st' : @Stage World) : Prop :=
  pages st' = pages st ∧ database st' = database st ∧
  announced st' = announced st ∧ now st' = now st ∧
  files (engine st') = files (engine st) ∧
  world (engine st') = world (engine st) ∧
  itemNames (engine st') = itemNames (engine st).

(** A stage state of the examples: nothing but the files of the engine,
    and the text of the database file. *)
Definition stage_of {World : Type} (e : @Env World) (old : option (list N))
    : @Stage World :=
  mkStage ∅ old ∅ [] (js "2019-08-01T12:34:56.789Z") e.

(** Every aura with an item has a name, which some output gave it; and no
    set of items is empty. *)
Definition named {World : Type} (categories : list string) (e : @Env World)
    (acc : Database * gmap Z string) : Prop :=
  (∀ c s i, i ∈ items_of acc.1 c s →
     ∃ name c' i', acc.2 !! s = Some name ∧
                   in_outputs categories e c' s i' name) ∧
  (∀ c group s items,
     acc.1 !! c = Some group → group !! s = Some items → items ≠ ∅).

(** A site that serves one page under every path, and one that serves
    nothing. *)
Definition same_page (page : list N) : Web unit :=
  {| wowhead_get := λ path w, (inr page, w) |}.

Definition no_site : Web unit :=
  {| wowhead_get := λ path w, (inl (Error "Network Error"), w) |}.

(** A line that lists the ids [ids], each in an object of its own, as the
    pages of the site do. *)
Definition listview_line (ids : list Z) : list N :=
  js "var listviewitems = [" ++
  concat ((λ n, js "{" ++ id_key ++ to_string n ++ js "},") <$> ids) ++
  js "];".

(** The states of a whole run of the examples. *)
Definition wowdb_run : Remote unit :=
  serving [item100; item300] [spell10; spell11].

Definition run_start : @Stage unit :=
  stage_of (start ∅ tt)
    (Some (js "-- header" ++ 10%N :: cutMarker ++ 10%N :: js "version = 1")).

(** * Properties *)

(** ** Loops *)

(** An invariant indexed by the part of the array already iterated over. *)
Lemma for_of_inv {S A : Type} (body : A → S → Completion S unit)
    (I : list A → S → Prop) (T : Exception → S → Prop) (l : list A) (s0 : S) :
  I [] s0 →
  (∀ pre x post s, l = pre ++ x :: post → I pre s →
     match body x s with
     | Return _ s' => I (pre ++ [x]) s'
     | Throw e s' => T e s'
     | OutOfFuel => True
     end) →
  match for_of body l s0 with
  | Return _ s' => I l s'
  | Throw e s' => T e s'
  | OutOfFuel => True
  end.
Proof.
  intros H0 Hstep.
  enough (∀ post pre s, l = pre ++ post → I pre s →
            match for_of body post s with
            | Return _ s' => I l s'
            | Throw e s' => T e s'
            | OutOfFuel => True
            end) as Hgen by (apply (Hgen l [] s0); auto).
  induction post as [|x post IH]; intros pre s Hl Hpre; simpl.
  - rewrite app_nil_r in Hl. by subst.
  - specialize (Hstep pre x post s Hl Hpre).
    destruct (body x s) as [[] s'|e s'|]; auto.
    apply (IH (pre ++ [x])); auto.
    by rewrite <- app_assoc.
Qed.

(** A loop whose body never runs out of fuel does not either. *)
Lemma for_of_fuel {S A : Type} (body : A → S → Completion S unit)
    (I : S → Prop) (l : list A) (s0 : S) :
  I s0 →
  (∀ x s, x ∈ l → I s →
     match body x s with
     | Return _ s' => I s'
     | Throw _ _ => True
     | OutOfFuel => False
     end) →
  for_of body l s0 ≠ OutOfFuel.
Proof.
  revert s0. induction l as [|x l IH]; intros s0 H0 Hstep; simpl; [done|].
  pose proof (Hstep x s0 (list_elem_of_here _ _) H0) as Hx.
  destruct (body x s0) as [[] s'|e s'|]; try done.
  apply IH; auto. intros y s Hy. apply Hstep. by apply list_elem_of_further.
Qed.

(** ** [getData] *)

Lemma getData_Some id store data :
  getData id store = Some data → data ∈ store ∧ Spell.ID data = id.
Proof.
  induction store as [|d store IH]; simpl; [done|].
  case_decide.
  - intros [= <-]. split; [left | done].
  - intros Hd. destruct (IH Hd). split; [by right | done].
Qed.

Lemma getData_None id store :
  getData id store = None ↔ id ∉ Spell.ID <$> store.
Proof.
  induction store as [|d store IH]; simpl.
  - split; [intros _; apply not_elem_of_nil | done].
  - rewrite not_elem_of_cons. case_decide; split; try done.
    + intros [? _]. congruence.
    + intros Hn. split; [congruence | by apply IH].
    + intros [_ Hn]. by apply IH.
Qed.

Lemma getData_first id data store :
  Spell.ID data = id → getData id (data :: store) = Some data.
Proof. intros H. simpl. by rewrite decide_True. Qed.

(** With distinct ids, every record of the store is the one found for
    its id. *)
Lemma getData_NoDup store data :
  NoDup (Spell.ID <$> store) → data ∈ store →
  getData (Spell.ID data) store = Some data.
Proof.
  induction store as [|d store IH]; simpl; intros Hnd Hin.
  - by apply elem_of_nil in Hin.
  - apply NoDup_cons in Hnd as [Hd Hnd].
    apply elem_of_cons in Hin as [->|Hin]; [by rewrite decide_True|].
    rewrite decide_False; [by apply IH|].
    intros Heq. apply Hd. rewrite Heq. by apply list_elem_of_fmap_2.
Qed.

(** ** The resolver: what one call does to the shared state *)

Section Resolver.
Variable spells : list Spell.t.

Local Abbreviation references := (references spells).
Local Abbreviation extends := (extends spells).
Local Abbreviation done_at := (done_at spells).
Local Abbreviation resolved := (resolved spells).
Local Abbreviation effects_inv := (effects_inv spells).
Local Abbreviation thrown := (thrown spells).
Local Abbreviation call_spec := (call_spec spells).
Local Abbreviation ext_lookedup := (ext_lookedup spells).
Local Abbreviation ext_auras_old := (ext_auras_old spells).

Lemma extends_refl st : extends st st.
Proof.
  split; auto.
  - exists []. split; [done|]. split; [constructor|].
    intros x. split; [by intros ?%elem_of_nil | by intros [? ?]].
  - exists []. by rewrite app_nil_r.
Qed.

Lemma extends_trans st1 st2 st3 :
  extends st1 st2 → extends st2 st3 → extends st1 st3.
Proof.
  intros [L1 (n1 & P1 & D1 & M1) (x1 & C1) O1 N1]
         [L2 (n2 & P2 & D2 & M2) (x2 & C2) O2 N2].
  split.
  - set_solver.
  - exists (n2 ++ n1). split; [by rewrite P2, P1, app_assoc|]. split.
    + apply NoDup_app. split; [done|]. split; [|done].
      intros x [_ Hx2]%M2 [Hx1 _]%M1. done.
    + intros x. rewrite elem_of_app, M1, M2. split.
      * intros [[? ?]|[? ?]]; split; auto.
      * intros [? ?]. destruct (decide (x ∈ lookedup st2)); auto.
  - exists (x1 ++ x2). by rewrite C2, C1, app_assoc.
  - intros k Hk. rewrite O2, O1; [done| |].
    + destruct Hk; auto.
    + destruct Hk as [Hk|Hk]; [left; auto | right; auto].
  - intros k v Hv. destruct (N2 k v Hv) as [Hv2|(Hk2 & Hk3 & sd & Hsd)].
    + destruct (N1 k v Hv2) as [?|(? & ? & ?)]; [by left|].
      right. split; [done|]. split; [auto | done].
    + right. split; [auto|]. split; [done|]. by exists sd.
Qed.

Lemma extends_add_lookedup id st :
  id ∉ lookedup st → extends st (add_lookedup id st).
Proof.
  intros Hid. split; simpl; auto.
  - set_solver.
  - exists [id]. split; [done|]. split; [apply NoDup_singleton|].
    intros x. rewrite list_elem_of_singleton. set_solver.
  - exists []. by rewrite app_nil_r.
Qed.

Lemma extends_log ev st : extends st (log_resolution ev st).
Proof.
  split; simpl; auto.
  - exists []. split; [done|]. split; [constructor|].
    intros x. split; [by intros ?%elem_of_nil | by intros [? ?]].
  - by exists [ev].
Qed.

Lemma extends_set_aura id sd st s :
  extends st s → id ∉ lookedup st → id ∈ lookedup s →
  getData id spells = Some sd → blacklist_has (Spell.Name sd) = false →
  grants_aura sd →
  extends st (set_aura id (Spell.Name sd) s).
Proof.
  intros [L P C O N] Hid1 Hid2 Hsd Hbl Hau. split; simpl; auto.
  - intros k Hk. rewrite lookup_insert_ne; [auto|].
    intros ->. destruct Hk; done.
  - intros k v. rewrite lookup_insert. case_decide as Hk.
    + intros [= <-]. subst k. right. split; [done|]. split; [done|].
      by exists sd.
    + apply N.
Qed.

Lemma done_at_mono s s' x :
  extends s s' → x ∈ lookedup s → done_at s x → done_at s' x.
Proof.
  intros [L _ _ O _] Hx (sd & Hsd & Ht & Ha).
  exists sd. split; [done|]. split.
  - intros e t He Htr. apply L. eauto.
  - intros H1 H2. rewrite O; auto.
Qed.

Lemma thrown_trans st1 st2 e st3 :
  extends st1 st2 → thrown st2 e st3 → thrown st1 e st3.
Proof.
  intros H12 (H23 & He & m & Hm & Hin & Hnin & Hl).
  split; [by eapply extends_trans|]. split; [done|].
  exists m. repeat split; auto.
  intros Hm1. apply Hnin. by apply (ext_lookedup _ _ H12).
Qed.

Lemma effect_body_inv recur id sd st pre effect post s :
  (∀ t s1, call_spec t s1 (recur t s1)) →
  getData id spells = Some sd → id ∉ lookedup st →
  Spell.Effects sd = pre ++ effect :: post →
  effects_inv id sd st pre s →
  match effect_body recur id sd effect s with
  | Return _ s' => effects_inv id sd st (pre ++ [effect]) s'
  | Throw e s' => thrown st e s' ∧ id ∈ lookedup s'
  | OutOfFuel => True
  end.
Proof.
  intros Hrec Hsd Hid Heff [Hext Hself Hoth Htg Hau].
  unfold effect_body.
  set (s1 := if Aura effect && negb (blacklist_has (Spell.Name sd))
             then set_aura id (Spell.Name sd) s else s).
  assert (effect ∈ Spell.Effects sd) as Hin
    by (rewrite Heff; apply elem_of_app; right; left).
  assert (lookedup s1 = lookedup s) as Hl1 by (subst s1; by case_match).
  assert (∀ k, k ≠ id → auras s1 !! k = auras s !! k) as Ha1.
  { intros k Hk. subst s1. case_match; [simpl|done].
    by rewrite lookup_insert_ne. }
  assert (extends st s1) as Hext1.
  { subst s1. case_match eqn:Hc; [|done].
    apply andb_true_iff in Hc as [Hc1 Hc2]. apply negb_true_iff in Hc2.
    apply extends_set_aura; auto. by exists effect. }
  assert ((∃ e, e ∈ pre ++ [effect] ∧ Aura e = true) →
          blacklist_has (Spell.Name sd) = false →
          auras s1 !! id = Some (Spell.Name sd)) as Hau1.
  { intros (e & He & Hae) Hbl. subst s1. rewrite Hbl. simpl.
    rewrite andb_true_r.
    destruct (Aura effect) eqn:Hx; simpl; [by rewrite lookup_insert_eq|].
    apply Hau; [|done]. exists e. split; [|done].
    apply elem_of_app in He as [?|He]; [done|].
    apply list_elem_of_singleton in He. congruence. }
  assert (∀ x, x ∈ lookedup s1 → x ∉ lookedup st → x ≠ id → done_at s1 x)
    as Hoth1.
  { intros x Hx1 Hx2 Hx3. rewrite Hl1 in Hx1.
    destruct (Hoth x Hx1 Hx2 Hx3) as (sx & ? & ? & Hsx).
    exists sx. split; [done|]. split; [by rewrite Hl1|].
    rewrite Ha1; auto. }
  destruct (truthy (AffectedSpell effect)) as [target|] eqn:Htr.
  - specialize (Hrec target s1). destruct (recur target s1) as [v s2|e s2|];
      simpl in Hrec; [| | done].
    2:{ destruct Hrec as [Hthr _]. split; [by eapply thrown_trans|].
        destruct Hthr as [Hext2 _]. apply (ext_lookedup _ _ Hext2).
        by rewrite Hl1. }
    destruct Hrec as (Hext2 & Hres2 & Ht2 & _). split.
    + by eapply extends_trans.
    + apply (ext_lookedup _ _ Hext2). by rewrite Hl1.
    + intros x Hx1 Hx2 Hx3. destruct (decide (x ∈ lookedup s1)) as [Hx|Hx].
      * eapply done_at_mono; eauto.
      * by apply Hres2.
    + intros e t [He|He]%elem_of_app Het.
      * apply (ext_lookedup _ _ Hext2). rewrite Hl1. eauto.
      * apply list_elem_of_singleton in He. subst e.
        rewrite Htr in Het. by injection Het as <-.
    + intros H1 H2. rewrite (ext_auras_old _ _ Hext2); [auto|].
      left. by rewrite Hl1.
  - split; auto.
    + by rewrite Hl1.
    + intros e t [He|He]%elem_of_app Het.
      * rewrite Hl1. eauto.
      * apply list_elem_of_singleton in He. subst e. congruence.
Qed.

Lemma getAurasForItem_rec_spec fuel :
  ∀ id st, call_spec id st (getAurasForItem_rec fuel spells id st).
Proof.
  induction fuel as [|fuel IH]; intros id st; simpl; [done|].
  case_decide as Hid.
  { simpl. split; [apply extends_refl|]. split; [by intros x ? ?|]. done. }
  destruct (getData id spells) as [sd|] eqn:Hsd.
  - pose proof (extends_add_lookedup id st Hid) as Hadd.
    pose proof (for_of_inv
      (effect_body (getAurasForItem_rec fuel spells) id sd)
      (effects_inv id sd st) (λ e s', thrown st e s' ∧ id ∈ lookedup s')
      (Spell.Effects sd) (add_lookedup id st)) as Hloop.
    lapply Hloop; clear Hloop.
    2:{ split; auto.
        - simpl. set_solver.
        - simpl. intros x Hx1 Hx2 Hx3. set_solver.
        - intros e t ?%elem_of_nil. done.
        - intros (e & ?%elem_of_nil & _). done. }
    intros Hloop. lapply Hloop; clear Hloop.
    2:{ intros pre x post s Hl Hpre. by eapply effect_body_inv. }
    intros Hloop.
    destruct (for_of _ _ _) as [[] s'|e s'|]; simpl in *; [|done|done].
    destruct Hloop as [Hext Hself Hoth Htg Hau].
    split; [done|]. split; [|split; [done|split; [done|tauto]]].
    intros x Hx1 Hx2. destruct (decide (x = id)) as [->|Hne]; [|auto].
    exists sd. split; [done|]. split; [done|].
    intros (e & He & Hae). apply Hau. by exists e.
  - simpl. split; [|set_solver]. split; [|split; [done|]].
    + eapply extends_trans; [apply extends_log|].
      by apply extends_add_lookedup.
    + exists id. repeat split; auto.
      * simpl. set_solver.
      * simpl. by rewrite last_snoc.
Qed.

End Resolver.

(** ** The resolver terminates *)

Lemma size_list_to_set_le (l : list Z) :
  (size (list_to_set l : gset Z) ≤ length l)%nat.
Proof.
  induction l as [|x l IH]; simpl.
  - change (size (∅ : gset Z) ≤ 0)%nat. by rewrite size_empty.
  - rewrite size_union_alt, size_singleton.
    pose proof (subseteq_size (list_to_set l ∖ {[x]}) (list_to_set l : gset Z)).
    lapply H; [lia | set_solver].
Qed.

(** Two bodies that agree wherever the first one ends give the same loop. *)
Lemma for_of_agree {S A : Type} (body1 body2 : A → S → Completion S unit)
    (l : list A) (s : S) :
  (∀ x s, x ∈ l → body1 x s ≠ OutOfFuel → body2 x s = body1 x s) →
  for_of body1 l s ≠ OutOfFuel →
  for_of body2 l s = for_of body1 l s.
Proof.
  revert s. induction l as [|x l IH]; intros s Hagree Hne; simpl in *; [done|].
  assert (body1 x s ≠ OutOfFuel) as Hx by (intros E; by rewrite E in Hne).
  rewrite (Hagree x s (list_elem_of_here _ _) Hx).
  destruct (body1 x s) as [[] s'|e s'|]; try done.
  apply IH; [|done]. intros y s0 Hy. apply Hagree. by apply list_elem_of_further.
Qed.

Section ResolverFuel.
Variable spells : list Spell.t.

Local Abbreviation spell_ids := (spell_ids spells).

Lemma getData_spell_ids id sd :
  getData id spells = Some sd → id ∈ spell_ids.
Proof.
  intros [Hin <-]%getData_Some. apply elem_of_list_to_set.
  by apply list_elem_of_fmap_2.
Qed.

(** One unit of fuel for each id of the store not yet looked up, and one
    for the call itself. *)
Lemma getAurasForItem_rec_enough_fuel fuel :
  ∀ id st, (size (spell_ids ∖ lookedup st) < fuel)%nat →
           getAurasForItem_rec fuel spells id st ≠ OutOfFuel.
Proof.
  induction fuel as [|fuel IH]; intros id st Hsz; [lia|]. simpl.
  case_decide as Hid; [done|].
  destruct (getData id spells) as [sd|] eqn:Hsd; [|done].
  apply getData_spell_ids in Hsd as Hids.
  assert (size (spell_ids ∖ lookedup (add_lookedup id st)) < fuel)%nat as Hlt.
  { simpl.
    assert (spell_ids ∖ ({[id]} ∪ lookedup st) ⊂ spell_ids ∖ lookedup st)
      as Hsub by set_solver.
    apply subset_size in Hsub. lia. }
  pose proof (for_of_fuel
    (effect_body (getAurasForItem_rec fuel spells) id sd)
    (λ s, lookedup (add_lookedup id st) ⊆ lookedup s)
    (Spell.Effects sd) (add_lookedup id st)) as Hloop.
  lapply Hloop; [clear Hloop; intros Hloop|done].
  lapply Hloop; [clear Hloop; intros Hloop|].
  { destruct (for_of _ _ _); done. }
  intros x s _ Hs. unfold effect_body.
  set (s1 := if Aura x && negb (blacklist_has (Spell.Name sd))
             then set_aura id (Spell.Name sd) s else s).
  assert (lookedup s1 = lookedup s) as Hl1 by (subst s1; by case_match).
  destruct (truthy (AffectedSpell x)) as [t|]; [|by rewrite Hl1].
  pose proof (getAurasForItem_rec_spec spells fuel t s1) as Hspec.
  assert (getAurasForItem_rec fuel spells t s1 ≠ OutOfFuel) as Hne.
  { apply IH. rewrite Hl1.
    assert (spell_ids ∖ lookedup s ⊆ spell_ids ∖ lookedup (add_lookedup id st))
      as Hsub by set_solver.
    apply subseteq_size in Hsub. lia. }
  destruct (getAurasForItem_rec fuel spells t s1) as [v s2|e s2|];
    [|done|done].
  destruct Hspec as (Hext & _). apply ext_lookedup in Hext.
  rewrite Hl1 in Hext. set_solver.
Qed.

(** More fuel does not change an outcome. *)
Lemma getAurasForItem_rec_more_fuel fuel :
  ∀ fuel' id st, (fuel ≤ fuel')%nat →
    getAurasForItem_rec fuel spells id st ≠ OutOfFuel →
    getAurasForItem_rec fuel' spells id st =
    getAurasForItem_rec fuel spells id st.
Proof.
  induction fuel as [|fuel IH]; intros fuel' id st Hle Hne; [done|].
  destruct fuel' as [|fuel']; [lia|]. simpl in *.
  case_decide; [done|].
  destruct (getData id spells) as [sd|]; [|done].
  rewrite (for_of_agree
    (effect_body (getAurasForItem_rec fuel spells) id sd)
    (effect_body (getAurasForItem_rec fuel' spells) id sd)); [done| |].
  - intros x s _. unfold effect_body.
    destruct (truthy (AffectedSpell x)) as [t|]; [|done].
    intros Hx. rewrite IH; [done|lia|].
    intros E. by rewrite E in Hx.
  - intros E. by rewrite E in Hne.
Qed.

Lemma getAurasForItem_total id out :
  getAurasForItem id spells out ≠ OutOfFuel.
Proof.
  unfold getAurasForItem. apply getAurasForItem_rec_enough_fuel. simpl.
  pose proof (subseteq_size (spell_ids ∖ ∅) spell_ids) as H1.
  pose proof (size_list_to_set_le (Spell.ID <$> spells)) as H2.
  rewrite length_fmap in H2. fold spell_ids in H2.
  lapply H1; [lia|set_solver].
Qed.

Lemma getAurasForItem_any_fuel id out fuel :
  (length spells < fuel)%nat →
  getAurasForItem_rec fuel spells id (fresh_resolution out) =
  getAurasForItem id spells out.
Proof.
  intros Hlt. apply getAurasForItem_rec_more_fuel; [lia|].
  apply getAurasForItem_total.
Qed.

End ResolverFuel.

(** ** The resolver: what a top-level call produces *)

Lemma is_aura_true sd :
  is_aura sd = true ↔ grants_aura sd ∧ blacklist_has (Spell.Name sd) = false.
Proof.
  unfold is_aura, grants_aura.
  rewrite andb_true_iff, negb_true_iff, existsb_exists.
  by setoid_rewrite list_elem_of_In.
Qed.

Section TopLevel.
Variable spells : list Spell.t.

Local Abbreviation reachable := (reachable spells).

Lemma top_level_returns root out v st' :
  getAurasForItem root spells out = Return v st' →
  v = RetAuras ∧
  root ∈ lookedup st' ∧
  (∀ x t, x ∈ lookedup st' → references spells x t → t ∈ lookedup st') ∧
  (∀ x, x ∈ lookedup st' → is_Some (getData x spells)) ∧
  (∀ x, auras st' !! x =
        if decide (x ∈ lookedup st') then getData x spells ≫= aura_entry
        else None) ∧
  NoDup (processed st') ∧
  (∀ x, x ∈ processed st' ↔ x ∈ lookedup st').
Proof.
  intros Hrun. unfold getAurasForItem in Hrun.
  pose proof (getAurasForItem_rec_spec spells (S (length spells)) root
                (fresh_resolution out)) as Hspec.
  rewrite Hrun in Hspec. simpl in Hspec.
  destruct Hspec as ([_ (new & Hp & Hnd & Hnew) _ Hold Hnw] & Hres & Hroot & Hv).
  clear Hrun. simpl in *. rewrite app_nil_r in Hp. subst new.
  assert (∀ x, x ∈ lookedup st' → done_at spells st' x) as Hdone.
  { intros x Hx. apply Hres; [done|]. apply not_elem_of_empty. }
  split; [|split; [done|split; [|split; [|split; [|split]]]]].
  - destruct v; [|done]. destruct Hv as [Hv _]. specialize (Hv eq_refl).
    by apply not_elem_of_empty in Hv.
  - intros x t Hx (sd & e & Hsd & He & Ht).
    destruct (Hdone x Hx) as (sd' & Hsd' & Htg & _).
    rewrite Hsd in Hsd'. injection Hsd' as <-. eauto.
  - intros x Hx. destruct (Hdone x Hx) as (sd & -> & _). eauto.
  - intros x. case_decide as Hx.
    + destruct (Hdone x Hx) as (sd & Hsd & _ & Hau). rewrite Hsd. simpl.
      unfold aura_entry. destruct (is_aura sd) eqn:Hia.
      * apply is_aura_true in Hia as [? ?]. auto.
      * destruct (auras st' !! x) as [v'|] eqn:Hv'; [|done].
        apply Hnw in Hv' as [Hv'|(_ & _ & sd' & Hsd' & _ & Hbl & Hg)].
        { by rewrite lookup_empty in Hv'. }
        rewrite Hsd in Hsd'. injection Hsd' as <-.
        assert (is_aura sd = true) by (by apply is_aura_true). congruence.
    + rewrite Hold; [apply lookup_empty | by right].
  - done.
  - intros x. rewrite Hnew. split; [by intros [? _]|].
    intros ?. split; [done | apply not_elem_of_empty].
Qed.

Lemma top_level_reaches root out v st' x :
  getAurasForItem root spells out = Return v st' →
  reachable root x → x ∈ lookedup st'.
Proof.
  intros Hrun Hreach.
  destruct (top_level_returns _ _ _ _ Hrun) as (_ & Hroot & Hclosed & _).
  unfold reachable in Hreach. revert x Hreach.
  apply (rtc_ind_r (λ x, x ∈ lookedup st')); [done|].
  intros y z _ Hyz Hy. by apply (Hclosed y z).
Qed.

Lemma top_level_throws root out e st' :
  getAurasForItem root spells out = Throw e st' →
  e = undefined_Effects ∧ NoDup (processed st') ∧
  (∀ x, x ∈ processed st' ↔ x ∈ lookedup st') ∧
  root ∈ lookedup st' ∧
  (∃ missing, getData missing spells = None ∧
              last (console st') = Some (LogNoSpellData missing)) ∧
  (∀ k v, auras st' !! k = Some v →
     ∃ sd, getData k spells = Some sd ∧ v = Spell.Name sd ∧ is_aura sd = true).
Proof.
  intros Hrun. unfold getAurasForItem in Hrun.
  pose proof (getAurasForItem_rec_spec spells (S (length spells)) root
                (fresh_resolution out)) as Hspec.
  rewrite Hrun in Hspec. simpl in Hspec.
  destruct Hspec as (([_ (new & Hp & Hnd & Hnew) _ Hold Hnw] & He & m & Hm & _ & _ & Hlast) & Hroot).
  simpl in Hp, Hnew, Hold, Hnw. rewrite app_nil_r in Hp. subst new.
  split; [done|]. split; [done|]. split; [|split; [done|split]].
  - intros x. rewrite Hnew. split; [by intros [? _]|].
    intros ?. split; [done | apply not_elem_of_empty].
  - eauto.
  - intros k v Hk. apply Hnw in Hk as [Hk|(_ & _ & sd & Hsd & -> & Hbl & Hg)].
    + by rewrite lookup_empty in Hk.
    + exists sd. split; [done|]. split; [done|]. by apply is_aura_true.
Qed.

(** Whatever the outcome, an entry of the mapping is the name of the
    record found for its key, which grants an aura and is not excluded. *)
Lemma top_level_entries root out st' k v :
  final_state (getAurasForItem root spells out) = Some st' →
  auras st' !! k = Some v →
  ∃ sd, getData k spells = Some sd ∧ v = Spell.Name sd ∧ is_aura sd = true.
Proof.
  destruct (getAurasForItem root spells out) as [r s|e s|] eqn:Hrun;
    simpl; intros [= <-] Hk.
  - destruct (top_level_returns _ _ _ _ Hrun) as (_ & _ & _ & _ & Hau & _).
    rewrite Hau in Hk. case_decide; [|done].
    destruct (getData k spells) as [sd|]; [|done]. simpl in Hk.
    unfold aura_entry in Hk. destruct (is_aura sd) eqn:Hia; [|done].
    injection Hk as <-. eauto.
  - destruct (top_level_throws _ _ _ _ Hrun) as (_ & _ & _ & _ & _ & Hau).
    eauto.
Qed.

(** A reference to an id without a record, anywhere a resolution comes
    to, makes the top-level call throw. *)
Lemma missing_reference_throws root out x :
  reachable root x → getData x spells = None →
  ∃ st', getAurasForItem root spells out = Throw undefined_Effects st'.
Proof.
  intros Hreach Hx.
  destruct (getAurasForItem root spells out) as [v s|e s|] eqn:Hrun.
  - pose proof (top_level_reaches _ _ _ _ _ Hrun Hreach) as Hin.
    destruct (top_level_returns _ _ _ _ Hrun) as (_ & _ & _ & Hsome & _).
    destruct (Hsome x Hin) as [sd Hsd]. congruence.
  - destruct (top_level_throws _ _ _ _ Hrun) as (-> & _). eauto.
  - by apply getAurasForItem_total in Hrun.
Qed.

End TopLevel.

(** ** The resolver looks up the spells it can come to, and no other *)

Lemma rtc_transitive_reach spells (a b c : Z) :
  reachable spells a b → reachable spells b c → reachable spells a c.
Proof. unfold reachable. intros Hab Hbc. by etrans. Qed.

Section Reach.
Variable spells : list Spell.t.

Local Abbreviation reachable := (reachable spells).

(** An id that a call adds to [lookedup] is reachable from the id the call
    was made on, however the call ends. *)
Lemma getAurasForItem_rec_reach fuel :
  ∀ id st,
    match getAurasForItem_rec fuel spells id st with
    | Return _ st' | Throw _ st' =>
        ∀ x, x ∈ lookedup st' → x ∈ lookedup st ∨ reachable id x
    | OutOfFuel => True
    end.
Proof.
  induction fuel as [|fuel IH]; intros id st; simpl; [done|].
  case_decide as Hin; [by left|].
  destruct (getData id spells) as [sd|] eqn:Hget.
  - pose proof (for_of_inv
      (effect_body (getAurasForItem_rec fuel spells) id sd)
      (λ _ s, ∀ x, x ∈ lookedup s → x ∈ lookedup st ∨ reachable id x)
      (λ _ s, ∀ x, x ∈ lookedup s → x ∈ lookedup st ∨ reachable id x)
      (Spell.Effects sd) (add_lookedup id st)) as Hloop.
    lapply Hloop; clear Hloop.
    + intros Hloop. lapply Hloop; clear Hloop.
      * intros Hloop.
        by destruct (for_of _ (Spell.Effects sd) (add_lookedup id st)).
      * intros pre effect post s Heff Hs. unfold effect_body.
        set (s1 := if Aura effect && negb (blacklist_has (Spell.Name sd))
                   then set_aura id (Spell.Name sd) s else s).
        assert (lookedup s1 = lookedup s) as Hs1.
        { unfold s1. by destruct (Aura effect && _). }
        destruct (truthy (AffectedSpell effect)) as [target|] eqn:Ht.
        -- assert (reachable id target) as Hreach.
           { apply rtc_once. exists sd, effect. split; [done|]. split; [|done].
             rewrite Heff. set_solver. }
           specialize (IH target s1).
           destruct (getAurasForItem_rec fuel spells target s1);
             [| |done]; intros x Hx;
             (destruct (IH x Hx) as [Hold|Hnew];
              [apply Hs; by rewrite <- Hs1
              | right; by apply (rtc_transitive_reach spells id target x)]).
        -- intros x Hx. apply Hs. by rewrite <- Hs1.
    + simpl. intros x [->%elem_of_singleton|Hx]%elem_of_union;
        [right; apply rtc_refl | by left].
  - simpl. intros x [->%elem_of_singleton|Hx]%elem_of_union;
      [right; apply rtc_refl | by left].
Qed.

Lemma top_level_reach root out st' x :
  final_state (getAurasForItem root spells out) = Some st' →
  x ∈ lookedup st' → reachable root x.
Proof.
  unfold getAurasForItem. intros Hfin Hx.
  pose proof (getAurasForItem_rec_reach (S (length spells)) root
                (fresh_resolution out)) as Hr.
  destruct (getAurasForItem_rec _ spells root _) as [v s|e s|];
    simplify_eq/=; destruct (Hr x Hx) as [Hold|Hnew]; try done;
    by apply elem_of_empty in Hold.
Qed.

(** A top-level call returns exactly when every spell it can come to has a
    record. *)
Lemma top_level_returns_iff root out :
  returns (getAurasForItem root spells out) ↔
  ∀ x, reachable root x → is_Some (getData x spells).
Proof.
  split.
  - intros Hret x Hx.
    destruct (getAurasForItem root spells out) as [v st'|e st'|] eqn:Hrun;
      [|done|done].
    destruct (top_level_returns spells root out v st' Hrun)
      as (_ & _ & _ & Hrec & _).
    apply Hrec. by apply (top_level_reaches spells root out v).
  - intros Hclosed.
    destruct (getAurasForItem root spells out) as [v st'|e st'|] eqn:Hrun.
    + done.
    + exfalso.
      pose proof (getAurasForItem_rec_spec spells (S (length spells)) root
                    (fresh_resolution out)) as Hspec.
      unfold getAurasForItem in Hrun. rewrite Hrun in Hspec.
      destruct Hspec as [(_ & _ & (missing & Hnone & Hin & _)) _].
      assert (reachable root missing) as Hreach.
      { apply (top_level_reach root out st'); [|done].
        unfold getAurasForItem. by rewrite Hrun. }
      apply Hclosed in Hreach. rewrite Hnone in Hreach. by destruct Hreach.
    + by apply getAurasForItem_total in Hrun.
Qed.

End Reach.

(** ** The console does not influence a resolution *)

Lemma for_of_erase {A : Type} (body : A → Resolution → Completion Resolution unit)
    (l : list A) :
  (∀ x s1 s2, erase s1 = erase s2 →
              erase_outcome (body x s1) = erase_outcome (body x s2)) →
  ∀ s1 s2, erase s1 = erase s2 →
           erase_outcome (for_of body l s1) = erase_outcome (for_of body l s2).
Proof.
  intros Hbody. induction l as [|x l IH]; intros s1 s2 Hs; simpl.
  - by rewrite Hs.
  - specialize (Hbody x s1 s2 Hs).
    destruct (body x s1) as [[] s1'|e1 s1'|], (body x s2) as [[] s2'|e2 s2'|];
      simpl in Hbody; try done.
    apply IH. congruence.
Qed.

Lemma getAurasForItem_rec_erase spells fuel :
  ∀ id s1 s2, erase s1 = erase s2 →
    erase_outcome (getAurasForItem_rec fuel spells id s1) =
    erase_outcome (getAurasForItem_rec fuel spells id s2).
Proof.
  induction fuel as [|fuel IH]; intros id s1 s2 Hs; simpl; [done|].
  assert (lookedup s1 = lookedup s2) as Hl by (by injection Hs).
  rewrite Hl. case_decide; simpl; [by rewrite Hs|].
  destruct (getData id spells) as [sd|]; simpl.
  - pose proof (for_of_erase
      (effect_body (getAurasForItem_rec fuel spells) id sd)
      (Spell.Effects sd)) as Hloop.
    lapply Hloop; clear Hloop.
    + intros Hloop.
      specialize (Hloop (add_lookedup id s1) (add_lookedup id s2)).
      lapply Hloop; [clear Hloop; intros Hloop|].
      * destruct (for_of _ _ (add_lookedup id s1)) as [[] a|e a|],
                 (for_of _ _ (add_lookedup id s2)) as [[] b|e' b|];
          simpl in *; congruence.
      * unfold erase, add_lookedup in *. simpl. injection Hs as -> -> ->. done.
    + intros x a b Hab. unfold effect_body.
      set (a1 := if Aura x && negb (blacklist_has (Spell.Name sd))
                 then set_aura id (Spell.Name sd) a else a).
      set (b1 := if Aura x && negb (blacklist_has (Spell.Name sd))
                 then set_aura id (Spell.Name sd) b else b).
      assert (erase a1 = erase b1) as Hab1.
      { subst a1 b1. destruct (Aura x && _); [|done].
        unfold erase, set_aura in *. simpl. injection Hab as -> -> ->. done. }
      destruct (truthy (AffectedSpell x)) as [t|]; simpl; [|by rewrite Hab1].
      specialize (IH t a1 b1 Hab1).
      destruct (getAurasForItem_rec fuel spells t a1),
               (getAurasForItem_rec fuel spells t b1); simpl in *; congruence.
  - unfold erase, add_lookedup, log_resolution in *. simpl.
    injection Hs as -> -> ->. done.
Qed.

Lemma auras_of_any_console root spells out :
  from_option auras ∅ (final_state (getAurasForItem root spells out)) =
  auras_of root spells.
Proof.
  unfold auras_of, getAurasForItem.
  pose proof (getAurasForItem_rec_erase spells (S (length spells)) root
                (fresh_resolution out) (fresh_resolution []) eq_refl) as H.
  destruct (getAurasForItem_rec _ _ _ (fresh_resolution out)),
           (getAurasForItem_rec _ _ _ (fresh_resolution [])); simpl in *;
    try done; by injection H as <- <-.
Qed.

(** ** The item loop of [prepareItemAndSpellData] *)

Lemma foldl_record_entry itemID categoryData maps :
  foldl (record_entry itemID) categoryData maps =
  match last (filter (λ m, size m ≠ 0%nat) maps) with
  | Some m => <[itemID := m]> categoryData
  | None => categoryData
  end.
Proof.
  revert categoryData.
  induction maps as [|m maps IH]; intros cd; simpl; [done|].
  rewrite IH. unfold record_entry. rewrite filter_cons.
  destruct (decide (size m ≠ 0%nat)) as [Hm|Hm]; [|done].
  destruct (filter _ maps) as [|m' rest] eqn:Hf; simpl; [done|].
  change (last (m :: m' :: rest)) with (last (m' :: rest)).
  destruct (last (m' :: rest)) eqn:Hl.
  - apply insert_insert_eq.
  - by apply last_None in Hl.
Qed.

Section Aggregation.
Context {World : Type}.

Lemma resolve_spell_returns spells it sp (ag ag' : @Aggregate World) :
  resolve_spell spells it sp ag = Return tt ag' →
  returns (getAurasForItem (SpellID sp) spells (out (agg_env ag))) ∧
  categoryData ag' =
    record_entry (Item.ID it) (categoryData ag)
      (auras_of (SpellID sp) spells) ∧
  itemsCache ag' =
    (if decide (size (auras_of (SpellID sp) spells) ≠ 0%nat)
     then itemsCache ag ∖ {[Item.ID it]} else itemsCache ag) ∧
  files (agg_env ag') = files (agg_env ag) ∧
  world (agg_env ag') = world (agg_env ag) ∧
  itemNames (agg_env ag') = itemNames (agg_env ag).
Proof.
  unfold resolve_spell, record_entry.
  rewrite <- (auras_of_any_console (SpellID sp) spells (out (agg_env ag))).
  destruct (getAurasForItem _ _ _) as [[] r|e r|]; simpl; try done.
  case_decide; intros [= <-]; simpl; repeat split.
Qed.

Lemma resolve_spells_returns spells it refs : ∀ (ag ag' : @Aggregate World),
  for_of (resolve_spell spells it) refs ag = Return tt ag' →
  categoryData ag' =
    foldl (record_entry (Item.ID it)) (categoryData ag)
      ((λ sp, auras_of (SpellID sp) spells) <$> refs) ∧
  Forall (λ sp, ∀ out, returns (getAurasForItem (SpellID sp) spells out)) refs.
Proof.
  induction refs as [|sp refs IH]; intros ag ag'; simpl.
  - intros [= <-]. auto.
  - destruct (resolve_spell spells it sp ag) as [[] ag1|e ag1|] eqn:Hsp;
      try done.
    apply resolve_spell_returns in Hsp as (Hret & Hcd & _).
    intros [Hcd' Hall]%IH. rewrite Hcd', Hcd. split; [done|].
    constructor; [|done]. intros out0.
    pose proof (getAurasForItem_rec_erase spells (S (length spells))
      (SpellID sp) (fresh_resolution out0)
      (fresh_resolution (out (agg_env ag))) eq_refl) as He.
    unfold getAurasForItem in *.
    destruct (getAurasForItem_rec _ _ _ (fresh_resolution out0)),
             (getAurasForItem_rec _ _ _ (fresh_resolution (out (agg_env ag))));
      simpl in *; done.
Qed.

End Aggregation.

(** ** C1: a referenced spell without a record *)

(** C1 (the code departs from the claim).  Spell 20 is cached and its effect
    references spell 21, which is not (its fetch failed when 20 was cached).
    The resolver prints the warning for 21, and then reading
    [spellData.Effects] throws: the exception leaves [getAurasForItem], ends
    the loop over the categories in [prepareItemAndSpellData], whose [catch]
    prints it and returns [undefined]; no output is written for the
    category, and the next category ("elixirs", whose item 100 has the aura
    10) is never processed. *)
Theorem missing_record_escapes_resolver :
  getAurasForItem 20 [spell20] [] =
    Throw undefined_Effects
      (mkResolution ∅ {[20; 21]} [LogNoSpellData 21] [21; 20]) ∧
  ∃ e',
    @prepareItemAndSpellData unit offline 2 ["bandages"; "elixirs"]
      (start {[ "bandages" := cached [item200] [spell20] [200];
                "elixirs" := cached [item100] [spell10] [100] ]} tt)
    = Return None e' ∧
    out e' = [LogReusingCache "bandages" item; LogReusingCache "bandages" spell;
              LogNoSpellData 21; LogError undefined_Effects] ∧
    output_json (dir "bandages" e') = Missing ∧
    output_json (dir "elixirs" e') = Missing.
Proof.
  split; [by vm_compute|].
  eexists. split; [by vm_compute|]. by vm_compute.
Qed.

(** ** C2: the entry of an item that grants several spells *)

(** C2 (the code departs from the claim).  Item 300 grants the spells 10
    and 11, each an aura.  Resolving 10 finds the aura 10, but the call for
    spell 11 starts from a new mapping, and its result replaces the entry of
    item 300 in the category mapping: the entry is the mapping of spell 11
    alone, aura 10 is not in it, so the entry is not the union of the two
    resolutions, and an aura of the item is lost. *)
Lemma item_entry_is_not_the_union :
  auras_of 10 [spell10; spell11] = {[10 := "Haste Boost"]} ∧
  auras_of 11 [spell10; spell11] = {[11 := "Regen"]} ∧
  ∃ ag',
    resolve_item [spell10; spell11] item300
      (mkAggregate {[300]} ∅ (start ∅ tt)) = Return tt ag' ∧
    categoryData ag' = {[300 := {[11 := "Regen"]}]} ∧
    categoryData ag' !! 300 ≫= (.!! 10) = None.
Proof.
  split; [by vm_compute|]. split; [by vm_compute|].
  eexists. split; [by vm_compute|]. split; by vm_compute.
Qed.

(** How far the loss goes.  Every granted spell is resolved on its own,
    from an empty mapping and an empty visited set, and a non-empty result
    replaces the item's entry: when the loop over the item's spells
    completes, what is left is the mapping of the last granted spell whose
    mapping is not empty; the auras of the spells before it are dropped. *)
Lemma item_entry_is_last_nonempty_resolution {World : Type}
    (spells : list Spell.t) (it : Item.t) (ag ag' : @Aggregate World) :
  resolve_item spells it ag = Return tt ag' →
  categoryData ag' =
    match last (filter (λ m, size m ≠ 0%nat)
                  ((λ sp, auras_of (SpellID sp) spells) <$> Item.Spells it)) with
    | Some m => <[Item.ID it := m]> (categoryData ag)
    | None => categoryData ag
    end.
Proof.
  unfold resolve_item. intros Hrun.
  apply resolve_spells_returns in Hrun as [-> _].
  apply foldl_record_entry.
Qed.

(** The same at item 300 and its two spells. *)
Lemma item_entry_is_last_nonempty_resolution_witness :
  categoryData
    (mkAggregate ∅ {[300 := {[11 := "Regen"]}]}
       (mkEnv ∅ tt [] {[300 := "Twin Idol"]})) =
  match last (filter (λ m, size m ≠ 0%nat)
                ((λ sp, auras_of (SpellID sp) [spell10; spell11])
                   <$> Item.Spells item300)) with
  | Some m => <[Item.ID item300 := m]> (categoryData (mkAggregate {[300]} ∅ (start ∅ tt)))
  | None => categoryData (mkAggregate {[300]} ∅ (start ∅ tt))
  end.
Proof.
  apply (item_entry_is_last_nonempty_resolution [spell10; spell11] item300
           (mkAggregate {[300]} ∅ (start ∅ tt))).
  vm_compute. reflexivity.
Defined.

(** ** C3: cycles *)

(** The two spells of the examples' cycle lead to each other and nowhere
    else. *)
Lemma cycle_30_31_closed (x : Z) :
  reachable [spell30; spell31] 30 x →
  is_Some (getData x [spell30; spell31]).
Proof.
  intros Hreach.
  assert (x = 30 ∨ x = 31) as [->| ->]; [|by eexists..].
  revert x Hreach.
  apply (rtc_ind_r (λ x, x = 30 ∨ x = 31)); [by left|].
  intros y z _ (sd & e & Hget & He & Ht) [->| ->];
    vm_compute in Hget; injection Hget as <-;
    apply list_elem_of_singleton in He as ->;
    vm_compute in Ht; injection Ht as <-; auto.
Qed.

(** C3.  Let the record of [a] reference [b] and the record of [b] reference
    [a].  The call [getAurasForItem(a, spells)] ends, with the same outcome
    for every amount of fuel above the length of [spells]; whatever the
    outcome, no id ran past the guard twice, [a] did once, and every id that
    did is a spell the call can come to from [a].  The call returns exactly
    when every spell it can come to has a record (otherwise it ends by the
    exception of C1); and when it returns, [b] was processed too, the ids
    processed are exactly the spells it can come to, each once, and the
    mapping holds for [a] and for [b] exactly the entry of its record. *)
Theorem cycle_resolution_terminates (spells : list Spell.t) (a b : Z)
    (out : list LogEvent) :
  references spells a b → references spells b a →
  ∃ outcome st',
    getAurasForItem a spells out = outcome ∧
    (∀ fuel, (length spells < fuel)%nat →
       getAurasForItem_rec fuel spells a (fresh_resolution out) = outcome) ∧
    final_state outcome = Some st' ∧
    NoDup (processed st') ∧
    a ∈ processed st' ∧
    (∀ x, x ∈ processed st' → reachable spells a x) ∧
    (returns outcome ↔
     ∀ x, reachable spells a x → is_Some (getData x spells)) ∧
    (returns outcome →
       b ∈ processed st' ∧
       auras st' !! a = getData a spells ≫= aura_entry ∧
       auras st' !! b = getData b spells ≫= aura_entry ∧
       (∀ x, x ∈ processed st' ↔ reachable spells a x)).
Proof.
  intros Hab Hba.
  pose proof (top_level_returns_iff spells a out) as Hiff.
  destruct (getAurasForItem a spells out) as [v st'|e st'|] eqn:Hrun.
  - exists (Return v st'), st'.
    split; [done|]. split.
    { intros fuel Hf. rewrite <- Hrun. by apply getAurasForItem_any_fuel. }
    destruct (top_level_returns _ _ _ _ _ Hrun)
      as (_ & Ha & Hclosed & _ & Hau & Hnd & Hproc).
    pose proof (Hclosed a b Ha Hab) as Hb.
    assert (∀ x, x ∈ processed st' → reachable spells a x) as Honly.
    { intros x Hx. apply (top_level_reach spells a out st');
        [by rewrite Hrun | by apply Hproc]. }
    split; [done|]. split; [done|]. split; [by apply Hproc|].
    split; [done|]. split; [done|].
    intros _. split; [by apply Hproc|].
    rewrite !Hau, !decide_True by done. split; [done|]. split; [done|].
    intros x. split; [apply Honly|]. intros Hx. apply Hproc.
    by apply (top_level_reaches spells a out v).
  - exists (Throw e st'), st'.
    split; [done|]. split.
    { intros fuel Hf. rewrite <- Hrun. by apply getAurasForItem_any_fuel. }
    destruct (top_level_throws _ _ _ _ _ Hrun) as (_ & Hnd & Hproc & Ha & _).
    split; [done|]. split; [done|]. split; [by apply Hproc|].
    split.
    { intros x Hx. apply (top_level_reach spells a out st');
        [by rewrite Hrun | by apply Hproc]. }
    split; [done|]. intros [].
  - by apply getAurasForItem_total in Hrun.
Qed.

(** C3, at the cycle of the spells 30 and 31, which lead nowhere else: the
    call returns, both spells were processed, and each has its entry. *)
Lemma cycle_resolution_terminates_witness :
  ∃ st',
    getAurasForItem 30 [spell30; spell31] [] = Return RetAuras st' ∧
    (∀ fuel, (length [spell30; spell31] < fuel)%nat →
       getAurasForItem_rec fuel [spell30; spell31] 30 (fresh_resolution [])
       = Return RetAuras st') ∧
    NoDup (processed st') ∧
    30 ∈ processed st' ∧ 31 ∈ processed st' ∧
    (∀ x, x ∈ processed st' ↔ reachable [spell30; spell31] 30 x) ∧
    auras st' !! 30 = Some "Ping" ∧
    auras st' !! 31 = Some "Pong".
Proof.
  destruct (cycle_resolution_terminates [spell30; spell31] 30 31 [])
    as (outcome & st' & Hrun & Hfuel & Hfin & Hnd & H30 & _ & Hiff & Hret).
  - exists spell30, (mkEffect true (Some 31)).
    split; [reflexivity|]. split; [left | reflexivity].
  - exists spell31, (mkEffect true (Some 30)).
    split; [reflexivity|]. split; [left | reflexivity].
  - assert (returns outcome) as Hreturns
      by (apply Hiff; exact cycle_30_31_closed).
    destruct (Hret Hreturns) as (H31 & Ha30 & Ha31 & Hall).
    destruct outcome as [v st|e st|]; [|destruct Hreturns..].
    injection Hfin as ->.
    assert (v = RetAuras) as ->.
    { by destruct (top_level_returns _ _ _ _ _ Hrun) as [-> _]. }
    exists st'. repeat split; try done; by apply Hall.
Defined.

(** Scenario C of the specification, evaluated. *)
Example scenario_C :
  getAurasForItem 30 [spell30; spell31] [] =
    Return RetAuras
      (mkResolution {[30 := "Ping"; 31 := "Pong"]} {[30; 31]} [] [31; 30]).
Proof. by vm_compute. Qed.

(** ** C4 and C10: the exclusion set *)

Lemma entries_from_refl spells cd : entries_from spells cd cd.
Proof. intros i m ?. by left. Qed.

Lemma entries_from_trans spells cd1 cd2 cd3 :
  entries_from spells cd1 cd2 → entries_from spells cd2 cd3 →
  entries_from spells cd1 cd3.
Proof.
  intros H12 H23 i m Hm. destruct (H23 i m Hm) as [H2|?]; [|by right].
  by apply H12.
Qed.

Lemma resolve_spell_entries {World : Type} spells it sp
    (ag ag' : @Aggregate World) :
  final_state (resolve_spell spells it sp ag) = Some ag' →
  entries_from spells (categoryData ag) (categoryData ag').
Proof.
  unfold resolve_spell.
  pose proof (auras_of_any_console (SpellID sp) spells (out (agg_env ag))) as Hau.
  destruct (getAurasForItem _ _ _) as [[] r|e r|]; simpl in *;
    try (intros [= <-]; apply entries_from_refl); try done.
  case_decide; simpl; intros [= <-]; simpl; [|apply entries_from_refl].
  intros i m. rewrite lookup_insert. case_decide; [|by left].
  intros [= <-]. right. by exists (SpellID sp).
Qed.

Lemma resolve_item_entries {World : Type} spells it
    (ag ag' : @Aggregate World) :
  final_state (resolve_item spells it ag) = Some ag' →
  entries_from spells (categoryData ag) (categoryData ag').
Proof.
  unfold resolve_item.
  set (ag0 := mkAggregate _ _ _).
  change (categoryData ag) with (categoryData ag0). clearbody ag0.
  pose proof (for_of_inv (resolve_spell spells it)
    (λ _ s, entries_from spells (categoryData ag0) (categoryData s))
    (λ _ s, entries_from spells (categoryData ag0) (categoryData s))
    (Item.Spells it) ag0 (entries_from_refl _ _)) as Hloop.
  lapply Hloop; clear Hloop.
  - intros Hloop. destruct (for_of _ _ _) as [[] s|e s|]; simpl;
      intros [= <-]; done.
  - intros pre x post s _ Hs.
    pose proof (resolve_spell_entries spells it x s) as Hx.
    destruct (resolve_spell spells it x s) as [[] s'|e s'|]; simpl in *;
      try done; eapply entries_from_trans; eauto.
Qed.

Lemma resolve_items_entries {World : Type} spells items
    (ag ag' : @Aggregate World) :
  final_state (for_of (resolve_item spells) items ag) = Some ag' →
  entries_from spells (categoryData ag) (categoryData ag').
Proof.
  pose proof (for_of_inv (resolve_item spells)
    (λ _ s, entries_from spells (categoryData ag) (categoryData s))
    (λ _ s, entries_from spells (categoryData ag) (categoryData s))
    items ag (entries_from_refl _ _)) as Hloop.
  lapply Hloop; clear Hloop.
  - intros Hloop. destruct (for_of _ _ _) as [[] s|e s|]; simpl;
      intros [= <-]; done.
  - intros pre x post s _ Hs.
    pose proof (resolve_item_entries spells x s) as Hx.
    destruct (resolve_item spells x s) as [[] s'|e s'|]; simpl in *;
      try done; eapply entries_from_trans; eauto.
Qed.

Lemma auras_of_entries spells root k v :
  auras_of root spells !! k = Some v →
  ∃ sd, getData k spells = Some sd ∧ v = Spell.Name sd ∧ is_aura sd = true.
Proof.
  unfold auras_of.
  destruct (final_state (getAurasForItem root spells [])) as [st'|] eqn:Hf;
    simpl; [|by rewrite lookup_empty].
  by apply top_level_entries with (root := root) (out := []).
Qed.

(** An entry under the id of [sd] would carry a name that is not excluded. *)
Lemma excluded_has_no_entry spells (sd sd' : Spell.t) :
  getData (Spell.ID sd) spells = Some sd →
  blacklist_has (Spell.Name sd) = true →
  getData (Spell.ID sd) spells = Some sd' → is_aura sd' = true → False.
Proof.
  intros Hsd Hbl Hsd' Hia. rewrite Hsd in Hsd'. injection Hsd' as <-.
  apply is_aura_true in Hia as [_ Hia]. congruence.
Qed.

Lemma excluded_not_in_resolution spells (sd : Spell.t) root out st' :
  getData (Spell.ID sd) spells = Some sd →
  blacklist_has (Spell.Name sd) = true →
  final_state (getAurasForItem root spells out) = Some st' →
  auras st' !! Spell.ID sd = None.
Proof.
  intros Hsd Hbl Hf.
  destruct (auras st' !! Spell.ID sd) as [v|] eqn:Hv; [|done].
  destruct (top_level_entries _ _ _ _ _ _ Hf Hv) as (sd' & ? & ? & ?).
  by destruct (excluded_has_no_entry spells sd sd').
Qed.

(** C4.  Let [sd] be the record the spell collection holds for its id (with
    distinct ids: any record of the collection), with a name of the
    exclusion set.  Its id is a key of no mapping that a call
    [getAurasForItem(root, spells)] builds, whatever the root and however
    the call ends; and of no aura map that the loop over the items of a
    category, started on an empty category mapping, records for any item. *)
Theorem excluded_name_never_recorded (spells : list Spell.t) (sd : Spell.t) :
  getData (Spell.ID sd) spells = Some sd →
  blacklist_has (Spell.Name sd) = true →
  (∀ root out st',
     final_state (getAurasForItem root spells out) = Some st' →
     auras st' !! Spell.ID sd = None) ∧
  (∀ (World : Type) (items : list Item.t) (known : gset Z) (e : @Env World)
     (ag' : @Aggregate World),
     final_state (for_of (resolve_item spells) items (mkAggregate known ∅ e))
       = Some ag' →
     ∀ itemID m, categoryData ag' !! itemID = Some m → m !! Spell.ID sd = None).
Proof.
  intros Hsd Hbl. split.
  - intros root out st' Hf. by eapply excluded_not_in_resolution.
  - intros World items known e ag' Hf itemID m Hm.
    apply resolve_items_entries in Hf.
    destruct (Hf itemID m Hm) as [Hin|[root ->]].
    { simpl in Hin. by rewrite lookup_empty in Hin. }
    destruct (auras_of root spells !! Spell.ID sd) as [v|] eqn:Hv; [|done].
    destruct (auras_of_entries _ _ _ _ Hv) as (sd' & ? & ? & ?).
    by destruct (excluded_has_no_entry spells sd sd').
Qed.

(** C4, at spell 40, named "Food". *)
Lemma excluded_name_never_recorded_witness :
  (∀ root out st',
     final_state (getAurasForItem root [spell40; spell41] out) = Some st' →
     auras st' !! Spell.ID spell40 = None) ∧
  (∀ (World : Type) (items : list Item.t) (known : gset Z) (e : @Env World)
     (ag' : @Aggregate World),
     final_state (for_of (resolve_item [spell40; spell41]) items
                    (mkAggregate known ∅ e)) = Some ag' →
     ∀ itemID m, categoryData ag' !! itemID = Some m →
                 m !! Spell.ID spell40 = None).
Proof.
  apply (excluded_name_never_recorded [spell40; spell41] spell40);
    reflexivity.
Defined.

(** C10.  Let a resolution from [root] return, and let it come to a spell
    [ex] whose name is excluded.  The id of [ex] is not recorded, yet every
    spell that an effect of [ex] references was processed, and so was every
    spell chained from there; each of them has in the returned mapping the
    entry of its own record. *)
Theorem exclusion_does_not_prune_traversal (spells : list Spell.t)
    (root : Z) (out : list LogEvent) (st' : Resolution)
    (ex : Spell.t) (e : Effect) (target : Z) :
  getAurasForItem root spells out = Return RetAuras st' →
  reachable spells root (Spell.ID ex) →
  getData (Spell.ID ex) spells = Some ex →
  blacklist_has (Spell.Name ex) = true →
  e ∈ Spell.Effects ex → truthy (AffectedSpell e) = Some target →
  auras st' !! Spell.ID ex = None ∧
  ∀ far, reachable spells target far →
         far ∈ processed st' ∧
         auras st' !! far = getData far spells ≫= aura_entry.
Proof.
  intros Hrun Hreach Hex Hbl He Ht.
  split.
  - apply (excluded_not_in_resolution spells ex root out); [done|done|].
    by rewrite Hrun.
  - intros far Hfar.
    assert (reachable spells root far) as Hrf.
    { unfold reachable in *. etrans; [apply Hreach|].
      eapply rtc_l; [|apply Hfar]. by exists ex, e. }
    pose proof (top_level_reaches _ _ _ _ _ _ Hrun Hrf) as Hin.
    destruct (top_level_returns _ _ _ _ _ Hrun) as (_ & _ & _ & _ & Hau & _ & Hp).
    split; [by apply Hp|]. by rewrite Hau, decide_True.
Qed.

(** C10, at spell 40, named "Food", whose effect references spell 41. *)
Lemma exclusion_does_not_prune_traversal_witness :
  auras (mkResolution {[41 := "Well Fed"]} {[40; 41]} [] [41; 40])
    !! Spell.ID spell40 = None ∧
  ∀ far, reachable [spell40; spell41] 41 far →
         far ∈ processed (mkResolution {[41 := "Well Fed"]} {[40; 41]} []
                            [41; 40]) ∧
         auras (mkResolution {[41 := "Well Fed"]} {[40; 41]} [] [41; 40])
           !! far = getData far [spell40; spell41] ≫= aura_entry.
Proof.
  apply (exclusion_does_not_prune_traversal [spell40; spell41] 40 [] _
           spell40 (mkEffect true (Some 41)) 41).
  - by vm_compute.
  - apply rtc_refl.
  - reflexivity.
  - reflexivity.
  - left.
  - reflexivity.
Defined.

(** ** The caches: what the fetches of one update do *)

Section CacheRuns.
Context {World : Type} `{!Remote World}.
Variable type : Kind.

Local Abbreviation attempts_ok := (attempts_ok type).
Local Abbreviation grows := (grows type).

Lemma cache_after_app cache (l1 l2 : list (Attempt type)) :
  cache_after cache (l1 ++ l2) = cache_after (cache_after cache l1) l2.
Proof. unfold cache_after. apply foldl_app. Qed.

Lemma attempts_ok_app cache (l1 l2 : list (Attempt type)) :
  attempts_ok cache (l1 ++ l2) ↔
  attempts_ok cache l1 ∧ attempts_ok (cache_after cache l1) l2.
Proof.
  revert cache. induction l1 as [|a l1 IH]; intros cache; simpl.
  - tauto.
  - rewrite IH. change (cache_after cache (a :: l1))
      with (cache_after (cache_after cache [a]) l1). tauto.
Qed.

Lemma cache_after_union cache (l : list (Attempt type)) :
  cache_after cache l = cache ∪ list_to_set (fetched l).*1.
Proof.
  revert cache. induction l as [|[id [err|r]] l IH]; intros cache.
  - simpl. set_solver.
  - change (cache_after cache ((id, inl err) :: l))
      with (cache_after cache l). by rewrite IH.
  - change (cache_after cache ((id, inr r) :: l))
      with (cache_after ({[id]} ∪ cache) l). rewrite IH.
    unfold fetched. simpl. set_solver.
Qed.

Lemma attempts_ok_fresh cache (l : list (Attempt type)) :
  attempts_ok cache l →
  NoDup (fetched l).*1 ∧ (∀ a, a ∈ l → a.1 ∉ cache).
Proof.
  revert cache. induction l as [|[id [err|r]] l IH]; intros cache; simpl.
  - intros _. split; [constructor | by intros a ?%elem_of_nil].
  - intros (Hid & _ & Hok). destruct (IH _ Hok) as [Hnd Hout].
    split; [done|]. intros a [->|Ha]%elem_of_cons; [done|].
    by apply Hout.
  - intros (Hid & _ & Hok). destruct (IH _ Hok) as [Hnd Hout].
    unfold cache_after in Hout. simpl in Hout. split.
    + unfold fetched. simpl. apply NoDup_cons. split; [|done].
      intros Hin. apply list_elem_of_fmap in Hin as ([id' r'] & Heq & Hin).
      simpl in Heq. subst id'.
      apply list_elem_of_omap in Hin as ([id2 [e2|r2]] & Hin2 & Heq);
        [done|]. simpl in Heq. injection Heq as -> ->.
      apply Hout in Hin2. simpl in Hin2. set_solver.
    + intros a [->|Ha]%elem_of_cons; [done|].
      apply Hout in Ha. set_solver.
Qed.

Lemma attempts_ok_size cache (l : list (Attempt type)) :
  attempts_ok cache l →
  size (cache_after cache l) = (size cache + length (fetched l))%nat.
Proof.
  revert cache. induction l as [|[id [err|r]] l IH]; intros cache; simpl.
  - intros _. unfold cache_after. simpl. lia.
  - intros (_ & _ & Hok). by apply IH in Hok.
  - intros (Hid & _ & Hok). apply IH in Hok.
    change (cache_after cache ((id, inr r) :: l))
      with (cache_after (cache_after cache [(id, inr r)]) l).
    rewrite Hok. unfold cache_after. simpl.
    rewrite size_union by set_solver. rewrite size_singleton.
    unfold fetched. simpl. lia.
Qed.

Lemma grows_refl st : grows st st [].
Proof. split; simpl; auto; by rewrite app_nil_r. Qed.

Lemma grows_trans st1 st2 st3 l1 l2 :
  grows st1 st2 l1 → grows st2 st3 l2 → grows st1 st3 (l1 ++ l2).
Proof.
  intros [O1 R1 C1 L1 F1 N1] [O2 R2 C2 L2 F2 N2]. split.
  - apply attempts_ok_app. split; [done|]. by rewrite <- C1.
  - rewrite R2, R1. unfold fetched. rewrite omap_app, fmap_app.
    by rewrite app_assoc.
  - by rewrite C2, C1, cache_after_app.
  - by rewrite L2, L1, flat_map_app, app_assoc.
  - congruence.
  - congruence.
Qed.

Lemma grows_subseteq st st' l : grows st st' l → cache st ⊆ cache st'.
Proof.
  intros [_ _ C _ _ _]. rewrite C, cache_after_union. set_solver.
Qed.

(** One call of [downloadJson] and what the [try] around it does with the
    answer: a record is pushed and its id added, an exception is printed. *)
Lemma downloadJson_grows id (st : @Run World (Json type)) :
  id ∉ cache st →
  match downloadJson type id (env st) with
  | Return r e =>
      grows st (mkRun (records st ++ [r]) ({[id]} ∪ cache st) e)
        [(id, inr r)]
  | Throw error e =>
      grows st (failed_fetching type id error
                  (mkRun (records st) (cache st) e)) [(id, inl error)]
  | OutOfFuel => False
  end.
Proof.
  intros Hid. unfold downloadJson.
  destruct (wowdb_get type id (world (log (LogFetching type id) (env st))))
    as [[error|r] w] eqn:Hget; simpl.
  - split; simpl; auto.
    + split; [done|]. split; [|done]. eauto.
    + by rewrite app_nil_r.
    + by rewrite <- app_assoc.
  - split; simpl; auto.
    split; [done|]. split; [|done]. eauto.
Qed.

End CacheRuns.

Section CacheLoops.
Context {World : Type} `{!Remote World}.

Lemma failed_app {type : Kind} (l1 l2 : list (Attempt type)) :
  failed (l1 ++ l2) = failed l1 ++ failed l2.
Proof. unfold failed. apply omap_app. Qed.

Lemma elem_of_failed {type : Kind} id (l : list (Attempt type)) :
  id ∈ failed l ↔ ∃ error, (id, inl error) ∈ l.
Proof.
  unfold failed. rewrite list_elem_of_omap. split.
  - intros ([id' [error|r]] & Hin & Heq); simpl in Heq; [|done].
    injection Heq as ->. eauto.
  - intros [error Hin]. by exists (id, inl error).
Qed.

(** Once an id is in the set or has a failed attempt, it stays so. *)
Lemma settled_mono (type : Kind) (st2 st3 : @Run World (Json type))
    l1 l2 id :
  grows type st2 st3 l2 →
  id ∈ cache st2 ∨ id ∈ failed l1 →
  id ∈ cache st3 ∨ id ∈ failed (l1 ++ l2).
Proof.
  intros Hg [Hin|Hin].
  - left. by apply (grows_subseteq _ _ _ _ Hg).
  - right. rewrite failed_app. apply elem_of_app. by left.
Qed.

(** *** The loop of [updateItemsCache] *)

Lemma fetch_item_grows itemID (st : @Run World Item.t) :
  ∃ st' l, fetch_item itemID st = Return tt st' ∧ grows item st st' l ∧
           (itemID ∈ cache st' ∨ itemID ∈ failed l) ∧
           (∀ a, a ∈ l → a.1 = itemID).
Proof.
  unfold fetch_item. case_decide as Hid.
  - exists st, []. split; [done|]. split; [apply grows_refl|].
    split; [by left|]. by intros a ?%elem_of_nil.
  - pose proof (downloadJson_grows item itemID st Hid) as Hd.
    change (Json item) with Item.t in Hd.
    destruct (downloadJson item itemID (env st)) as [r e|error e|];
      [| |done].
    + eexists _, _. split; [done|]. split; [exact Hd|].
      split; [left; simpl; set_solver|].
      by intros a ->%list_elem_of_singleton.
    + eexists _, _. split; [done|]. split; [exact Hd|].
      split; [right; apply elem_of_failed; exists error; left|].
      by intros a ->%list_elem_of_singleton.
Qed.

Lemma fetch_items_grows info : ∀ st : @Run World Item.t,
  ∃ st' l, for_of fetch_item info st = Return tt st' ∧ grows item st st' l ∧
           (∀ id, id ∈ info → id ∈ cache st' ∨ id ∈ failed l) ∧
           (∀ a, a ∈ l → a.1 ∈ info).
Proof.
  induction info as [|id info IH]; intros st; simpl.
  - exists st, []. split; [done|]. split; [apply grows_refl|].
    split; [by intros ? ?%elem_of_nil | by intros ? ?%elem_of_nil].
  - destruct (fetch_item_grows id st) as (st1 & l1 & -> & Hg1 & Hid & Hl1).
    destruct (IH st1) as (st2 & l2 & -> & Hg2 & Hinfo & Hl2).
    exists st2, (l1 ++ l2). split; [done|].
    split; [by eapply grows_trans|]. split.
    + intros x [->|Hx]%elem_of_cons.
      * by apply (settled_mono item st1 st2 l1 l2).
      * destruct (Hinfo x Hx) as [?|?]; [by left|].
        right. rewrite failed_app. apply elem_of_app. by right.
    + intros a [Ha|Ha]%elem_of_app.
      * apply elem_of_cons. left. by apply Hl1.
      * apply elem_of_cons. right. by apply Hl2.
Qed.

(** *** [cacheRelatedSpells] *)

Lemma follow_effects_grows recur effects : ∀ st : @Run World Spell.t,
  (∀ t s, expanded t s (recur t s)) →
  match for_of (follow_effect recur) effects st with
  | Return _ st' => ∃ l, grows spell st st' l
  | Throw _ _ => False
  | OutOfFuel => True
  end.
Proof.
  intros st Hrec.
  apply (for_of_inv (follow_effect recur)
           (λ _ s, ∃ l, grows spell st s l) (λ _ _, False)).
  - exists []. apply grows_refl.
  - intros pre x post s _ [l Hl]. unfold follow_effect.
    destruct (truthy (AffectedSpell x)) as [t|]; [|by exists l].
    specialize (Hrec t s). destruct (recur t s) as [[] s'|e s'|]; try done.
    destruct Hrec as (l' & Hl' & _). exists (l ++ l').
    by eapply grows_trans.
Qed.

Lemma cacheRelatedSpells_grows fuel :
  ∀ spellID st, expanded spellID st (cacheRelatedSpells fuel spellID st).
Proof.
  induction fuel as [|fuel IH]; intros spellID st; simpl; [done|].
  case_decide as Hid.
  { exists []. split; [apply grows_refl | by left]. }
  pose proof (downloadJson_grows spell spellID st Hid) as Hd.
  change (Json spell) with Spell.t in Hd.
  destruct (downloadJson spell spellID (env st)) as [sp e|error e|];
    [| |done].
  - pose proof (follow_effects_grows (cacheRelatedSpells fuel)
      (Spell.Effects sp)
      (mkRun (records st ++ [sp]) ({[spellID]} ∪ cache st) e) IH) as Hloop.
    destruct (for_of _ _ _) as [[] st'|e' st'|]; simpl; [|done|done].
    destruct Hloop as [l Hl]. exists ((spellID, inr sp) :: l). split.
    + by apply (grows_trans spell _ _ _ [_] l Hd).
    + left. apply (grows_subseteq _ _ _ _ Hl). simpl. set_solver.
  - simpl. exists [(spellID, inl error)]. split; [done|].
    right. apply elem_of_failed. exists error. left.
Qed.

(** *** The loops of [updateSpellsCache] *)

Lemma cache_item_spells_grows fuel refs : ∀ st : @Run World Spell.t,
  match for_of (λ sp, cacheRelatedSpells fuel (SpellID sp)) refs st with
  | Return _ st' =>
      ∃ l, grows spell st st' l ∧
           ∀ sp, sp ∈ refs → SpellID sp ∈ cache st' ∨ SpellID sp ∈ failed l
  | Throw _ _ => False
  | OutOfFuel => True
  end.
Proof.
  induction refs as [|sp refs IH]; intros st; simpl.
  - exists []. split; [apply grows_refl | by intros ? ?%elem_of_nil].
  - pose proof (cacheRelatedSpells_grows fuel (SpellID sp) st) as H1.
    destruct (cacheRelatedSpells fuel (SpellID sp) st) as [[] st1|e st1|];
      try done.
    destruct H1 as (l1 & Hg1 & Hsp). specialize (IH st1).
    destruct (for_of _ refs st1) as [[] st2|e st2|]; try done.
    destruct IH as (l2 & Hg2 & Hrefs). exists (l1 ++ l2).
    split; [by eapply grows_trans|].
    intros x [->|Hx]%elem_of_cons.
    + by apply (settled_mono spell st1 st2 l1 l2).
    + destruct (Hrefs x Hx) as [?|?]; [by left|].
      right. rewrite failed_app. apply elem_of_app. by right.
Qed.

Lemma cache_items_spells_grows fuel items : ∀ st : @Run World Spell.t,
  match for_of (cache_item_spells fuel) items st with
  | Return _ st' =>
      ∃ l, grows spell st st' l ∧
           ∀ it sp, it ∈ items → sp ∈ Item.Spells it →
                    SpellID sp ∈ cache st' ∨ SpellID sp ∈ failed l
  | Throw _ _ => False
  | OutOfFuel => True
  end.
Proof.
  induction items as [|it items IH]; intros st; simpl.
  - exists []. split; [apply grows_refl | by intros ? ? ?%elem_of_nil].
  - pose proof (cache_item_spells_grows fuel (Item.Spells it) st) as H1.
    unfold cache_item_spells at 1.
    destruct (for_of _ (Item.Spells it) st) as [[] st1|e st1|]; try done.
    destruct H1 as (l1 & Hg1 & Hsp). specialize (IH st1).
    destruct (for_of _ items st1) as [[] st2|e st2|]; try done.
    destruct IH as (l2 & Hg2 & Hrefs). exists (l1 ++ l2).
    split; [by eapply grows_trans|].
    intros x sp [->|Hx]%elem_of_cons Hin.
    + apply (settled_mono spell st1 st2 l1 l2); auto.
    + destruct (Hrefs x sp Hx Hin) as [?|?]; [by left|].
      right. rewrite failed_app. apply elem_of_app. by right.
Qed.

End CacheLoops.

(** ** The expansion terminates on a finite graph *)

Section ExpansionFuel.
Context {World : Type} `{!Remote World}.

(** The service knows finitely many spells: the ids it answers with a
    record are all in [U]. *)
Variable U : gset Z.
Hypothesis finite_graph :
  ∀ id w r w', wowdb_get spell id w = (inr r, w') → id ∈ U.

Lemma cacheRelatedSpells_enough_fuel fuel :
  ∀ spellID (st : @Run World Spell.t),
    (size (U ∖ cache st) < fuel)%nat →
    cacheRelatedSpells fuel spellID st ≠ OutOfFuel.
Proof.
  induction fuel as [|fuel IH]; intros spellID st Hsz; [lia|]. simpl.
  case_decide as Hid; [done|].
  unfold downloadJson.
  destruct (wowdb_get spell spellID _) as [[error|sp] w] eqn:Hget; [done|].
  apply finite_graph in Hget.
  match goal with |- context [for_of _ _ ?s] => set (st1 := s) end.
  assert (size (U ∖ cache st1) < fuel)%nat as Hlt.
  { assert (U ∖ ({[spellID]} ∪ cache st) ⊂ U ∖ cache st) as Hsub
      by set_solver.
    apply subset_size in Hsub. simpl. lia. }
  pose proof (for_of_fuel (follow_effect (cacheRelatedSpells fuel))
    (λ s, cache st1 ⊆ cache s) (Spell.Effects sp) st1) as Hloop.
  lapply Hloop; [clear Hloop; intros Hloop | done].
  lapply Hloop; [clear Hloop; intros Hloop |].
  { destruct (for_of _ _ _); done. }
  intros x s _ Hs. unfold follow_effect.
  destruct (truthy (AffectedSpell x)) as [t|]; [|done].
  pose proof (cacheRelatedSpells_grows fuel t s) as Hg.
  assert (cacheRelatedSpells fuel t s ≠ OutOfFuel) as Hne.
  { apply IH. assert (U ∖ cache s ⊆ U ∖ cache st1) as Hsub by set_solver.
    apply subseteq_size in Hsub. lia. }
  destruct (cacheRelatedSpells fuel t s) as [[] s'|e s'|]; try done.
  destruct Hg as (l & Hl & _).
  apply (grows_subseteq spell) in Hl. set_solver.
Qed.

Lemma cache_items_spells_enough_fuel fuel items :
  ∀ st : @Run World Spell.t,
    (size (U ∖ cache st) < fuel)%nat →
    for_of (cache_item_spells fuel) items st ≠ OutOfFuel.
Proof.
  intros st Hsz.
  apply (for_of_fuel _ (λ s, cache st ⊆ cache s)); [done|].
  intros it s _ Hs. unfold cache_item_spells.
  pose proof (cache_item_spells_grows fuel (Item.Spells it) s) as Hg.
  assert (for_of (λ sp, cacheRelatedSpells fuel (SpellID sp))
            (Item.Spells it) s ≠ OutOfFuel) as Hne.
  { apply (for_of_fuel _ (λ s', cache s ⊆ cache s')); [done|].
    intros sp s' _ Hs'.
    pose proof (cacheRelatedSpells_grows fuel (SpellID sp) s') as Hg'.
    assert (cacheRelatedSpells fuel (SpellID sp) s' ≠ OutOfFuel) as Hne.
    { apply cacheRelatedSpells_enough_fuel.
      assert (U ∖ cache s' ⊆ U ∖ cache st) as Hsub by set_solver.
      apply subseteq_size in Hsub. lia. }
    destruct (cacheRelatedSpells fuel (SpellID sp) s') as [[] s2|e s2|];
      try done.
    destruct Hg' as (l & Hl & _).
    apply (grows_subseteq spell) in Hl. set_solver. }
  destruct (for_of _ (Item.Spells it) s) as [[] s'|e s'|]; try done.
  destruct Hg as (l & Hl & _).
  apply (grows_subseteq spell) in Hl. set_solver.
Qed.

End ExpansionFuel.

Section ExpansionMoreFuel.
Context {World : Type} `{!Remote World}.

Lemma cacheRelatedSpells_more_fuel fuel :
  ∀ fuel' spellID (st : @Run World Spell.t), (fuel ≤ fuel')%nat →
    cacheRelatedSpells fuel spellID st ≠ OutOfFuel →
    cacheRelatedSpells fuel' spellID st = cacheRelatedSpells fuel spellID st.
Proof.
  induction fuel as [|fuel IH]; intros fuel' spellID st Hle Hne; [done|].
  destruct fuel' as [|fuel']; [lia|]. simpl in *.
  case_decide; [done|].
  destruct (downloadJson spell spellID (env st)) as [sp e|error e|];
    [|done|done].
  rewrite (for_of_agree (follow_effect (cacheRelatedSpells fuel))
             (follow_effect (cacheRelatedSpells fuel'))); [done| |].
  - intros x s _. unfold follow_effect.
    destruct (truthy (AffectedSpell x)) as [t|]; [|done].
    intros Hx. apply IH; [lia | done].
  - intros E. by rewrite E in Hne.
Qed.

Lemma updateSpellsCache_more_fuel fuel fuel' category items (e : @Env World) :
  (fuel ≤ fuel')%nat →
  updateSpellsCache fuel category items e ≠ OutOfFuel →
  updateSpellsCache fuel' category items e =
  updateSpellsCache fuel category items e.
Proof.
  intros Hle. unfold updateSpellsCache.
  destruct (loadCache category spell _ e) as [spells e1].
  intros Hne.
  rewrite (for_of_agree (cache_item_spells fuel) (cache_item_spells fuel'));
    [done| |].
  - intros it s _ Hit. unfold cache_item_spells in *.
    apply for_of_agree; [|done].
    intros sp s' _ Hsp. by apply cacheRelatedSpells_more_fuel.
  - intros E. by rewrite E in Hne.
Qed.

End ExpansionMoreFuel.

(** ** Sorting and the id-set of a collection *)

Lemma ids_of_list_to_set {A : Type} (key : A → Z) (l : list A) :
  ids_of key l = list_to_set (key <$> l).
Proof.
  unfold ids_of.
  enough (∀ c : gset Z, foldl (λ cache r, {[key r]} ∪ cache) c l
                        = list_to_set (key <$> l) ∪ c) as H.
  { rewrite H. set_solver. }
  induction l as [|x l IH]; intros c; simpl; [set_solver|].
  rewrite IH. set_solver.
Qed.

Lemma insert_by_Permutation {A : Type} (key : A → Z) x (l : list A) :
  insert_by key x l ≡ₚ x :: l.
Proof.
  induction l as [|y l IH]; simpl; [done|].
  case_decide; [done|]. rewrite IH. apply Permutation_swap.
Qed.

Lemma sort_by_Permutation {A : Type} (key : A → Z) (l : list A) :
  sort_by key l ≡ₚ l.
Proof.
  induction l as [|x l IH]; simpl; [done|].
  rewrite insert_by_Permutation. by rewrite IH.
Qed.

Lemma insert_by_sorted {A : Type} (key : A → Z) x (l : list A) :
  StronglySorted (λ a b, key a ≤ key b) l →
  StronglySorted (λ a b, key a ≤ key b) (insert_by key x l).
Proof.
  induction 1 as [|y l Hs IH Hall]; simpl.
  - repeat constructor.
  - case_decide as Hxy.
    + constructor; [by constructor|]. constructor; [done|].
      eapply Forall_impl; [exact Hall|]. simpl. intros. lia.
    + constructor; [done|].
      rewrite (insert_by_Permutation key x l). constructor; [lia|done].
Qed.

Lemma sort_by_sorted {A : Type} (key : A → Z) (l : list A) :
  StronglySorted (λ a b, key a ≤ key b) (sort_by key l).
Proof.
  induction l as [|x l IH]; simpl; [constructor|].
  by apply insert_by_sorted.
Qed.

(** A collection sorted by id and without two records of one id is sorted
    by strictly ascending id. *)
Lemma sorted_NoDup_strict {A : Type} (key : A → Z) (l : list A) :
  StronglySorted (λ a b, key a ≤ key b) l → NoDup (key <$> l) →
  StronglySorted (λ a b, key a < key b) l.
Proof.
  induction 1 as [|x l Hs IH Hall]; simpl; intros Hnd; [constructor|].
  apply NoDup_cons in Hnd as [Hx Hnd]. constructor; [by apply IH|].
  apply Forall_forall. intros y Hy.
  rewrite Forall_forall in Hall. specialize (Hall y Hy).
  assert (key x ≠ key y); [|lia].
  intros Heq. apply Hx. rewrite Heq. by apply list_elem_of_fmap_2.
Qed.

Lemma strictly_sorted_NoDup {A : Type} (key : A → Z) (l : list A) :
  StronglySorted (λ a b, key a < key b) l → NoDup (key <$> l).
Proof.
  induction 1 as [|x l Hs IH Hall]; simpl; [constructor|].
  apply NoDup_cons. split; [|done].
  intros (y & Heq & Hy)%list_elem_of_fmap.
  rewrite Forall_forall in Hall. specialize (Hall y Hy). lia.
Qed.

Lemma sort_by_strict {A : Type} (key : A → Z) (l : list A) :
  NoDup (key <$> l) →
  StronglySorted (λ a b, key a < key b) (sort_by key l).
Proof.
  intros Hnd. apply sorted_NoDup_strict; [apply sort_by_sorted|].
  by rewrite (sort_by_Permutation key l).
Qed.

(** Sorting a collection that is already sorted by strictly ascending id
    changes nothing. *)
Lemma sort_by_sorted_id {A : Type} (key : A → Z) (l : list A) :
  StronglySorted (λ a b, key a < key b) l → sort_by key l = l.
Proof.
  induction 1 as [|x l Hs IH Hall]; simpl; [done|].
  rewrite IH. destruct l as [|y l]; simpl; [done|].
  apply Forall_cons in Hall as [Hxy _]. rewrite decide_True; [done|lia].
Qed.

(** ** The two updates as a whole *)

Section Updates.
Context {World : Type} `{!Remote World}.

Lemma persist_if_grown_spec (type : Kind) (key : Json type → Z) write
    (st st' : @Run World (Json type)) l :
  grows type st st' l →
  persist_if_grown type key write (size (cache st)) st' =
  persisted type key write st' l.
Proof.
  intros [Hok _ Hc _ _ _]. unfold persist_if_grown, persisted.
  rewrite Hc, (attempts_ok_size type _ _ Hok).
  destruct (fetched l) as [|x rest]; simpl.
  - rewrite decide_False by lia. by rewrite <- Hc.
  - rewrite decide_True by lia. rewrite <- Hc.
    by replace (size (cache st) + S (length rest) - size (cache st))%nat
      with (S (length rest)) by lia.
Qed.

Lemma loadCache_env {A : Type} category type (file : File (list A))
    (e : @Env World) :
  files (loadCache category type file e).2 = files e ∧
  world (loadCache category type file e).2 = world e ∧
  itemNames (loadCache category type file e).2 = itemNames e ∧
  ∃ printed, out (loadCache category type file e).2 = out e ++ printed.
Proof.
  destruct file; simpl; repeat split; eauto.
  exists []. by rewrite app_nil_r.
Qed.

Lemma updateItemsCache_spec category (e : @Env World) info :
  category_json (dir category e) = Parsed info →
  ∃ st' l,
    grows item (items_start category e) st' l ∧
    (∀ id, id ∈ info → id ∈ cache st' ∨ id ∈ failed l) ∧
    (∀ a, a ∈ l → a.1 ∈ info) ∧
    updateItemsCache category e =
      persisted item Item.ID (write_items category) st' l.
Proof.
  intros Hinfo. unfold updateItemsCache.
  pose proof (loadCache_env category item (items_json (dir category e)) e)
    as (Hf & _).
  unfold items_start, loaded_items.
  destruct (loadCache category item (items_json (dir category e)) e)
    as [items e1] eqn:Hload. simpl in *.
  assert (dir category e1 = dir category e) as Hdir
    by (unfold dir; by rewrite Hf).
  rewrite Hdir, Hinfo.
  destruct (fetch_items_grows info (mkRun items (ids_of Item.ID items) e1))
    as (st' & l & -> & Hg & Hset & Hl).
  exists st', l. split; [done|]. split; [done|]. split; [done|].
  by rewrite <- (persist_if_grown_spec item Item.ID _ _ _ _ Hg).
Qed.

Lemma updateSpellsCache_spec fuel category items (e : @Env World) :
  updateSpellsCache fuel category items e = OutOfFuel ∨
  ∃ st' l,
    grows spell (spells_start category e) st' l ∧
    (∀ it sp, it ∈ items → sp ∈ Item.Spells it →
              SpellID sp ∈ cache st' ∨ SpellID sp ∈ failed l) ∧
    updateSpellsCache fuel category items e =
      persisted spell Spell.ID (write_spells category) st' l.
Proof.
  unfold updateSpellsCache, spells_start, loaded_spells.
  destruct (loadCache category spell (spells_json (dir category e)) e)
    as [spells e1] eqn:Hload. simpl.
  pose proof (cache_items_spells_grows fuel items
                (mkRun spells (ids_of Spell.ID spells) e1)) as Hloop.
  destruct (for_of _ items _) as [[] st'|error st'|]; [|done|by left].
  destruct Hloop as (l & Hg & Hset). right.
  exists st', l. split; [done|]. split; [done|].
  by rewrite <- (persist_if_grown_spec spell Spell.ID _ _ _ _ Hg).
Qed.

End Updates.

(** ** A service that answers with the record asked for *)

Section Honest.
Context {World : Type} `{!Remote World}.
Variable type : Kind.
Variable key : Json type → Z.

(** The record received for an id carries that id. *)
Hypothesis honest :
  ∀ id w r w', wowdb_get type id w = (inr r, w') → key r = id.

Lemma fetched_keys cache (l : list (Attempt type)) :
  attempts_ok type cache l → key <$> (fetched l).*2 = (fetched l).*1.
Proof.
  revert cache. induction l as [|[id [err|r]] l IH]; intros cache; simpl.
  - done.
  - intros (_ & _ & Hok). by apply IH in Hok.
  - intros (_ & (w & w' & Hget) & Hok). apply IH in Hok.
    change (key r :: (key <$> (fetched l).*2) = id :: (fetched l).*1).
    by rewrite Hok, (honest _ _ _ _ Hget).
Qed.

Lemma grows_ids (st st' : @Run World (Json type)) l :
  grows type st st' l →
  cache st = ids_of key (records st) →
  cache st' = ids_of key (records st').
Proof.
  intros [Hok Hr Hc _ _ _] H0.
  rewrite Hc, cache_after_union, H0, !ids_of_list_to_set, Hr, fmap_app.
  rewrite (fetched_keys _ _ Hok). set_solver.
Qed.

Lemma grows_NoDup (st st' : @Run World (Json type)) l :
  grows type st st' l →
  cache st = ids_of key (records st) →
  NoDup (key <$> records st) →
  NoDup (key <$> records st').
Proof.
  intros [Hok Hr Hc _ _ _] H0 Hnd.
  rewrite Hr, fmap_app, (fetched_keys _ _ Hok).
  destruct (attempts_ok_fresh type _ _ Hok) as [Hnd' Hout].
  apply NoDup_app. split; [done|]. split; [|done].
  intros x Hx Hx'. apply list_elem_of_fmap in Hx' as ([id r] & -> & Hin).
  apply list_elem_of_omap in Hin as ([id2 [e2|r2]] & Hin2 & Heq);
    [done|]. simpl in Heq. injection Heq as -> ->.
  apply Hout in Hin2. simpl in Hin2. apply Hin2.
  rewrite H0, ids_of_list_to_set. by apply elem_of_list_to_set.
Qed.

End Honest.

Lemma serving_honest_items items spells id w r w' :
  @wowdb_get unit (serving items spells) item id w = (inr r, w') →
  Item.ID r = id.
Proof.
  simpl. destruct (list_find _ items) as [[i x]|] eqn:Hfind; [|done].
  intros [= <- _]. by apply list_find_Some in Hfind as (_ & ? & _).
Qed.

Lemma serving_honest_spells items spells id w r w' :
  @wowdb_get unit (serving items spells) spell id w = (inr r, w') →
  Spell.ID r = id.
Proof.
  simpl. destruct (list_find _ spells) as [[i x]|] eqn:Hfind; [|done].
  intros [= <- _]. by apply list_find_Some in Hfind as (_ & ? & _).
Qed.

Lemma serving_finite items spells id w r w' :
  @wowdb_get unit (serving items spells) spell id w = (inr r, w') →
  id ∈ (list_to_set (Spell.ID <$> spells) : gset Z).
Proof.
  simpl. destruct (list_find _ spells) as [[i x]|] eqn:Hfind; [|done].
  intros _. apply list_find_Some in Hfind as (Hi & <- & _).
  apply elem_of_list_to_set, list_elem_of_fmap_2.
  by eapply list_elem_of_lookup_2.
Qed.

Lemma offline_fails type id w :
  ∃ error w', @wowdb_get unit offline type id w = (inl error, w').
Proof. simpl. eauto. Qed.

(** ** C5, C8, C9: the item cache after an update *)

Section ItemCache.
Context {World : Type} `{!Remote World}.

Lemma dir_loadCache {A : Type} category type c (file : File (list A))
    (e : @Env World) :
  dir c (loadCache category type file e).2 = dir c e.
Proof. by destruct file. Qed.

Lemma updateItemsCache_returns category (e : @Env World) res e' :
  updateItemsCache category e = Return res e' →
  ∃ info st' l,
    category_json (dir category e) = Parsed info ∧
    grows item (items_start category e) st' l ∧
    (∀ id, id ∈ info → id ∈ cache st' ∨ id ∈ failed l) ∧
    (∀ a, a ∈ l → a.1 ∈ info) ∧
    persisted item Item.ID (write_items category) st' l = Return res e'.
Proof.
  intros Hrun.
  destruct (category_json (dir category e)) as [| |info] eqn:Hinfo.
  - unfold updateItemsCache in Hrun.
    pose proof (dir_loadCache category item category
                  (items_json (dir category e)) e) as Hdir.
    destruct (loadCache category item _ e) as [items e1]. simpl in Hdir.
    by rewrite Hdir, Hinfo in Hrun.
  - unfold updateItemsCache in Hrun.
    pose proof (dir_loadCache category item category
                  (items_json (dir category e)) e) as Hdir.
    destruct (loadCache category item _ e) as [items e1]. simpl in Hdir.
    by rewrite Hdir, Hinfo in Hrun.
  - destruct (updateItemsCache_spec category e info Hinfo)
      as (st' & l & Hg & Hset & Hl & Heq).
    exists info, st', l. by rewrite <- Heq.
Qed.

Lemma loaded_items_files category (e e' : @Env World) :
  files e' = files e → loaded_items category e' = loaded_items category e.
Proof.
  intros Hf. unfold loaded_items, dir. rewrite Hf.
  by destruct (items_json _).
Qed.

Lemma loaded_items_Parsed category (e : @Env World) items :
  items_json (dir category e) = Parsed items →
  loaded_items category e = items.
Proof. intros Hf. unfold loaded_items. by rewrite Hf. Qed.

Lemma items_json_write_items category items (e : @Env World) :
  items_json (dir category (write_items category items e)) = Parsed items.
Proof. unfold dir, write_items. simpl. by rewrite lookup_insert_eq. Qed.

End ItemCache.

Example updateItemsCache_potions :
  @updateItemsCache unit (serving [item200] []) "potions" potions_before =
  Return ([item100; item200; item300], {[100; 200; 300]}) potions_after.
Proof. by vm_compute. Qed.

(** C5.  Let the service answer a request with a record of the id asked
    for, and let the loaded item cache hold no two records of one id.  When
    [updateItemsCache] returns, there is a sequence of attempts, the one
    printed on the console, such that: the returned id-set is the ids of
    the loaded cache together with the ids fetched successfully; it is the
    set of the ids of the returned collection; that collection is the
    loaded one with the fetched records added; and either something was
    fetched, and the file [items.json] now holds the returned collection,
    sorted by strictly ascending id (so without a repeated id), or nothing
    was, and no file has changed.  Either way the cache that the next run
    loads has again no two records of one id: the first hypothesis holds of
    an empty cache and is kept by every run. *)
Theorem persisted_items_strictly_sorted {World : Type} `{!Remote World}
    (category : string) (e : @Env World) (items' : list Item.t)
    (cache' : gset Z) (e' : @Env World) :
  (∀ id w r w', wowdb_get item id w = (inr r, w') → Item.ID r = id) →
  NoDup (Item.ID <$> loaded_items category e) →
  updateItemsCache category e = Return (items', cache') e' →
  ∃ attempts : list (Attempt item),
    attempts_ok item (list_to_set (Item.ID <$> loaded_items category e))
      attempts ∧
    out e' = out (env (items_start category e)) ++ flat_map render attempts ++
             match fetched attempts with
             | [] => []
             | _ :: _ => [LogNewFound item (length (fetched attempts))]
             end ∧
    cache' = list_to_set (Item.ID <$> loaded_items category e) ∪
             list_to_set (fetched attempts).*1 ∧
    cache' = list_to_set (Item.ID <$> items') ∧
    items' ≡ₚ loaded_items category e ++ (fetched attempts).*2 ∧
    match fetched attempts with
    | [] => files e' = files e ∧ items' = loaded_items category e
    | _ :: _ =>
        items_json (dir category e') = Parsed items' ∧
        StronglySorted (λ a b, Item.ID a < Item.ID b) items'
    end ∧
    NoDup (Item.ID <$> loaded_items category e').
Proof.
  intros Hhonest Hnd Hrun.
  destruct (updateItemsCache_returns category e _ _ Hrun)
    as (info & st' & l & Hinfo & Hg & _ & _ & Hp).
  assert (cache (items_start category e)
          = ids_of Item.ID (records (items_start category e))) as H0 by done.
  pose proof (grows_ids item Item.ID Hhonest _ _ _ Hg H0) as Hids.
  pose proof (grows_NoDup item Item.ID Hhonest _ _ _ Hg H0 Hnd) as Hnd'.
  destruct Hg as [Hok Hr Hc Hout Hf Hn]. simpl in Hok, Hr, Hc.
  change (Json item) with Item.t in *.
  rewrite ids_of_list_to_set in Hok, Hc.
  rewrite cache_after_union in Hc. rewrite ids_of_list_to_set in Hids.
  exists l. split; [done|]. unfold persisted in Hp.
  destruct (fetched l) as [|x rest] eqn:Hfetched.
  - injection Hp as <- <- <-. simpl in Hr. rewrite app_nil_r in Hr.
    rewrite !app_nil_r. split; [done|]. split; [done|]. split; [done|].
    split; [by rewrite Hr|].
    assert (files (env st') = files e) as Hfe
      by (etrans; [exact Hf | apply loadCache_env]).
    split; [by split|]. by rewrite (loaded_items_files category e (env st')).
  - injection Hp as <- <- <-. split.
    { simpl. by rewrite Hout, <- app_assoc. }
    split; [done|]. split.
    { rewrite Hids. apply list_to_set_perm_L.
      by rewrite (sort_by_Permutation Item.ID (records st')). }
    split; [by rewrite sort_by_Permutation, Hr|].
    pose proof (sort_by_strict Item.ID (records st') Hnd') as Hsorted.
    split; [split; [apply items_json_write_items | done]|].
    rewrite (loaded_items_Parsed category _ _
               (items_json_write_items category _ _)).
    by apply strictly_sorted_NoDup.
Qed.

(** C5, at the example directory "potions". *)
Lemma persisted_items_strictly_sorted_witness :
  ∃ attempts : list (Attempt item),
    attempts_ok (Remote0 := serving [item200] []) item
      (list_to_set (Item.ID <$> loaded_items "potions" potions_before))
      attempts ∧
    out potions_after =
      out (env (items_start "potions" potions_before)) ++
      flat_map render attempts ++
      match fetched attempts with
      | [] => []
      | _ :: _ => [LogNewFound item (length (fetched attempts))]
      end ∧
    ({[100; 200; 300]} : gset Z) =
      list_to_set (Item.ID <$> loaded_items "potions" potions_before) ∪
      list_to_set (fetched attempts).*1 ∧
    ({[100; 200; 300]} : gset Z) =
      list_to_set (Item.ID <$> [item100; item200; item300]) ∧
    [item100; item200; item300] ≡ₚ
      loaded_items "potions" potions_before ++ (fetched attempts).*2 ∧
    match fetched attempts with
    | [] => files potions_after = files potions_before ∧
            [item100; item200; item300] = loaded_items "potions" potions_before
    | _ :: _ =>
        items_json (dir "potions" potions_after) =
          Parsed [item100; item200; item300] ∧
        StronglySorted (λ a b, Item.ID a < Item.ID b)
          [item100; item200; item300]
    end ∧
    NoDup (Item.ID <$> loaded_items "potions" potions_after).
Proof.
  apply (@persisted_items_strictly_sorted unit (serving [item200] [])
           "potions" potions_before [item100; item200; item300]
           {[100; 200; 300]} potions_after).
  - apply serving_honest_items.
  - apply (bool_decide_unpack _). by vm_compute.
  - by vm_compute.
Defined.

Section UpdateFacts.
Context {World : Type} `{!Remote World}.

(** The two ways an update ends. *)
Lemma persisted_cases (type : Kind) (key : Json type → Z) write
    (st0 st' : @Run World (Json type)) l res e' :
  grows type st0 st' l →
  persisted type key write st' l = Return res e' →
  (res.2 = cache st0 ∧ fetched l = [] ∧ res.1 = records st0 ∧ e' = env st')
  ∨
  (res.2 ≠ cache st0 ∧ fetched l ≠ [] ∧
   res.1 = sort_by key (records st0 ++ (fetched l).*2) ∧
   e' = write res.1
          (log (LogNewFound type (length (fetched l))) (env st'))).
Proof.
  intros [Hok Hr Hc _ _ _]. unfold persisted.
  pose proof (attempts_ok_size type _ _ Hok) as Hsz. rewrite <- Hc in Hsz.
  pose proof (cache_after_union type (cache st0) l) as Hu.
  destruct (fetched l) as [|x rest]; intros [= <- <-]; simpl.
  - left. rewrite Hr, Hc, Hu. simpl. rewrite app_nil_r.
    repeat split. set_solver.
  - right. rewrite Hr. repeat split; [|done].
    intros Heq. rewrite Heq in Hsz. simpl in Hsz. lia.
Qed.

Lemma updateSpellsCache_returns fuel category items (e : @Env World)
    res e' :
  updateSpellsCache fuel category items e = Return res e' →
  ∃ st' l,
    grows spell (spells_start category e) st' l ∧
    (∀ it sp, it ∈ items → sp ∈ Item.Spells it →
              SpellID sp ∈ cache st' ∨ SpellID sp ∈ failed l) ∧
    persisted spell Spell.ID (write_spells category) st' l = Return res e'.
Proof.
  intros Hrun.
  destruct (updateSpellsCache_spec fuel category items e)
    as [Hout|(st' & l & Hg & Hset & Heq)]; [congruence|].
  exists st', l. by rewrite <- Heq.
Qed.

Lemma updateSpellsCache_never_throws fuel category items (e : @Env World)
    error e' :
  updateSpellsCache fuel category items e ≠ Throw error e'.
Proof.
  destruct (updateSpellsCache_spec fuel category items e)
    as [->|(st' & l & _ & _ & ->)]; [done|].
  unfold persisted. by destruct (fetched l).
Qed.

Lemma spells_json_write_spells category spells (e : @Env World) :
  spells_json (dir category (write_spells category spells e)) =
  Parsed spells.
Proof. unfold dir, write_spells. simpl. by rewrite lookup_insert_eq. Qed.

Lemma failed_printed {type : Kind} id (l : list (Attempt type)) :
  id ∈ failed l →
  ∃ msg, LogFailedFetching type id msg ∈ flat_map render l.
Proof.
  intros [error Hin]%elem_of_failed. exists (message_of error).
  apply list_elem_of_In, in_flat_map. exists (id, inl error).
  split; [by apply list_elem_of_In|]. simpl. auto.
Qed.

Lemma attempts_ok_answers type cache (l : list (Attempt type)) :
  attempts_ok type cache l →
  ∀ a, a ∈ l → ∃ w w', wowdb_get type a.1 w = (a.2, w').
Proof.
  revert cache. induction l as [|a l IH]; intros cache;
    [by intros _ ? ?%elem_of_nil|].
  intros (_ & Ha & Hok) b [->|Hb]%elem_of_cons; [done|]. by eapply IH.
Qed.

(** An id that the service never answers with a record is not among the
    ids fetched. *)
Lemma unavailable_not_fetched type cache (l : list (Attempt type)) id :
  (∀ w, ∃ error w', wowdb_get type id w = (inl error, w')) →
  attempts_ok type cache l → id ∉ (fetched l).*1.
Proof.
  intros Hun Hok Hin.
  apply list_elem_of_fmap in Hin as ([id' r] & -> & Hin).
  apply list_elem_of_omap in Hin as ([id2 [e2|r2]] & Hin2 & Heq); [done|].
  simpl in Heq. injection Heq as -> ->.
  destruct (attempts_ok_answers _ _ _ Hok _ Hin2) as (w & w' & Hget).
  destruct (Hun w) as (error & w2 & Hfail). simpl in *.
  rewrite Hfail in Hget. by injection Hget.
Qed.

End UpdateFacts.

Example updateSpellsCache_elixirs :
  @updateSpellsCache unit wowdb_example 3 "elixirs" [item100; item200]
    elixirs_before =
  Return ([spell10; spell20; spell21], {[10; 20; 21]}) elixirs_after.
Proof. by vm_compute. Qed.

(** C9.  The updates only add.  The collection that [updateItemsCache]
    returns is, up to its order, the loaded collection followed by new
    records, so every loaded record is in it, and the returned id-set
    contains the id of every loaded record; the same holds of
    [updateSpellsCache]; and a call of [cacheRelatedSpells] leaves the
    array [spells] as it was, followed by new records, and the set [cache]
    with at least the ids it had. *)
Theorem cache_updates_only_append {World : Type} `{!Remote World} :
  (∀ category (e : @Env World) items' cache' e',
     updateItemsCache category e = Return (items', cache') e' →
     (∃ new, items' ≡ₚ loaded_items category e ++ new) ∧
     (∀ r, r ∈ loaded_items category e → r ∈ items') ∧
     (∀ r, r ∈ loaded_items category e → Item.ID r ∈ cache')) ∧
  (∀ fuel category items (e : @Env World) spells' cache' e',
     updateSpellsCache fuel category items e = Return (spells', cache') e' →
     (∃ new, spells' ≡ₚ loaded_spells category e ++ new) ∧
     (∀ r, r ∈ loaded_spells category e → r ∈ spells') ∧
     (∀ r, r ∈ loaded_spells category e → Spell.ID r ∈ cache')) ∧
  (∀ fuel spellID (st st' : @Run World Spell.t),
     cacheRelatedSpells fuel spellID st = Return tt st' →
     (∃ new, records st' = records st ++ new) ∧ cache st ⊆ cache st').
Proof.
  assert (∀ (type : Kind) (key : Json type → Z) write
            (st0 st' : @Run World (Json type)) l res e',
            cache st0 = ids_of key (records st0) →
            grows type st0 st' l →
            persisted type key write st' l = Return res e' →
            (∃ new, res.1 ≡ₚ records st0 ++ new) ∧
            (∀ r, r ∈ records st0 → r ∈ res.1) ∧
            (∀ r, r ∈ records st0 → key r ∈ res.2)) as Hgen.
  { intros type key write st0 st' l res e' H0 Hg Hp.
    assert (res.2 = cache st') as Hc
      by (unfold persisted in Hp; destruct (fetched l);
          by injection Hp as <- _).
    pose proof (grows_subseteq type _ _ _ Hg) as Hsub.
    assert (∃ new, res.1 ≡ₚ records st0 ++ new) as [new Hnew].
    { destruct (persisted_cases type key write _ _ _ _ _ Hg Hp)
        as [(_ & _ & -> & _)|(_ & _ & -> & _)].
      - exists []. by rewrite app_nil_r.
      - eexists. apply sort_by_Permutation. }
    split; [by exists new|]. split.
    - intros r Hr. rewrite Hnew. apply elem_of_app. by left.
    - intros r Hr. rewrite Hc. apply Hsub. rewrite H0, ids_of_list_to_set.
      apply elem_of_list_to_set. by apply list_elem_of_fmap_2. }
  split; [|split].
  - intros category e items' cache' e' Hrun.
    destruct (updateItemsCache_returns category e _ _ Hrun)
      as (info & st' & l & _ & Hg & _ & _ & Hp).
    by apply (Hgen item Item.ID (write_items category)
                (items_start category e) st' l (items', cache') e').
  - intros fuel category items e spells' cache' e' Hrun.
    destruct (updateSpellsCache_returns fuel category items e _ _ Hrun)
      as (st' & l & Hg & _ & Hp).
    by apply (Hgen spell Spell.ID (write_spells category)
                (spells_start category e) st' l (spells', cache') e').
  - intros fuel spellID st st' Hrun.
    pose proof (cacheRelatedSpells_grows fuel spellID st) as Hg.
    rewrite Hrun in Hg. destruct Hg as (l & Hg & _). split.
    + eexists. apply (grows_records spell _ _ _ Hg).
    + apply (grows_subseteq spell _ _ _ Hg).
Qed.

(** C9, at the two example directories and at a call on spell 20. *)
Lemma cache_updates_only_append_witness :
  ((∃ new, [item100; item200; item300] ≡ₚ
           loaded_items "potions" potions_before ++ new) ∧
   (∀ r, r ∈ loaded_items "potions" potions_before →
         r ∈ [item100; item200; item300]) ∧
   (∀ r, r ∈ loaded_items "potions" potions_before →
         Item.ID r ∈ ({[100; 200; 300]} : gset Z))) ∧
  ((∃ new, [spell10; spell20; spell21] ≡ₚ
           loaded_spells "elixirs" elixirs_before ++ new) ∧
   (∀ r, r ∈ loaded_spells "elixirs" elixirs_before →
         r ∈ [spell10; spell20; spell21]) ∧
   (∀ r, r ∈ loaded_spells "elixirs" elixirs_before →
         Spell.ID r ∈ ({[10; 20; 21]} : gset Z))) ∧
  ((∃ new, records (mkRun [spell10; spell20; spell21] {[10; 20; 21]}
                      (mkEnv ∅ tt [LogFetching spell 20; LogFetching spell 21]
                         ∅))
           = records (mkRun [spell10] {[10]} (start ∅ tt)) ++ new) ∧
   cache (mkRun [spell10] {[10]} (start ∅ tt)) ⊆
   cache (mkRun [spell10; spell20; spell21] {[10; 20; 21]}
            (mkEnv ∅ tt [LogFetching spell 20; LogFetching spell 21] ∅))).
Proof.
  destruct (@cache_updates_only_append unit wowdb_example) as (H1 & H2 & H3).
  split; [|split].
  - apply (H1 "potions" potions_before _ _ potions_after). by vm_compute.
  - apply (H2 3%nat "elixirs" [item100; item200] elixirs_before _ _
             elixirs_after). by vm_compute.
  - apply (H3 3%nat 20). by vm_compute.
Defined.

(** ** C8: when the collection is sorted and saved *)

Section SaveIffGrown.
Context {World : Type} `{!Remote World}.

Lemma update_outcome_intro (type : Kind) (key : Json type → Z) write
    (st0 st' : @Run World (Json type)) l res e' (e0 : @Env World)
    file_before file_after :
  grows type st0 st' l →
  persisted type key write st' l = Return res e' →
  files (env st0) = files e0 →
  (∀ c, file_before = Parsed c → c = records st0) →
  (∀ e1, e' = write res.1 e1 → file_after = Parsed res.1) →
  (∀ rs e1, out (write rs e1) = out e1) →
  ∃ printed,
    out e' = out (env st0) ++ printed ∧
    update_outcome key (records st0) res.1 (cache st0) res.2
      file_before file_after (files e0) (files e') printed.
Proof.
  intros Hg Hp Hf0 Hbefore Hafter Hwout.
  destruct (persisted_cases type key write _ _ _ _ _ Hg Hp)
    as [(Hc & Hfe & Hr & He)|(Hc & Hfe & Hr & He)].
  - exists (flat_map render l). split.
    + rewrite He. apply (grows_out type _ _ _ Hg).
    + exists l. rewrite Hfe. rewrite app_nil_r. split; [done|].
      split; [done|]. split; [|done].
      rewrite He, <- Hf0. apply (grows_files type _ _ _ Hg).
  - exists (flat_map render l ++ [LogNewFound type (length (fetched l))]).
    split.
    + rewrite He, Hwout. simpl. rewrite (grows_out type _ _ _ Hg).
      by rewrite app_assoc.
    + exists l. destruct (fetched l) as [|x rest] eqn:Hfl; [done|].
      split; [done|]. split; [done|].
      split; [by eapply Hafter|]. split; [|done].
      rewrite (Hafter _ He). intros Heq. symmetry in Heq.
      apply Hbefore in Heq. apply (f_equal length) in Heq.
      rewrite Hr in Heq.
      rewrite (Permutation_length (sort_by_Permutation key _)) in Heq.
      rewrite length_app in Heq. simpl in Heq. lia.
Qed.

(** C8.  For the item cache and for the spell cache alike: an update that
    returns made a sequence of attempts, printed on the console, and
    either none succeeded, and then the id-set is the loaded one, no file
    has changed and the collection is returned in its loaded order; or
    one did, and then the id-set has changed, the collection returned is
    the sorted one, and the file holds it and differs from what it held
    before. *)
Theorem save_iff_id_set_grew :
  (∀ category (e : @Env World) items' cache' e',
     updateItemsCache category e = Return (items', cache') e' →
     ∃ printed,
       out e' = out (env (items_start category e)) ++ printed ∧
       update_outcome (type := item) Item.ID
         (loaded_items category e) items'
         (ids_of Item.ID (loaded_items category e)) cache'
         (items_json (dir category e)) (items_json (dir category e'))
         (files e) (files e') printed) ∧
  (∀ fuel category items (e : @Env World) spells' cache' e',
     updateSpellsCache fuel category items e = Return (spells', cache') e' →
     ∃ printed,
       out e' = out (env (spells_start category e)) ++ printed ∧
       update_outcome (type := spell) Spell.ID
         (loaded_spells category e) spells'
         (ids_of Spell.ID (loaded_spells category e)) cache'
         (spells_json (dir category e)) (spells_json (dir category e'))
         (files e) (files e') printed).
Proof.
  split.
  - intros category e items' cache' e' Hrun.
    destruct (updateItemsCache_returns category e _ _ Hrun)
      as (info & st' & l & _ & Hg & _ & _ & Hp).
    apply (update_outcome_intro item Item.ID (write_items category)
             (items_start category e) st' l (items', cache') e' e); auto.
    + apply loadCache_env.
    + unfold items_start, loaded_items. simpl.
      intros c ->. done.
    + intros e1 ->. apply items_json_write_items.
  - intros fuel category items e spells' cache' e' Hrun.
    destruct (updateSpellsCache_returns fuel category items e _ _ Hrun)
      as (st' & l & Hg & _ & Hp).
    apply (update_outcome_intro spell Spell.ID (write_spells category)
             (spells_start category e) st' l (spells', cache') e' e); auto.
    + apply loadCache_env.
    + unfold spells_start, loaded_spells. simpl.
      intros c ->. done.
    + intros e1 ->. apply spells_json_write_spells.
Qed.

End SaveIffGrown.

(** C8, at the two example directories. *)
Lemma save_iff_id_set_grew_witness :
  (∃ printed,
     out potions_after =
       out (env (items_start "potions" potions_before)) ++ printed ∧
     update_outcome (type := item) Item.ID
       (loaded_items "potions" potions_before) [item100; item200; item300]
       (ids_of Item.ID (loaded_items "potions" potions_before))
       {[100; 200; 300]}
       (items_json (dir "potions" potions_before))
       (items_json (dir "potions" potions_after))
       (files potions_before) (files potions_after) printed) ∧
  (∃ printed,
     out elixirs_after =
       out (env (spells_start "elixirs" elixirs_before)) ++ printed ∧
     update_outcome (type := spell) Spell.ID
       (loaded_spells "elixirs" elixirs_before) [spell10; spell20; spell21]
       (ids_of Spell.ID (loaded_spells "elixirs" elixirs_before))
       {[10; 20; 21]}
       (spells_json (dir "elixirs" elixirs_before))
       (spells_json (dir "elixirs" elixirs_after))
       (files elixirs_before) (files elixirs_after) printed).
Proof.
  destruct (@save_iff_id_set_grew unit wowdb_example) as (H1 & H2).
  split.
  - apply (H1 "potions" potions_before _ _ potions_after). by vm_compute.
  - apply (H2 3%nat "elixirs" [item100; item200] elixirs_before _ _
             elixirs_after). by vm_compute.
Defined.

(** ** C6: a failed fetch *)

Section FetchFailure.
Context {World : Type} `{!Remote World}.

Lemma persisted_result (type : Kind) (key : Json type → Z) write
    (st0 st' : @Run World (Json type)) l res e' :
  grows type st0 st' l →
  persisted type key write st' l = Return res e' →
  (∀ rs e1, out (write rs e1) = out e1) →
  res.2 = cache st' ∧ res.1 ≡ₚ records st' ∧
  ∃ post, out e' = out (env st0) ++ flat_map render l ++ post.
Proof.
  intros Hg Hp Hw. unfold persisted in Hp.
  pose proof (grows_out type _ _ _ Hg) as Hout.
  destruct (fetched l); injection Hp as <- <-; simpl.
  - split; [done|]. split; [done|]. exists []. by rewrite app_nil_r.
  - split; [done|]. split; [apply sort_by_Permutation|].
    eexists. rewrite Hw. simpl. by rewrite Hout, <- app_assoc.
Qed.

Lemma failed_in_out (type : Kind) (l : list (Attempt type)) id
    (pre post : list LogEvent) :
  id ∈ failed l →
  ∃ msg, LogFailedFetching type id msg ∈ pre ++ flat_map render l ++ post.
Proof.
  intros [msg Hin]%failed_printed. exists msg.
  apply elem_of_app. right. apply elem_of_app. by left.
Qed.

(** An id the service never answers with a record, and that was not
    loaded: it is not in the set after the update; nor in the collection,
    when the service answers with the record asked for. *)
Lemma unavailable_stays_absent (type : Kind) (key : Json type → Z) write
    (st0 st' : @Run World (Json type)) l res e' id :
  cache st0 = ids_of key (records st0) →
  grows type st0 st' l →
  persisted type key write st' l = Return res e' →
  (∀ w, ∃ error w', wowdb_get type id w = (inl error, w')) →
  id ∉ key <$> records st0 →
  (id ∉ res.2) ∧
  ((∀ j w r w', wowdb_get type j w = (inr r, w') → key r = j) →
   id ∉ key <$> res.1).
Proof.
  intros H0 Hg Hp Hun Hid.
  assert (res.2 = cache st' ∧ res.1 ≡ₚ records st') as [Hc Hperm].
  { unfold persisted in Hp. destruct (fetched l); injection Hp as <- <-;
      simpl; split; try done. apply sort_by_Permutation. }
  assert (id ∉ cache st') as Hout.
  { rewrite (grows_cache type _ _ _ Hg), cache_after_union.
    pose proof (unavailable_not_fetched type _ l id Hun
                  (grows_ok type _ _ _ Hg)) as Hnf.
    rewrite H0, ids_of_list_to_set. set_solver. }
  split; [by rewrite Hc|].
  intros Hhonest Hin. apply Hout.
  rewrite (grows_ids type key Hhonest _ _ _ Hg H0), ids_of_list_to_set.
  apply elem_of_list_to_set. by rewrite <- Hperm.
Qed.

(** The attempts of an update account for what it returns and prints. *)
Lemma update_attempts_account (type : Kind) (key : Json type → Z) write
    (st0 st' : @Run World (Json type)) l res e' :
  cache st0 = ids_of key (records st0) →
  grows type st0 st' l →
  persisted type key write st' l = Return res e' →
  (∀ rs e1, out (write rs e1) = out e1) →
  attempts_account type key (records st0) res.1 res.2 (out (env st0))
    (out e') l.
Proof.
  intros H0 Hg Hp Hw.
  destruct (persisted_result type key write st0 st' l res e' Hg Hp Hw)
    as (Hc & Hperm & post & Hout).
  split; [rewrite <- H0; apply (grows_ok type _ _ _ Hg)|].
  split; [by exists post|]. split; [|split].
  - intros id Hid. rewrite Hout. by apply failed_in_out.
  - intros id. rewrite Hc, (grows_cache type _ _ _ Hg), cache_after_union.
    rewrite H0, ids_of_list_to_set. set_solver.
  - by rewrite Hperm, (grows_records type _ _ _ Hg).
Qed.


End FetchFailure.



(** Scenario E of the specification: item 999 is listed, not cached, and
    its fetch fails; the update returns, without it. *)
Example scenario_E :
  ∃ e',
    @updateItemsCache unit wowdb_example "potions" potions_before =
      Return ([item100; item200; item300], {[100; 200; 300]}) e' ∧
    LogFailedFetching item 999 "Request failed with status code 404" ∈ out e'.
Proof.
  exists potions_after. split; [by vm_compute|].
  simpl. do 3 apply list_elem_of_further. apply list_elem_of_here.
Qed.

(** ** C7: the expansion of the spell graph *)

Lemma no_failure_all_fetched {type : Kind} (l : list (Attempt type)) :
  failed l = [] → l.*1 = (fetched l).*1.
Proof.
  induction l as [|[id [error|r]] l IH]; [done|done|].
  intros Hl. change (id :: l.*1 = id :: (fetched l).*1). by rewrite IH.
Qed.

(** C7 (counterexample).  The service knows spell 50 only.  Expanding from
    50 ends, but the id 51 is fetched twice in the one run: its first fetch
    fails, so it is not added to the set, and the second reference fetches
    it again. *)
Lemma failed_spell_is_fetched_again :
  @cacheRelatedSpells unit (serving [] [spell50]) 2 50
    (mkRun [] ∅ (start ∅ tt)) =
  Return tt
    (mkRun [spell50] {[50]}
       (mkEnv ∅ tt
          [ LogFetching spell 50;
            LogFetching spell 51;
            LogFailedFetching spell 51 "Request failed with status code 404";
            LogFetching spell 51;
            LogFailedFetching spell 51 "Request failed with status code 404" ]
          ∅)).
Proof. by vm_compute. Qed.

(** C7 (amended).  Let the service know finitely many spells (the ids it
    answers with a record are in the finite set [U]) and let the fuel
    exceed the number of those not yet in the set.  A call of
    [cacheRelatedSpells] returns, and returns the same with any more fuel.
    Its requests are a sequence of attempts printed on the console in which
    every id asked for is outside the set as it stands at that request (the
    id of a fetched spell is in the set while its effects are followed): no
    id of the set is fetched, no id is fetched successfully twice, and only
    an id whose fetch failed can be fetched again, so that when no fetch
    fails every id is fetched at most once.  The set ends as the initial
    one with the ids fetched successfully, the array with their records
    appended; a call on an id of the set makes no request. *)
Theorem expansion_terminates_fetching_once {World : Type} `{!Remote World}
    (U : gset Z) (fuel : nat) (spellID : Z) (st : @Run World Spell.t) :
  (∀ id w r w', wowdb_get spell id w = (inr r, w') → id ∈ U) →
  (size (U ∖ cache st) < fuel)%nat →
  ∃ st' (attempts : list (Attempt spell)),
    (∀ fuel', (fuel ≤ fuel')%nat →
              cacheRelatedSpells fuel' spellID st = Return tt st') ∧
    out (env st') = out (env st) ++ flat_map render attempts ∧
    attempts_ok spell (cache st) attempts ∧
    NoDup (fetched attempts).*1 ∧
    (failed attempts = [] → NoDup attempts.*1) ∧
    (∀ a, a ∈ attempts → a.1 ∉ cache st) ∧
    cache st' = cache st ∪ list_to_set (fetched attempts).*1 ∧
    records st' = records st ++ (fetched attempts).*2 ∧
    (spellID ∈ cache st → attempts = [] ∧ st' = st).
Proof.
  intros Hfin Hfuel.
  pose proof (cacheRelatedSpells_enough_fuel U Hfin fuel spellID st Hfuel)
    as Hne.
  assert (∀ st', cacheRelatedSpells fuel spellID st = Return tt st' →
            ∀ fuel', (fuel ≤ fuel')%nat →
                     cacheRelatedSpells fuel' spellID st = Return tt st')
    as Hmore.
  { intros st' Hrun fuel' Hle. rewrite <- Hrun.
    by apply cacheRelatedSpells_more_fuel. }
  destruct (decide (spellID ∈ cache st)) as [Hin|Hout].
  - exists st, []. destruct fuel as [|fuel]; [lia|].
    split.
    { apply Hmore. simpl. by rewrite decide_True. }
    simpl. rewrite app_nil_r. split; [done|]. split; [done|].
    split; [constructor|]. split; [intros _; constructor|].
    split; [by intros a ?%elem_of_nil|].
    split; [set_solver|]. by rewrite app_nil_r.
  - pose proof (cacheRelatedSpells_grows fuel spellID st) as Hg.
    destruct (cacheRelatedSpells fuel spellID st) as [[] st'|error st'|]
      eqn:Hrun; [|done|done].
    destruct Hg as (l & [Hok Hr Hc Ho _ _] & _).
    change (Json spell) with Spell.t in *.
    destruct (attempts_ok_fresh spell _ _ Hok) as [Hnd Hfresh].
    exists st', l. split; [by apply Hmore|].
    split; [done|]. split; [done|]. split; [done|].
    split; [intros Hnf;
            exact (eq_ind_r NoDup Hnd (no_failure_all_fetched l Hnf))|].
    split; [done|].
    split; [by rewrite Hc, cache_after_union|]. split; [done|].
    intros Hin. done.
Qed.

(** C7 (amended), at spell 50 and a service that knows it alone. *)
Lemma expansion_terminates_fetching_once_witness :
  ∃ st' (attempts : list (Attempt spell)),
    (∀ fuel', (2 ≤ fuel')%nat →
              @cacheRelatedSpells unit (serving [] [spell50]) fuel' 50
                (mkRun [] ∅ (start ∅ tt)) = Return tt st') ∧
    out (env st') = out (env (mkRun ([] : list Spell.t) ∅ (start ∅ tt)))
                    ++ flat_map render attempts ∧
    attempts_ok (Remote0 := serving [] [spell50]) spell
      (cache (mkRun ([] : list Spell.t) ∅ (start ∅ tt))) attempts ∧
    NoDup (fetched attempts).*1 ∧
    (failed attempts = [] → NoDup attempts.*1) ∧
    (∀ a, a ∈ attempts →
          a.1 ∉ cache (mkRun ([] : list Spell.t) ∅ (start ∅ tt))) ∧
    cache st' = cache (mkRun ([] : list Spell.t) ∅ (start ∅ tt))
                ∪ list_to_set (fetched attempts).*1 ∧
    records st' = records (mkRun ([] : list Spell.t) ∅ (start ∅ tt))
                  ++ (fetched attempts).*2 ∧
    (50 ∈ cache (mkRun ([] : list Spell.t) ∅ (start ∅ tt)) →
     attempts = [] ∧ st' = mkRun [] ∅ (start ∅ tt)).
Proof.
  apply (@expansion_terminates_fetching_once unit (serving [] [spell50])
           (list_to_set (Spell.ID <$> [spell50])) 2 50
           (mkRun [] ∅ (start ∅ tt))).
  - apply serving_finite.
  - vm_compute. lia.
Defined.

(** With a service whose first request times out, the id 60, granted twice
    by one item, is fetched a second time in the same run, and is then in
    the set. *)
Example failed_fetch_is_retried_within_the_run :
  @cache_item_spells nat (flaky 1 [] [Spell.mk 60 "Thorns" []]) 2
    (Item.mk 600 "Briar Ring" [mkSpellRef 60; mkSpellRef 60])
    (mkRun [] ∅ (start ∅ 0%nat)) =
  Return tt
    (mkRun [Spell.mk 60 "Thorns" []] {[60]}
       (mkEnv ∅ 2%nat
          [ LogFetching spell 60; LogFailedFetching spell 60 "timeout";
            LogFetching spell 60 ] ∅)).
Proof. by vm_compute. Qed.

(** The whole of [updateSpellsCache] ends too on a finite graph: with fuel
    above the number of spells the service knows, it returns, and returns
    the same with any more fuel. *)
Lemma updateSpellsCache_terminates {World : Type} `{!Remote World}
    (U : gset Z) (fuel : nat) category items (e : @Env World) :
  (∀ id w r w', wowdb_get spell id w = (inr r, w') → id ∈ U) →
  (size U < fuel)%nat →
  ∃ spells' cache' e',
    ∀ fuel', (fuel ≤ fuel')%nat →
      updateSpellsCache fuel' category items e = Return (spells', cache') e'.
Proof.
  intros Hfin Hfuel.
  assert (updateSpellsCache fuel category items e ≠ OutOfFuel) as Hne.
  { unfold updateSpellsCache.
    destruct (loadCache category spell _ e) as [spells e1].
    pose proof (cache_items_spells_enough_fuel U Hfin fuel items
                  (mkRun spells (ids_of Spell.ID spells) e1)) as Hloop.
    lapply Hloop.
    - intros Hl.
      destruct (for_of (cache_item_spells fuel) items _) as [[] st|error st|];
        [|done|done].
      unfold persist_if_grown. by case_decide.
    - pose proof (subseteq_size (U ∖ ids_of Spell.ID spells) U) as Hsub.
      simpl. lapply Hsub; [lia | set_solver]. }
  destruct (updateSpellsCache fuel category items e)
    as [[spells' cache'] e'|error e'|] eqn:Hrun; [| |done].
  - exists spells', cache', e'. intros fuel' Hle. rewrite <- Hrun.
    apply updateSpellsCache_more_fuel; [done|]. by rewrite Hrun.
  - by apply updateSpellsCache_never_throws in Hrun.
Qed.

(** * Further properties of the engine *)

(** ** [getData]: the first record with the id *)

(** X1.  [getData(id, store)] returns a record exactly when it is the first
    record of the store whose [ID] is [id], and returns [undefined] exactly
    when no record of the store has that id (so always, on an empty store). *)
Theorem getData_first_match (id : Z) (store : list Spell.t) :
  (∀ data, getData id store = Some data ↔
     ∃ pre post, store = pre ++ data :: post ∧ Spell.ID data = id ∧
                 ∀ d, d ∈ pre → Spell.ID d ≠ id) ∧
  (getData id store = None ↔ ∀ d, d ∈ store → Spell.ID d ≠ id).
Proof.
  split.
  - induction store as [|d0 store IH]; intros data; simpl.
    + split; [done|]. intros (pre & post & Heq & _). by destruct pre.
    + case_decide as Hd.
      * split.
        -- intros [= Heq]. subst data. exists [], store.
           split; [done|]. split; [done|].
           intros d Hin. by apply elem_of_nil in Hin.
        -- intros (pre & post & Heq & Hid & Hpre). destruct pre as [|p pre].
           ++ by simplify_eq/=.
           ++ simplify_eq/=. exfalso.
              by apply (Hpre p); [apply list_elem_of_here|].
      * rewrite IH. split.
        -- intros (pre & post & -> & Hid & Hpre). exists (d0 :: pre), post.
           split; [done|]. split; [done|].
           intros d [->|Hin]%elem_of_cons; [done | by apply Hpre].
        -- intros (pre & post & Heq & Hid & Hpre). destruct pre as [|p pre].
           ++ by simplify_eq/=.
           ++ simplify_eq/=. exists pre, post.
              split; [done|]. split; [done|].
              intros d Hin. apply Hpre. by apply list_elem_of_further.
  - rewrite getData_None. rewrite list_elem_of_fmap. split.
    + intros Hno d Hin Hid. apply Hno. by exists d.
    + intros Hno (d & Hid & Hin). by apply (Hno d).
Qed.

(** ** What a resolution returns *)

(** X2.  When a top-level call [getAurasForItem(root, spells)] returns, the
    ids it looked up are exactly the spells reachable from [root] through
    [AffectedSpell] references, and the returned mapping holds exactly, for
    each reachable spell whose record has an effect with [Aura] and a name
    outside the exclusion set, the name of that record. *)
Theorem resolution_is_the_reachable_auras (spells : list Spell.t) (root : Z)
    (out : list LogEvent) (v : Returned) (st' : Resolution) :
  getAurasForItem root spells out = Return v st' →
  (∀ x, x ∈ lookedup st' ↔ reachable spells root x) ∧
  (∀ x name, auras st' !! x = Some name ↔
     reachable spells root x ∧ getData x spells ≫= aura_entry = Some name).
Proof.
  intros Hrun.
  assert (∀ x, x ∈ lookedup st' ↔ reachable spells root x) as Hlook.
  { intros x. split.
    - apply (top_level_reach spells root out). by rewrite Hrun.
    - by apply (top_level_reaches spells root out v). }
  split; [done|].
  destruct (top_level_returns spells root out v st' Hrun)
    as (_ & _ & _ & _ & Hauras & _).
  intros x name. rewrite Hauras. case_decide as Hx.
  - rewrite Hlook in Hx. naive_solver.
  - rewrite Hlook in Hx. naive_solver.
Qed.

(** X2, at spell 20, which references spell 21. *)
Lemma resolution_is_the_reachable_auras_witness :
  (∀ x, x ∈ lookedup (mkResolution {[21 := "Regen"]} {[20; 21]} [] [21; 20]) ↔
        reachable [spell20; spell21] 20 x) ∧
  (∀ x name,
     auras (mkResolution {[21 := "Regen"]} {[20; 21]} [] [21; 20]) !! x
       = Some name ↔
     reachable [spell20; spell21] 20 x ∧
     getData x [spell20; spell21] ≫= aura_entry = Some name).
Proof.
  apply (resolution_is_the_reachable_auras [spell20; spell21] 20 [] RetAuras).
  by vm_compute.
Defined.

(** X3.  A top-level call returns exactly when every spell reachable from
    its root has a record in the collection; otherwise it throws the
    [TypeError] of [spellData.Effects].  It never returns [undefined]: the
    [return;] of the guard is taken by recursive calls only. *)
Theorem resolution_returns_iff_closed (spells : list Spell.t) (root : Z)
    (out : list LogEvent) :
  ((∃ st', getAurasForItem root spells out = Return RetAuras st') ↔
   ∀ x, reachable spells root x → is_Some (getData x spells)) ∧
  ((∃ st', getAurasForItem root spells out = Throw undefined_Effects st') ↔
   ∃ x, reachable spells root x ∧ getData x spells = None) ∧
  ∀ st', getAurasForItem root spells out ≠ Return RetUndefined st'.
Proof.
  pose proof (top_level_returns_iff spells root out) as Hiff.
  split; [|split].
  - rewrite <- Hiff. split.
    + intros [st' ->]. done.
    + intros Hret.
      destruct (getAurasForItem root spells out) as [v st'|e st'|] eqn:Hrun;
        [|done|done].
      destruct (top_level_returns spells root out v st' Hrun) as [-> _].
      by exists st'.
  - split.
    + intros [st' Hrun].
      pose proof (getAurasForItem_rec_spec spells (S (length spells)) root
                    (fresh_resolution out)) as Hspec.
      unfold getAurasForItem in Hrun. rewrite Hrun in Hspec.
      destruct Hspec as [(_ & _ & (missing & Hnone & Hin & _)) _].
      exists missing. split; [|done].
      apply (top_level_reach spells root out st'); [|done].
      unfold getAurasForItem. by rewrite Hrun.
    + intros (x & Hx & Hnone).
      by apply (missing_reference_throws spells root out x).
  - intros st' Hrun.
    by destruct (top_level_returns spells root out _ st' Hrun) as [? _].
Qed.

(** ** A category whose listing cannot be read *)

Lemma for_of_app {S A : Type} (body : A → S → Completion S unit)
    (l1 l2 : list A) (s : S) :
  for_of body (l1 ++ l2) s =
  match for_of body l1 s with
  | Return _ s' => for_of body l2 s'
  | Throw e s' => Throw e s'
  | OutOfFuel => OutOfFuel
  end.
Proof.
  revert s. induction l1 as [|x l1 IH]; intros s; simpl; [done|].
  by destruct (body x s).
Qed.

(** X4.  [updateItemsCache] reads the listing [<category>.json] outside any
    [try]: when the file is missing or does not parse, the call throws
    before any request is made, and so does the processing of the category;
    no file is written and the service is not contacted (the only trace is
    the line [Reusing cache], when [items.json] could be read). *)
Theorem unreadable_listing_ends_the_category {World : Type} `{!Remote World}
    (fuel : nat) (category : string) (e : @Env World) :
  (∀ info, category_json (dir category e) ≠ Parsed info) →
  ∃ error e',
    updateItemsCache category e = Throw error e' ∧
    prepareCategory fuel category e = Throw error e' ∧
    files e' = files e ∧ world e' = world e ∧ itemNames e' = itemNames e ∧
    (out e' = out e ∨ out e' = out e ++ [LogReusingCache category item]).
Proof.
  intros Hno. unfold prepareCategory, updateItemsCache.
  pose proof (dir_loadCache category item category
                (items_json (dir category e)) e) as Hdir.
  destruct (loadCache category item (items_json (dir category e)) e)
    as [items e1] eqn:Hload.
  simpl in Hdir. rewrite Hdir.
  assert (files e1 = files e ∧ world e1 = world e ∧
          itemNames e1 = itemNames e ∧
          (out e1 = out e ∨ out e1 = out e ++ [LogReusingCache category item]))
    as Hsame.
  { destruct (items_json (dir category e)); simplify_eq/=; auto. }
  destruct (category_json (dir category e)) as [| |info] eqn:Hlist.
  - by eexists _, e1.
  - by eexists _, e1.
  - by destruct (Hno info).
Qed.

(** X4, at a directory without any file. *)
Lemma unreadable_listing_ends_the_category_witness :
  ∃ error e',
    @updateItemsCache unit offline "flasks" (start ∅ tt) = Throw error e' ∧
    @prepareCategory unit offline 1 "flasks" (start ∅ tt) = Throw error e' ∧
    files e' = files (start ∅ tt) ∧ world e' = world (start ∅ tt) ∧
    itemNames e' = itemNames (start ∅ tt) ∧
    (out e' = out (start ∅ tt) ∨
     out e' = out (start ∅ tt) ++ [LogReusingCache "flasks" item]).
Proof.
  apply (@unreadable_listing_ends_the_category unit offline 1 "flasks"
           (start ∅ tt)).
  intros info. by vm_compute.
Defined.

(** X5.  The [try] of [prepareItemAndSpellData] is around the loop over the
    categories: when the processing of one category throws, the error is
    printed and the function returns [undefined], whatever categories
    follow; they are not processed, the state is the one the failing
    category left. *)
Theorem category_failure_ends_the_run {World : Type} `{!Remote World}
    (fuel : nat) (pre post : list string) (c : string) (e e1 e2 : @Env World)
    (store : gmap string (gmap Z (gmap Z string))) (error : Exception) :
  prepareItemAndSpellData fuel pre e = Return (Some store) e1 →
  prepareCategory fuel c e1 = Throw error e2 →
  prepareItemAndSpellData fuel (pre ++ c :: post) e =
    Return None (log (LogError error) e2).
Proof.
  unfold prepareItemAndSpellData. intros Hpre Hc.
  rewrite for_of_app.
  match goal with
  | |- context [for_of ?b pre ?s] => destruct (for_of b pre s) as [[] st|err st|]
  end; simplify_eq/=.
  by rewrite Hc.
Qed.

(** X5, at two categories of which the first has no listing. *)
Lemma category_failure_ends_the_run_witness :
  @prepareItemAndSpellData unit offline 1 ([] ++ "bandages" :: ["elixirs"])
    (start {[ "elixirs" := cached [item100] [spell10] [100] ]} tt) =
  Return None
    (log (LogError (Error "ENOENT: no such file or directory"))
       (start {[ "elixirs" := cached [item100] [spell10] [100] ]} tt)).
Proof.
  apply (@category_failure_ends_the_run unit offline 1 [] ["elixirs"]
           "bandages"
           (start {[ "elixirs" := cached [item100] [spell10] [100] ]} tt)
           (start {[ "elixirs" := cached [item100] [spell10] [100] ]} tt)
           (start {[ "elixirs" := cached [item100] [spell10] [100] ]} tt) ∅);
    by vm_compute.
Defined.

(** ** A warm cache *)

Section Warm.
Context {World : Type} `{!Remote World}.

Lemma fetch_items_cached info (st : @Run World Item.t) :
  (∀ id, id ∈ info → id ∈ cache st) →
  for_of fetch_item info st = Return tt st.
Proof.
  induction info as [|id info IH]; intros Hin; simpl; [done|].
  unfold fetch_item at 1. rewrite decide_True; [|apply Hin; set_solver].
  apply IH. intros id' Hid'. apply Hin. set_solver.
Qed.

Lemma cache_spells_cached fuel refs (st : @Run World Spell.t) :
  (0 < fuel)%nat →
  (∀ sp, sp ∈ refs → SpellID sp ∈ cache st) →
  for_of (λ sp, cacheRelatedSpells fuel (SpellID sp)) refs st = Return tt st.
Proof.
  intros Hfuel. induction refs as [|sp refs IH]; intros Hin; simpl; [done|].
  destruct fuel as [|fuel]; [lia|]. simpl.
  rewrite decide_True; [|apply Hin; set_solver].
  apply IH. intros sp' Hsp'. apply Hin. set_solver.
Qed.

Lemma cache_items_cached fuel items (st : @Run World Spell.t) :
  (0 < fuel)%nat →
  (∀ it sp, it ∈ items → sp ∈ Item.Spells it → SpellID sp ∈ cache st) →
  for_of (cache_item_spells fuel) items st = Return tt st.
Proof.
  intros Hfuel. induction items as [|it items IH]; intros Hin; simpl; [done|].
  unfold cache_item_spells at 1.
  rewrite cache_spells_cached; [|done|].
  - apply IH. intros it' sp Hit Hsp. apply (Hin it'); [set_solver|done].
  - intros sp Hsp. apply (Hin it); [set_solver|done].
Qed.

Lemma elem_of_ids_of {A : Type} (key : A → Z) (l : list A) id :
  id ∈ ids_of key l ↔ id ∈ key <$> l.
Proof. rewrite ids_of_list_to_set. set_solver. Qed.

Lemma updateItemsCache_warm category (e : @Env World) info :
  category_json (dir category e) = Parsed info →
  (∀ id, id ∈ info → id ∈ Item.ID <$> loaded_items category e) →
  updateItemsCache category e =
    Return (loaded_items category e, ids_of Item.ID (loaded_items category e))
      (loadCache category item (items_json (dir category e)) e).2.
Proof.
  intros Hlist Hin. unfold updateItemsCache, loaded_items in *.
  pose proof (dir_loadCache category item category
                (items_json (dir category e)) e) as Hdir.
  destruct (loadCache category item (items_json (dir category e)) e)
    as [items e1] eqn:Hload.
  simpl in *. rewrite Hdir, Hlist.
  rewrite fetch_items_cached.
  - unfold persist_if_grown. simpl. by rewrite decide_False by (intros Hne; by apply Hne).
  - intros id Hid. simpl. apply elem_of_ids_of. by apply Hin.
Qed.

Lemma updateSpellsCache_warm fuel category items (e : @Env World) :
  (0 < fuel)%nat →
  (∀ it sp, it ∈ items → sp ∈ Item.Spells it →
     SpellID sp ∈ Spell.ID <$> loaded_spells category e) →
  updateSpellsCache fuel category items e =
    Return (loaded_spells category e,
            ids_of Spell.ID (loaded_spells category e))
      (loadCache category spell (spells_json (dir category e)) e).2.
Proof.
  intros Hfuel Hin. unfold updateSpellsCache, loaded_spells in *.
  destruct (loadCache category spell (spells_json (dir category e)) e)
    as [spells e1] eqn:Hload.
  simpl in *. rewrite cache_items_cached; [|done|].
  - unfold persist_if_grown. simpl. by rewrite decide_False by (intros Hne; by apply Hne).
  - intros it sp Hit Hsp. simpl. apply elem_of_ids_of. by apply (Hin it).
Qed.

End Warm.

(** X6.  When every id of the listing is already in [items.json],
    [updateItemsCache] makes no request and writes no file: it returns the
    loaded records in the order of the file, unsorted, and the set of their
    ids; the service is left as it was. *)
Theorem cached_items_need_no_request {World : Type} `{!Remote World}
    (category : string) (e : @Env World) (info : list Z) :
  category_json (dir category e) = Parsed info →
  (∀ id, id ∈ info → id ∈ Item.ID <$> loaded_items category e) →
  ∃ e',
    updateItemsCache category e =
      Return (loaded_items category e,
              ids_of Item.ID (loaded_items category e)) e' ∧
    files e' = files e ∧ world e' = world e ∧
    (∀ id, LogFetching item id ∈ out e' → LogFetching item id ∈ out e).
Proof.
  intros Hlist Hin. eexists. split; [by apply updateItemsCache_warm with info|].
  destruct (items_json (dir category e)); simpl; repeat split; try done;
    intros id [?|Hnew%list_elem_of_singleton]%elem_of_app; done.
Qed.

(** X6, at a directory whose two listed items are cached out of order. *)
Lemma cached_items_need_no_request_witness :
  ∃ e',
    @updateItemsCache unit offline "potions"
      (start {[ "potions" := cached [item300; item100] [] [100; 300; 100] ]} tt)
    = Return
        (loaded_items "potions"
           (start {[ "potions" := cached [item300; item100] [] [100; 300; 100] ]} tt),
         ids_of Item.ID
           (loaded_items "potions"
              (start {[ "potions" := cached [item300; item100] [] [100; 300; 100] ]} tt)))
        e' ∧
    files e' =
      files (start {[ "potions" := cached [item300; item100] [] [100; 300; 100] ]} tt) ∧
    world e' =
      world (start {[ "potions" := cached [item300; item100] [] [100; 300; 100] ]} tt) ∧
    (∀ id, LogFetching item id ∈ out e' →
           LogFetching item id ∈
             out (start {[ "potions" := cached [item300; item100] [] [100; 300; 100] ]} tt)).
Proof.
  apply (@cached_items_need_no_request unit offline "potions" _ [100; 300; 100]).
  - by vm_compute.
  - intros id Hid. vm_compute.
    repeat (apply elem_of_cons in Hid as [->|Hid]);
      [apply list_elem_of_further, list_elem_of_here | apply list_elem_of_here
      | apply list_elem_of_further, list_elem_of_here | by apply elem_of_nil in Hid].
Defined.

(** X7.  [cacheRelatedSpells] returns at its guard for a cached id without
    looking at the record: when the spells that the items grant are all in
    [spells.json], [updateSpellsCache] makes no request and writes nothing,
    whatever the cached records reference.  A spell that is referenced by a
    cached record and is not cached itself is therefore not fetched. *)
Theorem cached_spells_are_not_expanded {World : Type} `{!Remote World}
    (fuel : nat) (category : string) (items : list Item.t) (e : @Env World) :
  (0 < fuel)%nat →
  (∀ it sp, it ∈ items → sp ∈ Item.Spells it →
     SpellID sp ∈ Spell.ID <$> loaded_spells category e) →
  ∃ e',
    updateSpellsCache fuel category items e =
      Return (loaded_spells category e,
              ids_of Spell.ID (loaded_spells category e)) e' ∧
    files e' = files e ∧ world e' = world e ∧
    (∀ id, LogFetching spell id ∈ out e' → LogFetching spell id ∈ out e).
Proof.
  intros Hfuel Hin. eexists. split; [by apply updateSpellsCache_warm|].
  destruct (spells_json (dir category e)); simpl; repeat split; try done;
    intros id [?|Hnew%list_elem_of_singleton]%elem_of_app; done.
Qed.

(** X7, at a cache that holds spell 20 and not the spell 21 it references,
    with a service that would serve 21. *)
Lemma cached_spells_are_not_expanded_witness :
  ∃ e',
    @updateSpellsCache unit wowdb_example 1 "bandages" [item200]
      (start {[ "bandages" := cached [item200] [spell20] [200] ]} tt)
    = Return
        (loaded_spells "bandages"
           (start {[ "bandages" := cached [item200] [spell20] [200] ]} tt),
         ids_of Spell.ID
           (loaded_spells "bandages"
              (start {[ "bandages" := cached [item200] [spell20] [200] ]} tt)))
        e' ∧
    files e' = files (start {[ "bandages" := cached [item200] [spell20] [200] ]} tt) ∧
    world e' = world (start {[ "bandages" := cached [item200] [spell20] [200] ]} tt) ∧
    (∀ id, LogFetching spell id ∈ out e' →
           LogFetching spell id ∈
             out (start {[ "bandages" := cached [item200] [spell20] [200] ]} tt)).
Proof.
  apply (@cached_spells_are_not_expanded unit wowdb_example 1 "bandages"
           [item200]); [lia|].
  intros it sp ->%list_elem_of_singleton ->%list_elem_of_singleton.
  vm_compute. apply list_elem_of_here.
Defined.

(** ** A reference without a record stays without one *)

(** A loop one of whose bodies throws [error] in every state, and whose
    bodies throw nothing else, throws [error]; [P] relates the states along
    the way. *)
Lemma for_of_throws {S A : Type} (body : A → S → Completion S unit)
    (P : S → S → Prop) (error : Exception) (l : list A) (x : A) :
  (∀ s, P s s) → (∀ s1 s2 s3, P s1 s2 → P s2 s3 → P s1 s3) →
  (∀ y s, match body y s with
          | Return _ s' => P s s'
          | Throw e s' => e = error ∧ P s s'
          | OutOfFuel => False
          end) →
  x ∈ l → (∀ s, ∃ s', body x s = Throw error s') →
  ∀ s, ∃ s', for_of body l s = Throw error s' ∧ P s s'.
Proof.
  intros Hrefl Htrans Hbody Hin Hx.
  induction l as [|y l IH]; intros s; [by apply elem_of_nil in Hin|].
  simpl. pose proof (Hbody y s) as Hy.
  destruct (body y s) as [[] s1|e s1|] eqn:Hrun; [| |done].
  - apply elem_of_cons in Hin as [->|Hin].
    + destruct (Hx s) as [s' Hs']. congruence.
    + destruct (IH Hin s1) as (s' & Hs' & HP). exists s'. split; [done|].
      by apply Htrans with s1.
  - destruct Hy as [-> HP]. by exists s1.
Qed.

Section Dangling.
Context {World : Type}.

Lemma resolve_spell_outcome spells it sp (ag : @Aggregate World) :
  match resolve_spell spells it sp ag with
  | Return _ ag' => same_outside ag ag'
  | Throw e ag' => e = undefined_Effects ∧ same_outside ag ag'
  | OutOfFuel => False
  end.
Proof.
  unfold resolve_spell.
  destruct (getAurasForItem (SpellID sp) spells (out (agg_env ag)))
    as [v r|e r|] eqn:Hrun.
  - destruct (top_level_returns spells _ _ v r Hrun) as [-> _].
    by case_decide.
  - by destruct (top_level_throws spells _ _ e r Hrun) as [-> _].
  - by apply getAurasForItem_total in Hrun.
Qed.

Lemma resolve_item_outcome spells it (ag : @Aggregate World) :
  match resolve_item spells it ag with
  | Return _ ag' => same_outside ag ag'
  | Throw e ag' => e = undefined_Effects ∧ same_outside ag ag'
  | OutOfFuel => False
  end.
Proof.
  unfold resolve_item.
  match goal with |- context [for_of _ _ ?s] => set (ag1 := s) end.
  assert (same_outside ag ag1) as H1 by done.
  pose proof (for_of_inv (resolve_spell spells it)
    (λ _ s, same_outside ag s)
    (λ e s, e = undefined_Effects ∧ same_outside ag s)
    (Item.Spells it) ag1 H1) as Hloop.
  lapply Hloop.
  - intros Hl.
    assert (for_of (resolve_spell spells it) (Item.Spells it) ag1 ≠ OutOfFuel)
      as Hfuel.
    { apply (for_of_fuel _ (λ _, True)); [done|]. intros sp s _ _.
      pose proof (resolve_spell_outcome spells it sp s).
      by destruct (resolve_spell spells it sp s). }
    by destruct (for_of _ (Item.Spells it) ag1).
  - intros pre sp post s _ [Hf Hw].
    pose proof (resolve_spell_outcome spells it sp s) as Hs.
    unfold same_outside in *.
    destruct (resolve_spell spells it sp s); [| |done].
    + destruct Hs. split; congruence.
    + destruct Hs as [-> []]. split; [done|]. split; congruence.
Qed.

Lemma resolve_item_throws spells it sp x :
  sp ∈ Item.Spells it →
  reachable spells (SpellID sp) x → getData x spells = None →
  ∀ ag : @Aggregate World,
    ∃ ag', resolve_item spells it ag = Throw undefined_Effects ag'.
Proof.
  intros Hsp Hreach Hnone ag. unfold resolve_item.
  match goal with |- context [for_of _ _ ?s] => set (ag1 := s) end.
  destruct (for_of_throws (resolve_spell spells it) (@same_outside World)
              undefined_Effects (Item.Spells it) sp) with (s := ag1)
    as (ag' & Hrun & _); [done| | |done| |by exists ag'].
  - unfold same_outside. intros s1 s2 s3 [] []. split; congruence.
  - apply resolve_spell_outcome.
  - intros s. unfold resolve_spell.
    destruct (missing_reference_throws spells (SpellID sp) (out (agg_env s))
                x Hreach Hnone) as [r ->].
    by eexists.
Qed.

Lemma resolve_items_throw spells items it sp x :
  it ∈ items → sp ∈ Item.Spells it →
  reachable spells (SpellID sp) x → getData x spells = None →
  ∀ ag : @Aggregate World,
    ∃ ag', for_of (resolve_item spells) items ag = Throw undefined_Effects ag' ∧
           same_outside ag ag'.
Proof.
  intros Hit Hsp Hreach Hnone.
  apply (for_of_throws (resolve_item spells) (@same_outside World)
           undefined_Effects
           items it); [done| | |done|].
  - unfold same_outside. intros s1 s2 s3 [] []. split; congruence.
  - apply resolve_item_outcome.
  - by apply resolve_item_throws with sp x.
Qed.

End Dangling.

(** X8.  A reference to a spell that has no record is never repaired once
    its source is cached.  Let every listed item and every spell that the
    cached items grant be in the cache, and let a granted spell lead to an
    id without a record.  Then, whatever the service would answer, the
    processing of the category makes no request, throws the [TypeError] of
    [spellData.Effects], and writes no file. *)
Theorem dangling_reference_is_never_repaired {World : Type} `{!Remote World}
    (fuel : nat) (category : string) (e : @Env World) (info : list Z)
    (it : Item.t) (sp : SpellRef) (x : Z) :
  (0 < fuel)%nat →
  category_json (dir category e) = Parsed info →
  (∀ id, id ∈ info → id ∈ Item.ID <$> loaded_items category e) →
  (∀ it sp, it ∈ loaded_items category e → sp ∈ Item.Spells it →
     SpellID sp ∈ Spell.ID <$> loaded_spells category e) →
  it ∈ loaded_items category e → sp ∈ Item.Spells it →
  reachable (loaded_spells category e) (SpellID sp) x →
  getData x (loaded_spells category e) = None →
  ∃ e',
    prepareCategory fuel category e = Throw undefined_Effects e' ∧
    files e' = files e ∧ world e' = world e.
Proof.
  intros Hfuel Hlist Hitems Hspells Hit Hsp Hreach Hnone.
  unfold prepareCategory.
  rewrite (updateItemsCache_warm category e info Hlist Hitems).
  set (e1 := (loadCache category item (items_json (dir category e)) e).2).
  destruct (loadCache_env category item (items_json (dir category e)) e)
    as (Hf1 & Hw1 & _). fold e1 in Hf1, Hw1.
  assert (loaded_spells category e1 = loaded_spells category e) as Hsame.
  { unfold loaded_spells, dir. rewrite Hf1.
    by destruct (spells_json _). }
  rewrite (updateSpellsCache_warm fuel category (loaded_items category e) e1);
    [|done|by rewrite Hsame].
  rewrite Hsame.
  set (e2 := (loadCache category spell (spells_json (dir category e1)) e1).2).
  destruct (loadCache_env category spell (spells_json (dir category e1)) e1)
    as (Hf2 & Hw2 & _). fold e2 in Hf2, Hw2.
  destruct (resolve_items_throw (loaded_spells category e)
              (loaded_items category e) it sp x Hit Hsp Hreach Hnone
              (mkAggregate (ids_of Item.ID (loaded_items category e)) ∅ e2))
    as (ag' & -> & Hf3 & Hw3).
  exists (agg_env ag'). simpl in *. split; [done|]. split; congruence.
Qed.

(** X8, at the cache of item 200, which grants spell 20, whose effect
    references the uncached spell 21, with a service that knows 21. *)
Lemma dangling_reference_is_never_repaired_witness :
  ∃ e',
    @prepareCategory unit wowdb_example 1 "bandages"
      (start {[ "bandages" := cached [item200] [spell20] [200] ]} tt)
    = Throw undefined_Effects e' ∧
    files e' = files (start {[ "bandages" := cached [item200] [spell20] [200] ]} tt) ∧
    world e' = world (start {[ "bandages" := cached [item200] [spell20] [200] ]} tt).
Proof.
  apply (@dangling_reference_is_never_repaired unit wowdb_example 1 "bandages"
           _ [200] item200 (mkSpellRef 20) 21).
  - lia.
  - by vm_compute.
  - intros id ->%list_elem_of_singleton. vm_compute. apply list_elem_of_here.
  - intros it sp Hit Hsp. vm_compute in Hit.
    apply list_elem_of_singleton in Hit as ->.
    apply list_elem_of_singleton in Hsp as ->.
    vm_compute. apply list_elem_of_here.
  - vm_compute. apply list_elem_of_here.
  - apply list_elem_of_here.
  - apply rtc_once. exists spell20, (mkEffect false (Some 21)).
    split; [by vm_compute|]. split; [apply list_elem_of_here | by vm_compute].
  - by vm_compute.
Defined.

(** ** What the item loop records *)

Section Recorded.
Context {World : Type}.

(** One granted spell: the invariant of the loop over [item.Spells]. *)
Lemma resolve_spell_step spells it sp known (ag ag' : @Aggregate World) :
  resolve_spell spells it sp ag = Return tt ag' →
  itemsCache ag = known ∖ dom (categoryData ag) →
  itemsCache ag' = known ∖ dom (categoryData ag') ∧
  (∀ i m, categoryData ag' !! i = Some m →
     categoryData ag !! i = Some m ∨
     (i = Item.ID it ∧ m ≠ ∅ ∧ m = auras_of (SpellID sp) spells)) ∧
  itemNames (agg_env ag') = itemNames (agg_env ag).
Proof.
  intros Hrun Hinv.
  destruct (resolve_spell_returns spells it sp ag ag' Hrun)
    as (_ & Hcd & Hic & _ & _ & Hnames).
  rewrite Hcd, Hic. unfold record_entry. case_decide as Hsize.
  - split; [|split; [|done]].
    + rewrite dom_insert_L, Hinv. set_solver.
    + intros i m. rewrite lookup_insert. case_decide as Hi.
      * intros [= <-]. right. split; [done|]. split; [|done].
        by apply map_size_non_empty_iff.
      * by left.
  - split; [done|]. split; [|done]. intros i m ?. by left.
Qed.

Lemma resolve_item_step spells it known (ag ag' : @Aggregate World) :
  resolve_item spells it ag = Return tt ag' →
  itemsCache ag = known ∖ dom (categoryData ag) →
  itemsCache ag' = known ∖ dom (categoryData ag') ∧
  (∀ i m, categoryData ag' !! i = Some m →
     categoryData ag !! i = Some m ∨
     (i = Item.ID it ∧ m ≠ ∅ ∧
      ∃ sp, sp ∈ Item.Spells it ∧ m = auras_of (SpellID sp) spells)) ∧
  itemNames (agg_env ag') =
    <[Item.ID it := Item.Name it]> (itemNames (agg_env ag)).
Proof.
  unfold resolve_item. intros Hrun Hinv.
  match type of Hrun with for_of _ _ ?s = _ => set (ag1 := s) in * end.
  pose proof (for_of_inv (resolve_spell spells it)
    (λ pre s,
       itemsCache s = known ∖ dom (categoryData s) ∧
       (∀ i m, categoryData s !! i = Some m →
          categoryData ag !! i = Some m ∨
          (i = Item.ID it ∧ m ≠ ∅ ∧
           ∃ sp, sp ∈ Item.Spells it ∧ m = auras_of (SpellID sp) spells)) ∧
       itemNames (agg_env s) =
         <[Item.ID it := Item.Name it]> (itemNames (agg_env ag)))
    (λ _ _, True) (Item.Spells it) ag1) as Hloop.
  rewrite Hrun in Hloop. apply Hloop; clear Hloop.
  - split; [done|]. split; [|done]. intros i m ?. by left.
  - intros pre sp post s Heq (Hs1 & Hs2 & Hs3).
    destruct (resolve_spell spells it sp s) as [[] s'|e s'|] eqn:Hsp;
      [|done|done].
    destruct (resolve_spell_step spells it sp known s s' Hsp Hs1)
      as (Hs1' & Hs2' & Hs3').
    split; [done|]. split; [|congruence].
    intros i m Him. destruct (Hs2' i m Him) as [Hold|(-> & Hne & ->)].
    + by apply Hs2.
    + right. split; [done|]. split; [done|]. exists sp. split; [|done].
      rewrite Heq. set_solver.
Qed.

Lemma resolve_items_returns spells items known (e : @Env World)
    (ag' : @Aggregate World) :
  for_of (resolve_item spells) items (mkAggregate known ∅ e) = Return tt ag' →
  itemsCache ag' = known ∖ dom (categoryData ag') ∧
  (∀ i m, categoryData ag' !! i = Some m →
     m ≠ ∅ ∧
     ∃ it sp, it ∈ items ∧ Item.ID it = i ∧ sp ∈ Item.Spells it ∧
              m = auras_of (SpellID sp) spells) ∧
  itemNames (agg_env ag') =
    foldl (λ names it, <[Item.ID it := Item.Name it]> names) (itemNames e)
      items.
Proof.
  intros Hrun.
  pose proof (for_of_inv (resolve_item spells)
    (λ pre s,
       itemsCache s = known ∖ dom (categoryData s) ∧
       (∀ i m, categoryData s !! i = Some m →
          m ≠ ∅ ∧
          ∃ it sp, it ∈ pre ∧ Item.ID it = i ∧ sp ∈ Item.Spells it ∧
                   m = auras_of (SpellID sp) spells) ∧
       itemNames (agg_env s) =
         foldl (λ names it, <[Item.ID it := Item.Name it]> names)
           (itemNames e) pre)
    (λ _ _, True) items (mkAggregate known ∅ e)) as Hloop.
  rewrite Hrun in Hloop. apply Hloop; clear Hloop.
  - split; [simpl; set_solver|]. split; [|done].
    intros i m Him. simpl in Him. by rewrite lookup_empty in Him.
  - intros pre it post s Heq (Hs1 & Hs2 & Hs3).
    destruct (resolve_item spells it s) as [[] s'|err s'|] eqn:Hit;
      [|done|done].
    destruct (resolve_item_step spells it known s s' Hit Hs1)
      as (Hs1' & Hs2' & Hs3').
    split; [done|]. split.
    + intros i m Him.
      destruct (Hs2' i m Him) as [Hold|(-> & Hne & sp & Hsp & ->)].
      * destruct (Hs2 i m Hold) as (Hne & it0 & sp & Hit0 & ? & ? & ?).
        split; [done|]. exists it0, sp. set_solver.
      * split; [done|]. exists it, sp. set_solver.
    + rewrite foldl_app. simpl. by rewrite <- Hs3.
Qed.

End Recorded.

Lemma prepareCategory_returns {World : Type} `{!Remote World}
    (fuel : nat) (category : string) (e e' : @Env World)
    (cd : gmap Z (gmap Z string)) :
  prepareCategory fuel category e = Return cd e' →
  ∃ items known e1 spells cache_of_spells e2 ag,
    updateItemsCache category e = Return (items, known) e1 ∧
    updateSpellsCache fuel category items e1 =
      Return (spells, cache_of_spells) e2 ∧
    for_of (resolve_item spells) items (mkAggregate known ∅ e2) =
      Return tt ag ∧
    cd = categoryData ag ∧
    e' = write_output category cd
           (if decide (0 < size (itemsCache ag))%nat
            then log (LogNoAurasFound category (itemsCache ag)) (agg_env ag)
            else agg_env ag).
Proof.
  unfold prepareCategory. intros Hrun.
  destruct (updateItemsCache category e) as [[items known] e1|?|];
    [|done|done].
  destruct (updateSpellsCache fuel category items e1)
    as [[spells cache_of_spells] e2|?|] eqn:Hspells; [|done|done].
  destruct (for_of (resolve_item spells) items (mkAggregate known ∅ e2))
    as [[] ag|?|] eqn:Hloop; [|done|done].
  injection Hrun as <- <-.
  by exists items, known, e1, spells, cache_of_spells, e2, ag.
Qed.

(** X9.  When the processing of a category returns, [output.json] holds the
    category mapping that is returned.  No item is recorded with an empty
    mapping: every entry is the non-empty result of resolving one of the
    spells that an item of that id grants.  The ids of the item cache are
    split in two: those with an entry, and the others, which are exactly
    the ids that the warning [No auras found] lists, as the last message,
    when there are any. *)
Theorem items_without_auras_are_reported {World : Type} `{!Remote World}
    (fuel : nat) (category : string) (e e' : @Env World)
    (cd : gmap Z (gmap Z string)) :
  prepareCategory fuel category e = Return cd e' →
  ∃ items known e1 spells cache_of_spells e2,
    updateItemsCache category e = Return (items, known) e1 ∧
    updateSpellsCache fuel category items e1 =
      Return (spells, cache_of_spells) e2 ∧
    output_json (dir category e') = Parsed cd ∧
    (∀ i m, cd !! i = Some m →
       m ≠ ∅ ∧
       ∃ it sp, it ∈ items ∧ Item.ID it = i ∧ sp ∈ Item.Spells it ∧
                m = auras_of (SpellID sp) spells) ∧
    (known ∖ dom cd ≠ ∅ →
       last (out e') = Some (LogNoAurasFound category (known ∖ dom cd))).
Proof.
  intros Hrun.
  destruct (prepareCategory_returns fuel category e e' cd Hrun)
    as (items & known & e1 & spells & cache_of_spells & e2 & ag &
        Hitems & Hspells & Hloop & -> & ->).
  destruct (resolve_items_returns spells items known e2 ag Hloop)
    as (Hic & Hentries & _).
  exists items, known, e1, spells, cache_of_spells, e2.
  split; [done|]. split; [done|]. split; [|split; [done|]].
  - unfold write_output, dir. simpl. by rewrite lookup_insert_eq.
  - rewrite <- Hic. intros Hne. rewrite decide_True.
    + simpl. by rewrite last_snoc.
    + enough (size (itemsCache ag) ≠ 0%nat) by lia.
      apply size_non_empty_iff. intros Heq. apply Hne.
      by apply leibniz_equiv.
Qed.

(** X9, at a directory with one item that has an aura and one that has
    none. *)
Lemma items_without_auras_are_reported_witness :
  ∃ items known e1 spells cache_of_spells e2,
    @updateItemsCache unit offline "trinkets" trinkets_before =
      Return (items, known) e1 ∧
    @updateSpellsCache unit offline 1 "trinkets" items e1 =
      Return (spells, cache_of_spells) e2 ∧
    output_json (dir "trinkets" trinkets_after) =
      Parsed {[ 100 := {[ 10 := "Haste Boost" ]} ]} ∧
    (∀ i m, ({[ 100 := {[ 10 := "Haste Boost" ]} ]}
               : gmap Z (gmap Z string)) !! i = Some m →
       m ≠ ∅ ∧
       ∃ it sp, it ∈ items ∧ Item.ID it = i ∧ sp ∈ Item.Spells it ∧
                m = auras_of (SpellID sp) spells) ∧
    (known ∖ dom ({[ 100 := {[ 10 := "Haste Boost" ]} ]}
                    : gmap Z (gmap Z string)) ≠ ∅ →
       last (out trinkets_after) =
         Some (LogNoAurasFound "trinkets"
                 (known ∖ dom ({[ 100 := {[ 10 := "Haste Boost" ]} ]}
                                 : gmap Z (gmap Z string))))).
Proof.
  apply (@items_without_auras_are_reported unit offline 1 "trinkets"
           trinkets_before trinkets_after).
  by vm_compute.
Defined.

(** ** The names of the items *)

Lemma foldl_names_other (names : gmap Z string) (items : list Item.t) i :
  i ∉ Item.ID <$> items →
  foldl (λ names it, <[Item.ID it := Item.Name it]> names) names items !! i
  = names !! i.
Proof.
  revert names. induction items as [|it items IH]; intros names Hi; [done|].
  simpl. rewrite IH by set_solver. apply lookup_insert_ne. set_solver.
Qed.

Lemma foldl_names_last (names : gmap Z string) (pre post : list Item.t) it :
  Item.ID it ∉ Item.ID <$> post →
  foldl (λ names it, <[Item.ID it := Item.Name it]> names) names
    (pre ++ it :: post) !! Item.ID it = Some (Item.Name it).
Proof.
  intros Hpost. rewrite foldl_app. simpl.
  rewrite foldl_names_other by done. apply lookup_insert_eq.
Qed.

Section Names.
Context {World : Type} `{!Remote World}.

Lemma persisted_names (type : Kind) (key : Json type → Z)
    (write : list (Json type) → @Env World → @Env World)
    (st' : @Run World (Json type)) l res e' :
  (∀ records e, itemNames (write records e) = itemNames e) →
  persisted type key write st' l = Return res e' →
  itemNames e' = itemNames (env st').
Proof.
  intros Hwrite. unfold persisted.
  destruct (fetched l); intros [= <- <-]; [done|]. by rewrite Hwrite.
Qed.

Lemma updateItemsCache_names category (e : @Env World) res e' :
  updateItemsCache category e = Return res e' → itemNames e' = itemNames e.
Proof.
  intros Hrun.
  destruct (updateItemsCache_returns category e res e' Hrun)
    as (info & st' & l & _ & Hg & _ & _ & Hp).
  rewrite (persisted_names item Item.ID (write_items category) st' l res e'
             (λ _ _, eq_refl) Hp).
  rewrite (grows_names _ _ _ _ Hg). unfold items_start. simpl.
  by destruct (items_json _).
Qed.

Lemma updateSpellsCache_names fuel category items (e : @Env World) res e' :
  updateSpellsCache fuel category items e = Return res e' →
  itemNames e' = itemNames e.
Proof.
  intros Hrun.
  destruct (updateSpellsCache_returns fuel category items e res e' Hrun)
    as (st' & l & Hg & _ & Hp).
  rewrite (persisted_names spell Spell.ID (write_spells category) st' l res e'
             (λ _ _, eq_refl) Hp).
  rewrite (grows_names _ _ _ _ Hg). unfold spells_start. simpl.
  by destruct (spells_json _).
Qed.

End Names.

(** X10.  When the processing of a category returns, the global object
    [itemNames] has been assigned the name of every item of the category
    under its id, in the order of the collection: an item's name is the one
    recorded for its id unless a later item of the collection has the same
    id, and the names recorded earlier for other ids are kept. *)
Theorem item_names_are_recorded {World : Type} `{!Remote World}
    (fuel : nat) (category : string) (e e' : @Env World)
    (cd : gmap Z (gmap Z string)) :
  prepareCategory fuel category e = Return cd e' →
  ∃ items known e1,
    updateItemsCache category e = Return (items, known) e1 ∧
    (∀ pre it post, items = pre ++ it :: post →
       Item.ID it ∉ Item.ID <$> post →
       itemNames e' !! Item.ID it = Some (Item.Name it)) ∧
    (∀ i, i ∉ Item.ID <$> items → itemNames e' !! i = itemNames e !! i).
Proof.
  intros Hrun.
  destruct (prepareCategory_returns fuel category e e' cd Hrun)
    as (items & known & e1 & spells & cache_of_spells & e2 & ag &
        Hitems & Hspells & Hloop & -> & ->).
  destruct (resolve_items_returns spells items known e2 ag Hloop)
    as (_ & _ & Hnames).
  assert (itemNames e2 = itemNames e) as He2.
  { rewrite (updateSpellsCache_names _ _ _ _ _ _ Hspells).
    apply (updateItemsCache_names _ _ _ _ Hitems). }
  assert (itemNames
            (write_output category (categoryData ag)
               (if decide (0 < size (itemsCache ag))%nat
                then log (LogNoAurasFound category (itemsCache ag)) (agg_env ag)
                else agg_env ag)) =
          foldl (λ names it, <[Item.ID it := Item.Name it]> names)
            (itemNames e) items) as ->.
  { rewrite <- He2, <- Hnames. by case_decide. }
  exists items, known, e1. split; [done|]. split.
  - intros pre it post -> Hpost. by apply foldl_names_last.
  - intros i Hi. by apply foldl_names_other.
Qed.

(** X10, at the directory of the items 100 and 400. *)
Lemma item_names_are_recorded_witness :
  ∃ items known e1,
    @updateItemsCache unit offline "trinkets" trinkets_before =
      Return (items, known) e1 ∧
    (∀ pre it post, items = pre ++ it :: post →
       Item.ID it ∉ Item.ID <$> post →
       itemNames trinkets_after !! Item.ID it = Some (Item.Name it)) ∧
    (∀ i, i ∉ Item.ID <$> items →
          itemNames trinkets_after !! i = itemNames trinkets_before !! i).
Proof.
  apply (@item_names_are_recorded unit offline 1 "trinkets" trinkets_before
           trinkets_after {[ 100 := {[ 10 := "Haste Boost" ]} ]}).
  by vm_compute.
Defined.

(** * Properties of the stages around the engine *)

(** ** Strings *)

Lemma strip_prefix_Some (p s r : list N) :
  strip_prefix p s = Some r ↔ s = p ++ r.
Proof.
  revert s. induction p as [|a p IH]; intros s; simpl.
  - split; [by intros [= ->] | by intros ->].
  - destruct s as [|b s]; [done|]. case_decide as Hab.
    + subst b. rewrite IH. split; [by intros -> | by intros [= ->]].
    + split; [done|]. intros [= -> _]. done.
Qed.

Lemma strip_prefix_app (p r : list N) : strip_prefix p (p ++ r) = Some r.
Proof. by apply strip_prefix_Some. Qed.

Lemma take_drop_while {A : Type} (p : A → bool) (l : list A) :
  take_while p l ++ drop_while p l = l.
Proof.
  induction l as [|x l IH]; simpl; [done|].
  destruct (p x); simpl; [by rewrite IH | done].
Qed.

Lemma take_while_Forall {A : Type} (p : A → bool) (l : list A) :
  Forall (λ x, p x = true) (take_while p l).
Proof.
  induction l as [|x l IH]; simpl; [constructor|].
  destruct (p x) eqn:Hx; by constructor.
Qed.

Lemma take_while_app {A : Type} (p : A → bool) (run rest : list A) :
  Forall (λ x, p x = true) run →
  take_while p (run ++ rest) = run ++ take_while p rest.
Proof.
  induction 1 as [|x run Hx _ IH]; simpl; [done|]. by rewrite Hx, IH.
Qed.

Lemma take_while_all {A : Type} (p : A → bool) (run : list A) :
  Forall (λ x, p x = true) run → take_while p run = run.
Proof.
  intros H. rewrite <- (app_nil_r run) at 1.
  rewrite take_while_app by done. simpl. apply app_nil_r.
Qed.

Lemma drop_while_head {A : Type} (p : A → bool) (x : A) (l : list A) :
  p x = false → drop_while p (x :: l) = x :: l.
Proof. intros Hx. simpl. by rewrite Hx. Qed.

(** ** Decimal spelling *)

Lemma is_digit_value c :
  is_digit c = true → digit_value 10 c = Some (Z.of_N c - 48) ∧
                      0 ≤ Z.of_N c - 48 < 10.
Proof.
  intros Hc. unfold digit_value. rewrite Hc. simpl.
  unfold is_digit in Hc. apply bool_decide_eq_true in Hc.
  rewrite decide_True by lia. split; [done | lia].
Qed.

Lemma leading_digits_run (run : list N) :
  Forall (λ c, is_digit c = true) run →
  leading_digits 10 run = (λ c, Z.of_N c - 48) <$> run.
Proof.
  induction 1 as [|c run Hc _ IH]; simpl; [done|].
  destruct (is_digit_value c Hc) as [-> _]. by rewrite IH.
Qed.

Lemma digit_not_white c : is_digit c = true → white c = false.
Proof.
  unfold is_digit, white, WhiteSpace, LineTerminator. intros Hc.
  apply bool_decide_eq_true in Hc.
  rewrite !orb_false_iff. repeat split; apply bool_decide_eq_false.
  - rewrite !elem_of_cons, elem_of_nil. lia.
  - lia.
  - rewrite !elem_of_cons, elem_of_nil. lia.
Qed.

(** [parseInt] of a run of digits is the number the run spells. *)
Lemma parseInt_run (run : list N) :
  run ≠ [] → Forall (λ c, is_digit c = true) run →
  parseInt run = Some (decimal run).
Proof.
  intros Hne Hrun. destruct run as [|c run]; [done|].
  unfold parseInt. apply Forall_cons in Hrun as [Hc Hrun].
  rewrite drop_while_head by by apply digit_not_white.
  assert (c ≠ 45 ∧ c ≠ 43)%N as [H45 H43].
  { unfold is_digit in Hc. apply bool_decide_eq_true in Hc. lia. }
  assert (match c :: run with
          | 45%N :: rest => (-1, rest)
          | 43%N :: rest => (1, rest)
          | _ => (1, c :: run)
          end = (1, c :: run)) as ->.
  { destruct c as [|p]; [done|].
    do 6 (destruct p as [p|p|]; try done). }
  assert (match c :: run with
          | 48%N :: 120%N :: rest => (16, rest)
          | 48%N :: 88%N :: rest => (16, rest)
          | _ => (10, c :: run)
          end = (10, c :: run)) as ->.
  { destruct run as [|d run].
    - destruct c as [|p]; [done|]. do 6 (destruct p as [p|p|]; try done).
    - apply Forall_cons in Hrun as [Hd _].
      assert (d ≠ 120 ∧ d ≠ 88)%N as [H120 H88].
      { unfold is_digit in Hd. apply bool_decide_eq_true in Hd. lia. }
      destruct c as [|p]; [done|].
      do 6 (destruct p as [p|p|]; try done).
      destruct d as [|q]; [done|].
      do 7 (destruct q as [q|q|]; try done). }
  rewrite leading_digits_run by by constructor.
  simpl. unfold decimal. simpl.
  by destruct (number_of 10 _).
Qed.

Lemma decimal_snoc (run : list N) (c : N) :
  decimal (run ++ [c]) = 10 * decimal run + (Z.of_N c - 48).
Proof. unfold decimal, number_of. by rewrite fmap_app, foldl_app. Qed.

Lemma decimal_singleton (c : N) : decimal [c] = Z.of_N c - 48.
Proof. unfold decimal, number_of. simpl. lia. Qed.

Lemma decimal_app (a b : list N) :
  decimal (a ++ b) = decimal a * 10 ^ Z.of_nat (length b) + decimal b.
Proof.
  induction b as [|c b IH] using rev_ind.
  - rewrite app_nil_r. change (decimal []) with 0. simpl. lia.
  - rewrite app_assoc, !decimal_snoc, IH, length_app. simpl.
    replace (Z.of_nat (length b + 1)) with (Z.of_nat (length b) + 1) by lia.
    rewrite Z.pow_add_r by lia. lia.
Qed.

Lemma decimal_bounds (run : list N) :
  Forall (λ c, is_digit c = true) run →
  0 ≤ decimal run < 10 ^ Z.of_nat (length run).
Proof.
  induction run as [|c run IH] using rev_ind; intros Hrun.
  - change (decimal []) with 0. simpl. lia.
  - apply Forall_app in Hrun as [Hrun Hc]. rewrite Forall_singleton in Hc.
    specialize (IH Hrun). rewrite decimal_snoc, length_app. simpl.
    replace (Z.of_nat (length run + 1)) with (Z.of_nat (length run) + 1) by lia.
    rewrite Z.pow_add_r by lia.
    destruct (is_digit_value c Hc) as [_ Hv]. lia.
Qed.

(** The digits of [n], the last one first: they are digits, they spell
    [n], and there are at most [k] of them exactly when [n < 10^k]. *)
Lemma rev_digits_spec (fuel : nat) : ∀ n,
  0 ≤ n < 2 ^ (Z.of_nat fuel + 1) →
  Forall (λ c, is_digit c = true) (rev_digits (S fuel) n) ∧
  rev_digits (S fuel) n ≠ [] ∧
  decimal (rev (rev_digits (S fuel) n)) = n ∧
  (∀ k, (1 ≤ k)%nat →
        (length (rev_digits (S fuel) n) ≤ k)%nat ↔ n < 10 ^ Z.of_nat k).
Proof.
  assert (∀ n, 0 ≤ n → is_digit (48 + Z.to_N (n mod 10)) = true ∧
                       Z.of_N (48 + Z.to_N (n mod 10)) - 48 = n mod 10)
    as Hlast.
  { intros n Hn. pose proof (Z.mod_pos_bound n 10 ltac:(lia)).
    split; [apply bool_decide_eq_true|]; lia. }
  induction fuel as [|fuel IH]; intros n Hn.
  - assert (n < 10) as Hlt by (simpl in Hn; lia).
    simpl. rewrite decide_True by done.
    destruct (Hlast n) as [Hd Hv]; [lia|].
    split; [by repeat constructor|]. split; [done|]. split.
    + simpl rev. simpl app. rewrite decimal_singleton, Hv, Z.mod_small; lia.
    + intros k Hk. simpl. split; [|lia]. intros _.
      apply Z.lt_le_trans with (10 ^ 1); [lia|].
      apply Z.pow_le_mono_r; lia.
  - change (rev_digits (S (S fuel)) n) with
      ((48 + Z.to_N (n mod 10))%N ::
       (if decide (n < 10) then [] else rev_digits (S fuel) (n / 10))).
    destruct (Hlast n) as [Hd Hv]; [lia|].
    case_decide as Hlt.
    + split; [by repeat constructor|]. split; [done|]. split.
      * simpl rev. simpl app. rewrite decimal_singleton, Hv, Z.mod_small; lia.
      * intros k Hk. simpl. split; [|lia]. intros _.
        apply Z.lt_le_trans with (10 ^ 1); [lia|].
        apply Z.pow_le_mono_r; lia.
    + assert (0 ≤ n / 10 < 2 ^ (Z.of_nat fuel + 1)) as Hdiv.
      { split; [apply Z.div_pos; lia|].
        apply Z.div_lt_upper_bound; [lia|].
        replace (Z.of_nat (S fuel) + 1) with ((Z.of_nat fuel + 1) + 1) in Hn
          by lia.
        rewrite Z.pow_add_r in Hn by lia. lia. }
      destruct (IH (n / 10) Hdiv) as (Hds & Hne & Hval & Hlen).
      split; [by constructor|]. split; [done|]. split.
      * cbn [rev]. rewrite decimal_snoc, Hval, Hv.
        pose proof (Z.div_mod n 10 ltac:(lia)). lia.
      * intros k Hk. cbn [length]. destruct k as [|k]; [lia|].
        destruct k as [|k].
        -- split; [|lia]. intros Hle.
           destruct (rev_digits (S fuel) (n / 10)); [done | simpl in Hle; lia].
        -- rewrite <- Nat.succ_le_mono, (Hlen (S k)) by lia.
           replace (Z.of_nat (S (S k))) with (Z.of_nat (S k) + 1) by lia.
           rewrite Z.pow_add_r by lia.
           pose proof (Z.div_mod n 10 ltac:(lia)).
           pose proof (Z.mod_pos_bound n 10 ltac:(lia)). lia.
Qed.

Lemma digits_spec (n : Z) :
  0 ≤ n →
  Forall (λ c, is_digit c = true) (digits n) ∧
  digits n ≠ [] ∧
  decimal (digits n) = n ∧
  (∀ k, (1 ≤ k)%nat → (length (digits n) ≤ k)%nat ↔ n < 10 ^ Z.of_nat k).
Proof.
  intros Hn. unfold digits.
  assert (0 ≤ n < 2 ^ (Z.of_nat (Z.to_nat (Z.log2 n)) + 1)) as Hfuel.
  { split; [done|]. rewrite Z2Nat.id by apply Z.log2_nonneg.
    destruct (decide (n = 0)) as [->|Hpos]; [done|].
    apply Z.log2_spec. lia. }
  destruct (rev_digits_spec _ n Hfuel) as (Hds & Hne & Hval & Hlen).
  split; [by apply Forall_rev|]. split.
  - intros Hnil. apply Hne. apply (f_equal (@rev N)) in Hnil.
    by rewrite rev_involutive in Hnil.
  - split; [done|]. intros k Hk. rewrite length_rev. by apply Hlen.
Qed.

Lemma drop_while_white_spaces (k : nat) (s : list N) :
  drop_while white (replicate k 32%N ++ s) = drop_while white s.
Proof. induction k as [|k IH]; [done|]. simpl. exact IH. Qed.

Lemma parseInt_spaces (k : nat) (s : list N) :
  parseInt (replicate k 32%N ++ s) = parseInt s.
Proof. unfold parseInt. by rewrite drop_while_white_spaces. Qed.

(** ** [updateLibItemBuffs]: the six characters of an id *)

Lemma pad6_drop (text : list N) :
  pad6 text = drop (length text) (replicate 6 32%N ++ text).
Proof.
  unfold pad6, slice_from. rewrite decide_True by lia.
  change (js "      ") with (replicate 6 32%N).
  unfold clamp. rewrite length_app, length_replicate. f_equal. lia.
Qed.

(** X11.  An id is printed as the last six characters of six blanks
    followed by its decimal spelling: always six characters, the id flush
    right below one million, and from one million on its last six digits
    alone, so that what is printed reads as the id modulo 10^6. *)
Theorem padded_id_reads_modulo_a_million (n : Z) :
  0 ≤ n →
  length (pad6 (to_string n)) = 6%nat ∧
  parseInt (pad6 (to_string n)) = Some (n mod 1000000) ∧
  (n < 1000000 →
   pad6 (to_string n) =
     replicate (6 - length (to_string n)) 32%N ++ to_string n) ∧
  (1000000 ≤ n →
   pad6 (to_string n) = drop (length (to_string n) - 6) (to_string n)).
Proof.
  intros Hn. unfold to_string. rewrite decide_False by lia.
  destruct (digits_spec n Hn) as (Hds & Hne & Hval & Hlen).
  rewrite pad6_drop. specialize (Hlen 6%nat ltac:(lia)).
  change (10 ^ Z.of_nat 6) with 1000000 in Hlen.
  assert (length (digits n) ≠ 0%nat) as Hpos.
  { intros H0. by apply nil_length_inv in H0. }
  destruct (decide (n < 1000000)) as [Hsmall|Hbig].
  - assert (length (digits n) ≤ 6)%nat as Hle by by apply Hlen.
    assert (drop (length (digits n)) (replicate 6 32%N ++ digits n) =
            replicate (6 - length (digits n)) 32%N ++ digits n) as ->.
    { rewrite drop_app_le by (rewrite length_replicate; lia).
      by rewrite drop_replicate. }
    split; [rewrite length_app, length_replicate; lia|]. split.
    + rewrite parseInt_spaces, parseInt_run by done.
      rewrite Hval, Z.mod_small; [done | lia].
    + split; [done | lia].
  - assert (6 < length (digits n))%nat as Hgt.
    { destruct (decide (length (digits n) ≤ 6)%nat) as [Hle|]; [|lia].
      apply Hlen in Hle. lia. }
    assert (drop (length (digits n)) (replicate 6 32%N ++ digits n) =
            drop (length (digits n) - 6) (digits n)) as ->.
    { rewrite drop_app_ge by (rewrite length_replicate; lia).
      by rewrite length_replicate. }
    set (k := (length (digits n) - 6)%nat).
    assert (length (drop k (digits n)) = 6%nat) as Hl6
      by (rewrite length_drop; lia).
    split; [done|]. split; [|split; [lia|done]].
    assert (Forall (λ c, is_digit c = true) (drop k (digits n))) as Hdrop
      by by apply Forall_drop.
    rewrite parseInt_run; [|by intros H0; rewrite H0 in Hl6|done].
    f_equal. pose proof (decimal_bounds _ Hdrop) as Hb. rewrite Hl6 in Hb.
    change (10 ^ Z.of_nat 6) with 1000000 in Hb.
    pose proof (decimal_app (take k (digits n)) (drop k (digits n))) as Happ.
    rewrite take_drop, Hval, Hl6 in Happ.
    change (10 ^ Z.of_nat 6) with 1000000 in Happ.
    apply Z.mod_unique_pos with (decimal (take k (digits n))); lia.
Qed.

(** X11, at the spell 1234567, which is printed as 234567. *)
Lemma padded_id_reads_modulo_a_million_witness :
  length (pad6 (to_string 1234567)) = 6%nat ∧
  parseInt (pad6 (to_string 1234567)) = Some (1234567 mod 1000000) ∧
  (1234567 < 1000000 →
   pad6 (to_string 1234567) =
     replicate (6 - length (to_string 1234567)) 32%N ++ to_string 1234567) ∧
  (1000000 ≤ 1234567 →
   pad6 (to_string 1234567) =
     drop (length (to_string 1234567) - 6) (to_string 1234567)).
Proof. apply (padded_id_reads_modulo_a_million 1234567). lia. Defined.

(** ** [prepareCategoryLists]: what is read from a page *)

Lemma match_ids_skip (k : nat) : ∀ s, match_ids k s = match_ids 0 (drop k s).
Proof.
  induction k as [|k IH]; intros s; [done|].
  destruct s as [|c s]; [done|]. simpl. apply IH.
Qed.

(** What a match of [/\"id\":\d+/] at the head of [s] looks like. *)
Lemma id_here_Some (s found : list N) :
  id_here s = Some found →
  ∃ run rest,
    s = id_key ++ run ++ rest ∧ found = id_key ++ run ∧ run ≠ [] ∧
    Forall (λ c, is_digit c = true) run ∧
    id_number s = Some (decimal run).
Proof.
  unfold id_here, id_number.
  destruct (strip_prefix id_key s) as [rest|] eqn:Hkey; [|done].
  apply strip_prefix_Some in Hkey as ->.
  pose proof (take_while_Forall is_digit rest) as Hrun.
  pose proof (take_drop_while is_digit rest) as Hrest.
  destruct (take_while is_digit rest) as [|d run] eqn:Htake; [done|].
  intros [= <-]. exists (d :: run), (drop_while is_digit rest).
  by rewrite Hrest.
Qed.

Lemma id_here_None (s : list N) : id_here s = None → id_number s = None.
Proof.
  unfold id_here, id_number.
  destruct (strip_prefix id_key s) as [rest|]; [|done].
  by destruct (take_while is_digit rest).
Qed.

Lemma id_here_not_quote (c : N) (s : list N) :
  c ≠ 34%N → id_here (c :: s) = None.
Proof.
  intros Hc. unfold id_here. simpl. by rewrite decide_False by done.
Qed.

(** No match starts inside another: a match holds one quote that is
    followed by [i], its first character. *)
Lemma id_here_inside (s found : list N) (k : nat) :
  id_here s = Some found → (1 ≤ k < length found)%nat →
  id_here (drop k s) = None.
Proof.
  intros Hs Hk.
  destruct (id_here_Some s found Hs) as (run & rest & -> & -> & _ & Hrun & _).
  rewrite length_app in Hk. change (length id_key) with 5%nat in Hk.
  destruct (decide (k < 5)%nat) as [Hkey|Hkey].
  - destruct k as [|[|[|[|[|k]]]]]; try lia; try done.
  - rewrite drop_app_ge by (change (length id_key) with 5%nat; lia).
    change (length id_key) with 5%nat.
    rewrite drop_app_le by lia.
    assert (k - 5 < length run)%nat as Hlt by lia.
    apply lookup_lt_is_Some in Hlt as [d Hd].
    rewrite (drop_S run d (k - 5) Hd). simpl.
    apply id_here_not_quote.
    rewrite Forall_lookup in Hrun. specialize (Hrun _ _ Hd).
    unfold is_digit in Hrun. apply bool_decide_eq_true in Hrun. lia.
Qed.

Lemma tails_drop {A : Type} (l : list A) (x : A) (rest : list A) (k : nat) :
  drop k l = x :: rest → tails (drop k l) = drop k l :: tails (drop (S k) l).
Proof.
  intros Hd. rewrite Hd. simpl. f_equal. f_equal.
  replace (S k) with (k + 1)%nat by lia. by rewrite <- drop_drop, Hd.
Qed.

Lemma omap_tails_skip {A B : Type} (f : list A → option B) (m : nat) :
  ∀ s, (∀ k, (k < m)%nat → f (drop k s) = None) →
       omap f (tails s) = omap f (tails (drop m s)).
Proof.
  induction m as [|m IH]; intros s Hnone; [done|].
  destruct s as [|c s]; [done|].
  pose proof (Hnone 0%nat ltac:(lia)) as H0. simpl in H0.
  assert (omap f (tails (c :: s)) =
          match f (c :: s) with
          | Some y => y :: omap f (tails s)
          | None => omap f (tails s)
          end) as -> by done.
  rewrite H0.
  simpl drop. apply IH. intros k Hk. apply (Hnone (S k)). lia.
Qed.

(** Resuming the search where a match ended loses no match: the matches
    found are those at all the positions of the text, from the left. *)
Lemma match_ids_tails (s : list N) : match_ids 0 s = omap id_here (tails s).
Proof.
  remember (length s) as n eqn:Hn. revert s Hn.
  induction n as [n IH] using lt_wf_ind. intros s Hn.
  destruct s as [|c s]; [done|]. simpl in Hn.
  assert (omap id_here (tails (c :: s)) =
          match id_here (c :: s) with
          | Some found => found :: omap id_here (tails s)
          | None => omap id_here (tails s)
          end) as -> by done.
  cbn [match_ids].
  destruct (id_here (c :: s)) as [found|] eqn:Hhere.
  - f_equal. rewrite match_ids_skip.
    assert (1 ≤ length found)%nat as Hlen.
    { destruct (id_here_Some _ _ Hhere) as (run & rest & _ & -> & _).
      rewrite length_app. change (length id_key) with 5%nat. lia. }
    rewrite (omap_tails_skip id_here (length found - 1) s).
    + apply (IH (length (drop (length found - 1) s))); [|done].
      rewrite length_drop. lia.
    + intros k Hk.
      apply (id_here_inside (c :: s) found (S k) Hhere). lia.
  - apply (IH (length s)); [lia | done].
Qed.

(** [parseInt(entry.substring(5))] of the matches is never [NaN]: it is
    the number that follows the key. *)
Lemma parse_entries (texts : list (list N)) :
  mapM (λ entry, parseInt (substring_from 5 entry)) (omap id_here texts) =
  Some (omap id_number texts).
Proof.
  induction texts as [|t texts IH]; [done|].
  change (omap id_here (t :: texts)) with
    (match id_here t with
     | Some found => found :: omap id_here texts
     | None => omap id_here texts
     end).
  change (omap id_number (t :: texts)) with
    (match id_number t with
     | Some n => n :: omap id_number texts
     | None => omap id_number texts
     end).
  destruct (id_here t) as [found|] eqn:Hhere.
  - destruct (id_here_Some t found Hhere)
      as (run & rest & _ & -> & Hne & Hrun & ->).
    assert (substring_from 5 (id_key ++ run) = run) as Hsub.
    { unfold substring_from, clamp. rewrite length_app.
      change (length id_key) with 5%nat.
      replace (Z.to_nat (0 `max` (5 `min` Z.of_nat (5 + length run))))
        with 5%nat by lia.
      done. }
    cbn [mapM]. rewrite Hsub, parseInt_run, IH by done. done.
  - by rewrite (id_here_None t Hhere).
Qed.

Lemma id_number_nonneg (s : list N) (n : Z) : id_number s = Some n → 0 ≤ n.
Proof.
  unfold id_number.
  destruct (strip_prefix id_key s) as [rest|]; [|done].
  pose proof (take_while_Forall is_digit rest) as Hrun.
  destruct (take_while is_digit rest) as [|d run]; [done|].
  intros [= <-]. by apply decimal_bounds.
Qed.

(** Lines 54 to 57 in terms of the numbers that follow the key. *)
Lemma itemIDs_of_page_numbers (page : list N) :
  itemIDs_of_page page =
    match match_listview true page with
    | None => inl (null_property "0")
    | Some line =>
        match omap id_number (tails line) with
        | [] => inl (null_property "map")
        | numbers => inr (sort_numbers numbers)
        end
    end.
Proof.
  unfold itemIDs_of_page.
  destruct (match_listview true page) as [line|]; [|done].
  rewrite match_ids_tails.
  pose proof (parse_entries (tails line)) as Hparse.
  destruct (omap id_here (tails line)) as [|found entries] eqn:Hentries.
  - simpl in Hparse. by injection Hparse as <-.
  - rewrite Hparse. simpl.
    destruct (omap id_number (tails line)) as [|n numbers] eqn:Hnum;
      [|done].
    by apply length_mapM in Hparse.
Qed.


Lemma drop_while_stops {A : Type} (p : A → bool) (l : list A) :
  drop_while p l = [] ∨ ∃ x rest, drop_while p l = x :: rest ∧ p x = false.
Proof.
  induction l as [|x l IH]; simpl; [by left|].
  destruct (p x) eqn:Hx; [done|]. right. by exists x, l.
Qed.

Lemma listview_here_Some (s found : list N) :
  listview_here s = Some found →
  ∃ c run post,
    s = found ++ post ∧
    found = js "var" ++ c :: js "listviewitems" ++ run ∧
    white c = true ∧ run ≠ [] ∧
    Forall (λ c, LineTerminator c = false) run ∧
    (post = [] ∨ ∃ t post', post = t :: post' ∧ LineTerminator t = true).
Proof.
  unfold listview_here.
  destruct (strip_prefix (js "var") s) as [[|c rest]|] eqn:Hvar; [done| |done].
  apply strip_prefix_Some in Hvar as ->.
  destruct (white c) eqn:Hc; [|done].
  destruct (strip_prefix (js "listviewitems") rest) as [rest'|] eqn:Hlist;
    [|done].
  apply strip_prefix_Some in Hlist as ->.
  set (p := λ c : N, negb (LineTerminator c)).
  pose proof (take_while_Forall p rest') as Hrun.
  pose proof (take_drop_while p rest') as Hrest.
  pose proof (drop_while_stops p rest') as Hpost.
  destruct (take_while p rest') as [|d run] eqn:Htake; [done|].
  intros Hfound. apply (inj Some) in Hfound. subst found.
  exists c, (d :: run), (drop_while p rest').
  split.
  { rewrite <- Hrest at 1. rewrite <- !app_assoc.
    rewrite <- (app_comm_cons (js "listviewitems" ++ d :: run)).
    by rewrite <- !app_assoc. }
  split; [done|]. split; [done|]. split; [done|]. split.
  - eapply Forall_impl; [exact Hrun|]. intros x Hx. unfold p in Hx.
    by apply negb_true_iff in Hx.
  - destruct Hpost as [->|(t & post' & -> & Ht)]; [by left|].
    right. exists t, post'. split; [done|]. unfold p in Ht.
    by apply negb_false_iff in Ht.
Qed.

(** Where the first match is, for a search that starts at a position at
    which [^] holds or not ([line_start]). *)
Lemma match_listview_Some (s : list N) : ∀ line_start line,
  match_listview line_start s = Some line →
  ∃ pre c run post,
    s = pre ++ line ++ post ∧
    line = js "var" ++ c :: js "listviewitems" ++ run ∧
    white c = true ∧ run ≠ [] ∧
    Forall (λ c, LineTerminator c = false) run ∧
    (post = [] ∨ ∃ t post', post = t :: post' ∧ LineTerminator t = true) ∧
    match last pre with
    | None => line_start = true
    | Some t => LineTerminator t = true
    end ∧
    (∀ pre1 pre2, pre = pre1 ++ pre2 → pre2 ≠ [] →
       match last pre1 with
       | None => line_start = true
       | Some t => LineTerminator t = true
       end →
       listview_here (pre2 ++ line ++ post) = None).
Proof.
  induction s as [|c0 s IH]; intros line_start line; [done|].
  cbn [match_listview].
  destruct (if line_start then listview_here (c0 :: s) else None)
    as [found|] eqn:Hhere.
  - intros [= <-]. destruct line_start; [|done].
    destruct (listview_here_Some _ _ Hhere)
      as (c & run & post & Hs & Hfound & Hc & Hne & Hrun & Hpost).
    exists [], c, run, post. split; [done|]. split; [done|].
    split; [done|]. split; [done|]. split; [done|]. split; [done|].
    split; [done|]. intros pre1 pre2 Hpre Hpre2.
    symmetry in Hpre. apply app_eq_nil in Hpre as [_ ->]. done.
  - intros Hrest.
    destruct (IH _ _ Hrest)
      as (pre & c & run & post & -> & Hline & Hc & Hne & Hrun & Hpost &
          Hlast & Hfirst).
    exists (c0 :: pre), c, run, post. split; [done|]. split; [done|].
    split; [done|]. split; [done|]. split; [done|]. split; [done|]. split.
    + destruct pre as [|p pre]; [done|]. rewrite last_cons_cons.
      destruct (last (p :: pre)) eqn:Hp; [done|].
      by apply last_None in Hp.
    + intros pre1 pre2 Hpre Hpre2 Hstart.
      destruct pre1 as [|p pre1].
      * simpl in Hpre. subst pre2. simpl in Hstart. subst line_start.
        exact Hhere.
      * injection Hpre as <- ->. apply (Hfirst pre1 pre2 eq_refl Hpre2).
        destruct pre1 as [|q pre1]; [done|].
        rewrite last_cons_cons in Hstart.
        destruct (last (q :: pre1)) eqn:Hq; [done|].
        by apply last_None in Hq.
Qed.

(** X13.  The text that [/^var\slistviewitems.+$/m] matches on a page is
    its first line of that form: it starts at the start of the page or
    after a line terminator, with [var], one character of white space and
    [listviewitems]; it goes on, over at least one character, to the next
    line terminator or the end of the page; and the expression matches at
    no earlier start of a line.  The ids of the rest of the page are not
    read. *)
Theorem listview_match_is_the_first_such_line (page line : list N) :
  match_listview true page = Some line →
  ∃ pre c run post,
    page = pre ++ line ++ post ∧
    line = js "var" ++ c :: js "listviewitems" ++ run ∧
    white c = true ∧ run ≠ [] ∧
    Forall (λ c, LineTerminator c = false) run ∧
    (pre = [] ∨ ∃ pre' t, pre = pre' ++ [t] ∧ LineTerminator t = true) ∧
    (post = [] ∨ ∃ t post', post = t :: post' ∧ LineTerminator t = true) ∧
    (∀ pre1 pre2, pre = pre1 ++ pre2 → pre2 ≠ [] →
       (pre1 = [] ∨ ∃ pre' t, pre1 = pre' ++ [t] ∧ LineTerminator t = true) →
       listview_here (pre2 ++ line ++ post) = None).
Proof.
  intros Hmatch.
  destruct (match_listview_Some page true line Hmatch)
    as (pre & c & run & post & Hpage & Hline & Hc & Hne & Hrun & Hpost &
        Hlast & Hfirst).
  exists pre, c, run, post. split; [done|]. split; [done|]. split; [done|].
  split; [done|]. split; [done|]. split.
  - destruct pre as [|p pre] using rev_ind; [by left|]. right.
    exists pre, p. split; [done|]. by rewrite last_snoc in Hlast.
  - split; [done|]. intros pre1 pre2 Hpre Hpre2 Hstart.
    apply (Hfirst pre1 pre2 Hpre Hpre2).
    destruct Hstart as [->|(pre' & t & -> & Ht)]; [done|].
    by rewrite last_snoc.
Qed.

(** X13, at a page with two such lines. *)
Lemma listview_match_is_the_first_such_line_witness :
  ∃ pre c run post,
    page_example = pre ++ line_example ++ post ∧
    line_example = js "var" ++ c :: js "listviewitems" ++ run ∧
    white c = true ∧ run ≠ [] ∧
    Forall (λ c, LineTerminator c = false) run ∧
    (pre = [] ∨ ∃ pre' t, pre = pre' ++ [t] ∧ LineTerminator t = true) ∧
    (post = [] ∨ ∃ t post', post = t :: post' ∧ LineTerminator t = true) ∧
    (∀ pre1 pre2, pre = pre1 ++ pre2 → pre2 ≠ [] →
       (pre1 = [] ∨ ∃ pre' t, pre1 = pre' ++ [t] ∧ LineTerminator t = true) →
       listview_here (pre2 ++ line_example ++ post) = None).
Proof.
  apply (listview_match_is_the_first_such_line page_example line_example).
  by vm_compute.
Defined.

(** ** [prepareCategoryLists]: the loop *)

Section Listings.
Context {World : Type} `{!Remote World} `{!Web World}.

(** What the stage leaves as it was: everything but the listings. *)
Lemma write_category_dir category ids (e : @Env World) c :
  dir c (write_category category ids e) =
  if decide (category = c)
  then mkFiles (items_json (dir c e)) (spells_json (dir c e)) (Parsed ids)
         (output_json (dir c e))
  else dir c e.
Proof.
  unfold write_category, dir. simpl. rewrite lookup_insert.
  case_decide; by subst.
Qed.

Lemma prepareCategoryList_cases (c : string) (st : @Stage World) :
  (∃ page ids,
     pages st !! c = Some page ∧ itemIDs_of_page page = inr ids ∧
     prepareCategoryList c st =
       Return tt (with_engine (write_category c ids (engine st)) st)) ∨
  (∃ error,
     prepareCategoryList c st = Throw error st ∧
     ((pages st !! c = None ∧ error = ENOENT) ∨
      (∃ page, pages st !! c = Some page ∧ itemIDs_of_page page = inl error))).
Proof.
  unfold prepareCategoryList.
  destruct (pages st !! c) as [page|] eqn:Hpage.
  - destruct (itemIDs_of_page page) as [error|ids] eqn:Hids.
    + right. exists error. split; [done|]. right. by exists page.
    + left. by exists page, ids.
  - right. exists ENOENT. split; [done|]. by left.
Qed.

(** The loop over the categories: the listings of the categories before
    the first one that fails are written, nothing else changes. *)
Lemma prepareCategoryList_loop (categories : list string) :
  ∀ st : @Stage World,
  ∃ done rest st',
    categories = done ++ rest ∧
    pages st' = pages st ∧ database st' = database st ∧
    spellNames st' = spellNames st ∧ announced st' = announced st ∧
    now st' = now st ∧ world (engine st') = world (engine st) ∧
    out (engine st') = out (engine st) ∧
    itemNames (engine st') = itemNames (engine st) ∧
    (∀ c, c ∈ done →
       ∃ page ids, pages st !! c = Some page ∧
                   itemIDs_of_page page = inr ids ∧
                   category_json (dir c (engine st')) = Parsed ids) ∧
    (∀ c, c ∉ done → dir c (engine st') = dir c (engine st)) ∧
    (∀ c, items_json (dir c (engine st')) = items_json (dir c (engine st)) ∧
          spells_json (dir c (engine st')) = spells_json (dir c (engine st)) ∧
          output_json (dir c (engine st')) = output_json (dir c (engine st))) ∧
    match rest with
    | [] => for_of prepareCategoryList categories st = Return tt st'
    | c :: _ =>
        ∃ error,
          for_of prepareCategoryList categories st = Throw error st' ∧
          ((pages st !! c = None ∧ error = ENOENT) ∨
           (∃ page, pages st !! c = Some page ∧
                    itemIDs_of_page page = inl error))
    end.
Proof.
  induction categories as [|c categories IH]; intros st.
  - exists [], [], st. repeat split; try done. intros c Hc.
    by apply elem_of_nil in Hc.
  - destruct (prepareCategoryList_cases c st)
      as [(page & ids & Hpage & Hids & Hrun)|(error & Hrun & Hcause)].
    + set (st1 := with_engine (write_category c ids (engine st)) st) in *.
      destruct (IH st1)
        as (done & rest & st' & -> & Hp & Hd & Hs & Ha & Hn & Hw & Ho &
            Hi & Hdone & Hother & Hfiles & Hrest).
      exists (c :: done), rest, st'. simpl in Hp, Hd, Hs, Ha, Hn, Hw, Ho, Hi.
      split; [done|]. do 8 (split; [done|]). split; [|split; [|split]].
      * intros c' Hc'.
        destruct (decide (c' ∈ done)) as [Hin|Hout].
        -- destruct (Hdone c' Hin) as (page' & ids' & ? & ? & ?).
           by exists page', ids'.
        -- apply elem_of_cons in Hc' as [->|?]; [|done].
           exists page, ids. split; [done|]. split; [done|].
           rewrite (Hother c Hout). unfold st1. simpl.
           rewrite write_category_dir. by rewrite decide_True.
      * intros c' Hc'. apply not_elem_of_cons in Hc' as [Hne Hout].
        rewrite (Hother c' Hout). unfold st1. simpl.
        rewrite write_category_dir. by rewrite decide_False.
      * intros c'. destruct (Hfiles c') as (-> & -> & ->).
        unfold st1. simpl. rewrite write_category_dir. by case_decide.
      * cbn [for_of app]. rewrite Hrun.
        destruct rest as [|r rest]; [done|].
        destruct Hrest as (error & Hrest & Hcause).
        exists error. split; [done|]. done.
    + exists [], (c :: categories), st. repeat split; try done.
      * intros c' Hc'. by apply elem_of_nil in Hc'.
      * exists error. cbn [for_of]. by rewrite Hrun.
Qed.

End Listings.

(** X14.  [prepareCategoryLists] never throws.  It writes the listing of
    every category up to the first one whose page is missing or gives no
    ids, each with the sorted ids of its page; that category and all the
    later ones keep the listing they had, and the error of the first
    failure is printed.  No other file, and nothing else of the state,
    changes. *)
Theorem listings_are_written_up_to_the_first_failure {World : Type}
    `{!Remote World} `{!Web World} (categories : list string)
    (st : @Stage World) :
  ∃ done rest st',
    prepareCategoryLists categories st = Return tt st' ∧
    categories = done ++ rest ∧
    (∀ c, c ∈ done →
       ∃ page ids, pages st !! c = Some page ∧
                   itemIDs_of_page page = inr ids ∧
                   category_json (dir c (engine st')) = Parsed ids) ∧
    (∀ c, c ∉ done → dir c (engine st') = dir c (engine st)) ∧
    (∀ c, items_json (dir c (engine st')) = items_json (dir c (engine st)) ∧
          spells_json (dir c (engine st')) = spells_json (dir c (engine st)) ∧
          output_json (dir c (engine st')) = output_json (dir c (engine st))) ∧
    pages st' = pages st ∧ database st' = database st ∧
    world (engine st') = world (engine st) ∧
    match rest with
    | [] => out (engine st') = out (engine st)
    | c :: _ =>
        ∃ error,
          out (engine st') = out (engine st) ++ [LogError error] ∧
          ((pages st !! c = None ∧ error = ENOENT) ∨
           (∃ page, pages st !! c = Some page ∧
                    itemIDs_of_page page = inl error))
    end.
Proof.
  destruct (prepareCategoryList_loop categories st)
    as (done & rest & st' & Hcat & Hp & Hd & Hs & Ha & Hn & Hw & Ho &
        Hi & Hdone & Hother & Hfiles & Hrest).
  unfold prepareCategoryLists. destruct rest as [|r rest].
  - rewrite Hrest. by exists done, [], st'.
  - destruct Hrest as (error & -> & Hcause).
    exists done, (r :: rest), (log_error error st'). simpl.
    split; [done|]. split; [done|]. do 3 (split; [done|]).
    do 3 (split; [done|]). exists error. by rewrite Ho.
Qed.

(** ** [prepareDatabase] *)

Lemma elem_of_entries {V : Type} (o : gmap Z V) (k : Z) (v : V) :
  (k, v) ∈ entries o ↔ o !! k = Some v.
Proof.
  unfold entries. rewrite (sort_by_Permutation fst (map_to_list o)).
  apply elem_of_map_to_list.
Qed.

Lemma foldl_invariant {A B : Type} (step : A → B → A) (I : A → Prop)
    (l : list B) (a : A) :
  I a → (∀ a b, b ∈ l → I a → I (step a b)) → I (foldl step a l).
Proof.
  revert a. induction l as [|b l IH]; intros a Ha Hstep; [done|].
  simpl. apply IH.
  - apply Hstep; [apply list_elem_of_here | done].
  - intros a' b' Hb'. apply Hstep. by apply list_elem_of_further.
Qed.

(** A fold whose steps add to the sets of the database the triples that
    [R] relates to the element handled adds those of the whole list. *)
Lemma foldl_items_of {A B : Type} (get : A → Database) (step : A → B → A)
    (R : B → string → Z → Z → Prop) (l : list B) :
  (∀ a b c s i, b ∈ l →
     i ∈ items_of (get (step a b)) c s ↔ i ∈ items_of (get a) c s ∨ R b c s i) →
  ∀ a c s i,
    i ∈ items_of (get (foldl step a l)) c s ↔
    i ∈ items_of (get a) c s ∨ ∃ b, b ∈ l ∧ R b c s i.
Proof.
  induction l as [|b l IH]; intros Hstep a c s i.
  - simpl. split; [by left|]. intros [?|(b & Hb & _)]; [done|].
    by apply elem_of_nil in Hb.
  - simpl. rewrite IH.
    + rewrite Hstep by apply list_elem_of_here. split.
      * intros [[?|?]|(b' & Hb' & ?)]; [by left| |].
        -- right. exists b. split; [apply list_elem_of_here | done].
        -- right. exists b'. split; [by apply list_elem_of_further | done].
      * intros [?|(b' & [->|Hb']%elem_of_cons & ?)].
        -- by left; left.
        -- by left; right.
        -- right. by exists b'.
    + intros a' b' c' s' i' Hb'. apply Hstep. by apply list_elem_of_further.
Qed.

Lemma items_of_insert_group (db : Database) (cat : string) c s :
  items_of (<[cat := default ∅ (db !! cat)]> db) c s = items_of db c s.
Proof.
  unfold items_of. rewrite lookup_insert. case_decide; [|done].
  subst c. by destruct (db !! cat).
Qed.

Lemma add_aura_items_of cat itemID (acc : Database * gmap Z string) aura c s i :
  i ∈ items_of (add_aura cat itemID acc aura).1 c s ↔
  i ∈ items_of acc.1 c s ∨ (c = cat ∧ s = aura.1 ∧ i = itemID).
Proof.
  unfold add_aura, items_of. simpl. rewrite lookup_insert.
  case_decide as Hc.
  - subst c. simpl. rewrite lookup_insert. case_decide as Hs.
    + subst s. simpl. set_solver.
    + naive_solver.
  - naive_solver.
Qed.

Lemma merge_output_items_of cat data (acc : Database * gmap Z string) c s i :
  i ∈ items_of (merge_output cat data acc).1 c s ↔
  i ∈ items_of acc.1 c s ∨
  (c = cat ∧ ∃ auras name, data !! i = Some auras ∧ auras !! s = Some name).
Proof.
  unfold merge_output.
  rewrite (foldl_items_of fst _
             (λ item c s i, c = cat ∧ i = item.1 ∧
                            ∃ name, item.2 !! s = Some name)).
  - split; (intros [?|Hnew]; [by left|right]).
    + destruct Hnew as ([k auras] & Hin & -> & -> & name & Hname).
      apply elem_of_entries in Hin. split; [done|]. by exists auras, name.
    + destruct Hnew as (-> & auras & name & Hdata & Hname).
      exists (i, auras). split; [by apply elem_of_entries|].
      split; [done|]. split; [done|]. by exists name.
  - intros a [k auras] c' s' i' _. simpl.
    rewrite (foldl_items_of fst _
               (λ aura c s i, c = cat ∧ s = aura.1 ∧ i = k)).
    + split; (intros [?|Hnew]; [by left|right]).
      * destruct Hnew as ([s0 name] & Hin & -> & -> & ->).
        apply elem_of_entries in Hin. split; [done|]. split; [done|].
        by exists name.
      * destruct Hnew as (-> & -> & name & Hname).
        exists (s', name). split; [by apply elem_of_entries|]. done.
    + intros a' aura c'' s'' i'' _. apply add_aura_items_of.
Qed.

Section Database.
Context {World : Type} `{!Remote World} `{!Web World}.

Lemma merge_category_same (s : Database * @Stage World) category :
  same_but_names s.2 (merge_category s category).2.
Proof.
  unfold merge_category.
  by destruct (output_json (dir category (engine s.2))).
Qed.

Lemma prepareDatabase_fold_same categories (s : Database * @Stage World) :
  same_but_names s.2 (foldl merge_category s categories).2.
Proof.
  apply (foldl_invariant merge_category (λ a, same_but_names s.2 a.2)).
  - done.
  - intros a c _ (? & ? & ? & ? & ? & ? & ?).
    destruct (merge_category_same a c) as (? & ? & ? & ? & ? & ? & ?).
    repeat split; congruence.
Qed.

Lemma merge_category_items_of (s : Database * @Stage World) category c sp i :
  i ∈ items_of (merge_category s category).1 c sp ↔
  i ∈ items_of s.1 c sp ∨
  ∃ name, in_outputs [category] (engine s.2) c sp i name.
Proof.
  unfold merge_category, in_outputs.
  destruct (output_json (dir category (engine s.2))) as [| |data] eqn:Hout;
    simpl.
  - rewrite items_of_insert_group. split; [by left|].
    intros [?|(name & cy & data & auras & ->%list_elem_of_singleton & _ & ? & _)];
      [done | congruence].
  - rewrite items_of_insert_group. split; [by left|].
    intros [?|(name & cy & data & auras & ->%list_elem_of_singleton & _ & ? & _)];
      [done | congruence].
  - rewrite merge_output_items_of. simpl. rewrite items_of_insert_group.
    split; (intros [?|Hnew]; [by left|right]).
    + destruct Hnew as (-> & auras & name & ? & ?).
      exists name, category, data, auras.
      split; [apply list_elem_of_here | done].
    + destruct Hnew
        as (name & cy & data' & auras & ->%list_elem_of_singleton & <- &
            Hp & ? & ?).
      rewrite Hout in Hp. injection Hp as <-. split; [done|].
      by exists auras, name.
Qed.

Lemma prepareDatabase_fold_items_of categories :
  ∀ (s : Database * @Stage World) c sp i,
    i ∈ items_of (foldl merge_category s categories).1 c sp ↔
    i ∈ items_of s.1 c sp ∨
    ∃ name, in_outputs categories (engine s.2) c sp i name.
Proof.
  induction categories as [|category categories IH]; intros s c sp i.
  - simpl. split; [by left|].
    intros [?|(name & cy & ? & ? & Hin & _)]; [done|].
    by apply elem_of_nil in Hin.
  - simpl. rewrite IH, merge_category_items_of.
    destruct (merge_category_same s category) as (_ & _ & _ & _ & Hf & _).
    assert (∀ cy, dir cy (engine (merge_category s category).2) =
                  dir cy (engine s.2)) as Hdir
      by (intros cy; unfold dir; by rewrite Hf).
    unfold in_outputs. split.
    + intros [[?|(name & cy & data & auras & Hin & Hrest)]
             |(name & cy & data & auras & Hin & Hg & Hp & Hrest)].
      * by left.
      * apply list_elem_of_singleton in Hin as ->. right.
        exists name, category, data, auras.
        split; [apply list_elem_of_here | done].
      * right. exists name, cy, data, auras.
        split; [by apply list_elem_of_further|]. by rewrite <- Hdir.
    + intros [?|(name & cy & data & auras & Hin & Hg & Hp & Hrest)].
      * by left; left.
      * apply elem_of_cons in Hin as [->|Hin].
        -- left. right. exists name, category, data, auras.
           split; [apply list_elem_of_here | done].
        -- right. exists name, cy, data, auras. by rewrite Hdir.
Qed.

End Database.

(** X15.  [prepareDatabase] never throws, and an [output.json] that is
    missing or does not parse costs its own category alone: an item is in
    the set of an aura, in the group [trinkets] or [consumables], exactly
    when the readable [output.json] of some category of that group gives
    the item that aura.  Pages, files and the service are not touched. *)
Theorem database_is_the_union_of_the_outputs {World : Type}
    `{!Remote World} `{!Web World} (categories : list string)
    (st : @Stage World) :
  (∀ cat spellID itemID,
     itemID ∈ items_of (prepareDatabase categories st).1 cat spellID ↔
     ∃ name, in_outputs categories (engine st) cat spellID itemID name) ∧
  pages (prepareDatabase categories st).2 = pages st ∧
  database (prepareDatabase categories st).2 = database st ∧
  files (engine (prepareDatabase categories st).2) = files (engine st) ∧
  world (engine (prepareDatabase categories st).2) = world (engine st) ∧
  itemNames (engine (prepareDatabase categories st).2) =
    itemNames (engine st).
Proof.
  unfold prepareDatabase. split.
  - intros cat spellID itemID.
    rewrite (prepareDatabase_fold_items_of categories (∅, st)). simpl.
    split; [|by right]. intros [Hempty|?]; [|done].
    unfold items_of in Hempty. rewrite lookup_empty in Hempty.
    simpl in Hempty. rewrite lookup_empty in Hempty. set_solver.
  - by destruct (prepareDatabase_fold_same categories (∅, st))
      as (? & ? & ? & ? & ? & ? & ?).
Qed.

Section DatabaseNames.
Context {World : Type} `{!Remote World} `{!Web World}.
Variable categories : list string.
Variable e : @Env World.

Local Abbreviation named := (named categories e).

Lemma add_aura_named cat itemID acc aura :
  in_outputs categories e cat aura.1 itemID aura.2 →
  named acc → named (add_aura cat itemID acc aura).
Proof.
  intros Hprov [Hnames Hsets]. split.
  - intros c s i Hi. apply add_aura_items_of in Hi. unfold add_aura. simpl.
    destruct (decide (s = aura.1)) as [->|Hs].
    + exists aura.2, cat, itemID. by rewrite lookup_insert_eq.
    + rewrite lookup_insert_ne by done. destruct Hi as [Hi|(_ & ? & _)];
        [by apply (Hnames c s i) | done].
  - intros c group s items. unfold add_aura. simpl. rewrite lookup_insert.
    case_decide as Hc.
    + intros [= <-]. rewrite lookup_insert. case_decide as Hs.
      * intros [= <-]. set_solver.
      * subst c. destruct (acc.1 !! cat) as [g|] eqn:Hg; simpl.
        -- by apply (Hsets cat g).
        -- by rewrite lookup_empty.
    + by apply Hsets.
Qed.

Lemma merge_output_named category data acc :
  category ∈ categories → output_json (dir category e) = Parsed data →
  named acc → named (merge_output (group_of category) data acc).
Proof.
  intros Hin Hdata Hacc. unfold merge_output.
  apply (foldl_invariant _ named); [done|].
  intros a [itemID auras] Hitem Ha. simpl.
  apply elem_of_entries in Hitem.
  apply (foldl_invariant _ named); [done|].
  intros a' [spellID name] Haura Ha'. apply elem_of_entries in Haura.
  apply add_aura_named; [|done]. simpl.
  by exists category, data, auras.
Qed.

Lemma named_insert_group (db : Database) names cat :
  named (db, names) → named (<[cat := default ∅ (db !! cat)]> db, names).
Proof.
  intros [Hnames Hsets]. split; simpl in *.
  - intros c s i. rewrite items_of_insert_group. apply Hnames.
  - intros c group s items. rewrite lookup_insert. case_decide as Hc.
    + subst c. destruct (db !! cat) as [g|] eqn:Hg; simpl.
      * intros [= <-]. by apply (Hsets cat g).
      * intros [= <-]. by rewrite lookup_empty.
    + apply Hsets.
Qed.

Lemma merge_category_named (s : Database * @Stage World) category :
  category ∈ categories →
  files (engine s.2) = files e →
  named (s.1, spellNames s.2) →
  named ((merge_category s category).1,
         spellNames (merge_category s category).2).
Proof.
  intros Hin Hf Hs. unfold merge_category.
  assert (dir category (engine s.2) = dir category e) as ->
    by (unfold dir; by rewrite Hf).
  destruct (output_json (dir category e)) as [| |data] eqn:Hout; simpl.
  - by apply named_insert_group.
  - by apply named_insert_group.
  - rewrite <- surjective_pairing.
    apply merge_output_named; [done|done|]. by apply named_insert_group.
Qed.

End DatabaseNames.

Section DatabaseGroups.
Context {World : Type} `{!Remote World} `{!Web World}.

Lemma prepareDatabase_named categories (st : @Stage World) :
  named categories (engine st)
    ((prepareDatabase categories st).1,
     spellNames (prepareDatabase categories st).2).
Proof.
  unfold prepareDatabase.
  enough (named categories (engine st)
            ((foldl merge_category (∅, st) categories).1,
             spellNames (foldl merge_category (∅, st) categories).2) ∧
          files (engine (foldl merge_category (∅, st) categories).2) =
            files (engine st)) as [? _] by done.
  apply (foldl_invariant merge_category
           (λ a, named categories (engine st) (a.1, spellNames a.2) ∧
                 files (engine a.2) = files (engine st))).
  - split; [|done]. split; simpl.
    + intros c s i Hi. unfold items_of in Hi.
      rewrite lookup_empty in Hi. simpl in Hi. rewrite lookup_empty in Hi.
      set_solver.
    + intros c group s items Hc. by rewrite lookup_empty in Hc.
  - intros a category Hin [Ha Hf]. split.
    + by apply merge_category_named.
    + destruct (merge_category_same a category) as (_ & _ & _ & _ & -> & _).
      done.
Qed.

Lemma add_aura_groups cat itemID (acc : Database * gmap Z string) aura c :
  is_Some (acc.1 !! c) → is_Some ((add_aura cat itemID acc aura).1 !! c).
Proof.
  unfold add_aura. simpl. rewrite lookup_insert. by case_decide.
Qed.

Lemma merge_category_groups (s : Database * @Stage World) category :
  is_Some ((merge_category s category).1 !! group_of category) ∧
  ∀ c, is_Some (s.1 !! c) → is_Some ((merge_category s category).1 !! c).
Proof.
  assert (∀ c, c = group_of category ∨ is_Some (s.1 !! c) →
               is_Some ((merge_category s category).1 !! c)) as Hall.
  { intros c Hc.
    assert (is_Some (<[group_of category :=
                         default ∅ (s.1 !! group_of category)]> s.1 !! c))
      as Hdb.
    { rewrite lookup_insert. case_decide; [done|]. naive_solver. }
    unfold merge_category.
    destruct (output_json (dir category (engine s.2))) as [| |data];
      simpl; [done|done|].
    unfold merge_output.
    apply (foldl_invariant _ (λ a, is_Some (a.1 !! c))); [done|].
    intros a item _ Ha.
    apply (foldl_invariant _ (λ a, is_Some (a.1 !! c))); [done|].
    intros a' aura _ Ha'. by apply add_aura_groups. }
  split; [apply Hall; by left|]. intros c Hc. apply Hall. by right.
Qed.

Lemma prepareDatabase_groups categories (st : @Stage World) category :
  category ∈ categories →
  is_Some ((prepareDatabase categories st).1 !! group_of category).
Proof.
  unfold prepareDatabase. generalize (∅ : Database, st).
  induction categories as [|c categories IH]; intros s Hin;
    [by apply elem_of_nil in Hin|].
  simpl. destruct (decide (category ∈ categories)) as [Hlater|Hnot].
  - by apply IH.
  - apply elem_of_cons in Hin as [->|?]; [|done].
    apply (foldl_invariant merge_category
             (λ a, is_Some (a.1 !! group_of c)) categories
             (merge_category s c)).
    + exact (proj1 (merge_category_groups s c)).
    + intros a c' _ Ha. exact (proj2 (merge_category_groups a c') _ Ha).
Qed.

End DatabaseGroups.

(** X16.  After [prepareDatabase], every aura that has an item in the
    database has a name in [spellNames], one that some [output.json] read
    gives it, so that [updateLibItemBuffs] prints no aura as [undefined];
    and no set of items of the database is empty. *)
Theorem every_aura_of_the_database_has_a_name {World : Type}
    `{!Remote World} `{!Web World} (categories : list string)
    (st : @Stage World) :
  (∀ cat spellID itemID,
     itemID ∈ items_of (prepareDatabase categories st).1 cat spellID →
     ∃ name cat' itemID',
       spellNames (prepareDatabase categories st).2 !! spellID = Some name ∧
       in_outputs categories (engine st) cat' spellID itemID' name) ∧
  (∀ cat group spellID items,
     (prepareDatabase categories st).1 !! cat = Some group →
     group !! spellID = Some items → items ≠ ∅).
Proof. apply prepareDatabase_named. Qed.

(** X16, at the output of the example directory. *)
Lemma every_aura_of_the_database_has_a_name_witness :
  ∃ name cat' itemID',
    spellNames
      (@prepareDatabase unit ["trinkets"] (stage_of trinkets_after None)).2
      !! 10 = Some name ∧
    in_outputs ["trinkets"] trinkets_after cat' 10 itemID' name.
Proof.
  apply (proj1 (@every_aura_of_the_database_has_a_name unit offline no_site
                  ["trinkets"] (stage_of trinkets_after None))
           "trinkets" 10 100).
  by vm_compute.
Defined.

(** The two ways [updateLibItemBuffs] ends, when the categories hold
    [trinkets] and another one. *)
Lemma updateLibItemBuffs_outcome_of {World : Type}
    `{!Remote World} `{!Web World} (cs : list string) (st : @Stage World) :
  "trinkets" ∈ cs → (∃ c, c ∈ cs ∧ c ≠ "trinkets") →
  match updateLibItemBuffs cs st with
  | Return _ st' =>
      ∃ old trinkets consumables,
        database st = Some old ∧
        database st' =
          Some (spliced old
                  (code_lines (getVersionString (now st))
                     trinkets consumables)) ∧
        pages st' = pages st ∧ files (engine st') = files (engine st)
  | Throw error st' =>
      error = ENOENT ∧ database st = None ∧ database st' = None ∧
      pages st' = pages st ∧ files (engine st') = files (engine st)
  | OutOfFuel => False
  end.
Proof.
  intros Htrinkets (c & Hc & Hne). unfold updateLibItemBuffs.
  pose proof (prepareDatabase_groups cs st "trinkets" Htrinkets) as Hg1.
  pose proof (prepareDatabase_groups cs st c Hc) as Hg2.
  assert (group_of "trinkets" = "trinkets") as Ht1 by done.
  assert (group_of c = "consumables") as Ht2
    by (unfold group_of; by rewrite decide_False).
  rewrite Ht1 in Hg1. rewrite Ht2 in Hg2. clear Ht1 Ht2.
  pose proof (prepareDatabase_fold_same cs (∅, st)) as Hsame.
  fold (prepareDatabase cs st) in Hsame.
  destruct (prepareDatabase cs st) as [db st1].
  cbn [fst snd] in Hg1, Hg2, Hsame.
  destruct Hsame as (Hp & Hd & _ & Hn & Hf & _).
  unfold category_lines.
  destruct Hg1 as [g1 ->]. destruct Hg2 as [g2 ->].
  rewrite Hd. destruct (database st) as [old|].
  - rewrite Hn. eexists old, _, _. split; [done|]. by split.
  - by rewrite Hd.
Qed.

Lemma updateLibItemBuffs_outcome {World : Type}
    `{!Remote World} `{!Web World} (st : @Stage World) :
  match updateLibItemBuffs categories st with
  | Return _ st' =>
      ∃ old trinkets consumables,
        database st = Some old ∧
        database st' =
          Some (spliced old
                  (code_lines (getVersionString (now st))
                     trinkets consumables)) ∧
        pages st' = pages st ∧ files (engine st') = files (engine st)
  | Throw error st' =>
      error = ENOENT ∧ database st = None ∧ database st' = None ∧
      pages st' = pages st ∧ files (engine st') = files (engine st)
  | OutOfFuel => False
  end.
Proof.
  apply updateLibItemBuffs_outcome_of.
  - unfold categories. do 7 apply list_elem_of_further.
    apply list_elem_of_here.
  - exists "bandages". split; [apply list_elem_of_here | done].
Qed.

(** X17.  With the categories of the program, which hold [trinkets] and
    others, the database has both its groups whatever the files are, so
    that [updateLibItemBuffs] fails in one way only: the database file
    cannot be read, and then nothing is written.  Otherwise the file is
    replaced by what precedes the marker in it, followed by the new
    code. *)
Theorem database_file_decides_the_update {World : Type}
    `{!Remote World} `{!Web World} (st : @Stage World) :
  match updateLibItemBuffs categories st with
  | Return _ st' =>
      ∃ old trinkets consumables,
        database st = Some old ∧
        database st' =
          Some (spliced old
                  (code_lines (getVersionString (now st))
                     trinkets consumables)) ∧
        pages st' = pages st ∧ files (engine st') = files (engine st)
  | Throw error st' =>
      error = ENOENT ∧ database st = None ∧ database st' = None ∧
      pages st' = pages st ∧ files (engine st') = files (engine st)
  | OutOfFuel => False
  end.
Proof. apply updateLibItemBuffs_outcome. Qed.

(** ** [updateLibItemBuffs]: the cut marker *)

Lemma substring_0 (b : Z) (s : list N) :
  substring 0 b s = take (clamp b s) s.
Proof.
  unfold substring. replace (clamp 0 s) with 0%nat by (unfold clamp; lia).
  rewrite Nat.min_0_l, Nat.max_0_l, Nat.sub_0_r. done.
Qed.

Lemma indexOf_range (t s : list N) :
  indexOf t s = -1 ∨ 0 ≤ indexOf t s ≤ Z.of_nat (length s).
Proof.
  induction s as [|c s IH]; cbn [indexOf].
  - destruct (strip_prefix t []); [right; simpl; lia | by left].
  - destruct (strip_prefix t (c :: s)); [right; simpl length; lia|].
    case_decide; [by left | right; simpl length; lia].
Qed.

(** [indexOf] is the first position at which the text occurs. *)
Lemma indexOf_first (t s : list N) :
  0 ≤ indexOf t s →
  is_Some (strip_prefix t (drop (Z.to_nat (indexOf t s)) s)) ∧
  ∀ k, (k < Z.to_nat (indexOf t s))%nat → strip_prefix t (drop k s) = None.
Proof.
  induction s as [|c s IH]; cbn [indexOf].
  - destruct (strip_prefix t []) as [r|] eqn:Ht; [|lia]. intros _.
    change (Z.to_nat 0) with 0%nat. cbn [drop].
    split; [by rewrite Ht | lia].
  - destruct (strip_prefix t (c :: s)) as [r|] eqn:Ht.
    + intros _. change (Z.to_nat 0) with 0%nat. cbn [drop].
      split; [by rewrite Ht | lia].
    + case_decide as Hneg; [lia|]. intros _.
      destruct IH as [Hat Hbefore]; [lia|].
      replace (Z.to_nat (1 + indexOf t s))
        with (S (Z.to_nat (indexOf t s))) by lia.
      cbn [drop]. split; [done|].
      intros [|k] Hk; [done|]. cbn [drop]. apply Hbefore. lia.
Qed.

Lemma indexOf_found (t s : list N) (n : nat) :
  is_Some (strip_prefix t (drop n s)) → (n ≤ length s)%nat →
  (∀ k, (k < n)%nat → strip_prefix t (drop k s) = None) →
  indexOf t s = Z.of_nat n.
Proof.
  revert n. induction s as [|c s IH]; intros n Hat Hn Hbefore.
  - simpl in Hn. assert (n = 0%nat) as -> by lia.
    cbn [drop] in Hat. cbn [indexOf]. by destruct Hat as [r ->].
  - destruct n as [|n].
    + cbn [drop] in Hat. cbn [indexOf]. by destruct Hat as [r ->].
    + cbn [indexOf]. pose proof (Hbefore 0%nat ltac:(lia)) as H0.
      cbn [drop] in H0. rewrite H0.
      rewrite (IH n); [case_decide; lia|done|simpl in Hn; lia|].
      intros k Hk. apply (Hbefore (S k)). lia.
Qed.

(** A text without the character [sep] cannot start before a [sep] and end
    after it. *)
Lemma strip_prefix_before_sep (t a rest r : list N) (sep : N) :
  sep ∉ t → strip_prefix t (a ++ sep :: rest) = Some r →
  is_Some (strip_prefix t a).
Proof.
  intros Hsep Hocc. apply strip_prefix_Some in Hocc.
  destruct (decide (length t ≤ length a)%nat) as [Hle|Hgt].
  - exists (drop (length t) a). apply strip_prefix_Some.
    rewrite <- (take_drop (length t) a) at 1. f_equal.
    apply (f_equal (take (length t))) in Hocc.
    rewrite take_app_le in Hocc by done.
    by rewrite take_app_length in Hocc.
  - exfalso. apply Hsep.
    apply (f_equal (λ l, l !! length a)) in Hocc.
    rewrite list_lookup_middle in Hocc by done.
    rewrite lookup_app_l in Hocc by lia.
    by apply list_elem_of_lookup_2 with (length a).
Qed.

Lemma strip_prefix_take (t s : list N) (n k : nat) :
  is_Some (strip_prefix t (drop k (take n s))) →
  is_Some (strip_prefix t (drop k s)).
Proof.
  intros [r Hr]. apply strip_prefix_Some in Hr.
  destruct (decide (k ≤ length (take n s))%nat) as [Hle|Hgt].
  - exists (r ++ drop n s). apply strip_prefix_Some.
    rewrite app_assoc, <- Hr.
    rewrite <- (take_drop n s) at 1. by rewrite drop_app_le.
  - rewrite drop_ge in Hr by lia.
    symmetry in Hr. apply app_eq_nil in Hr as [-> ->]. by eexists.
Qed.

Lemma join_cons_marker (line : list N) (lines : list (list N)) :
  ∃ rest, join [10%N] (line :: lines) = line ++ rest.
Proof.
  destruct lines as [|l lines]; simpl.
  - exists []. by rewrite app_nil_r.
  - by eexists.
Qed.

(** What is kept of the old text: what precedes the first marker, less one
    character; nothing when there is no marker. *)
Lemma kept_head (old : list N) :
  ∃ n, substring 0 (indexOf cutMarker old - 1) old = take n old ∧
       (n ≤ length old)%nat ∧
       ∀ k, (k ≤ n)%nat → strip_prefix cutMarker (drop k (take n old)) = None.
Proof.
  rewrite substring_0.
  set (n := clamp (indexOf cutMarker old - 1) old).
  exists n. split; [done|]. split; [unfold n, clamp; lia|].
  intros k Hk.
  destruct (decide (n = 0%nat)) as [Hn0|Hpos].
  - assert (k = 0%nat) as -> by lia. by rewrite Hn0.
  - destruct (strip_prefix cutMarker (drop k (take n old))) as [r|] eqn:Hocc;
      [|done].
    exfalso.
    assert (is_Some (strip_prefix cutMarker (drop k old))) as Hold.
    { apply strip_prefix_take with n. by rewrite Hocc. }
    assert (0 ≤ indexOf cutMarker old) as Hidx by (unfold n, clamp in Hpos; lia).
    destruct (indexOf_first cutMarker old Hidx) as [_ Hbefore].
    rewrite Hbefore in Hold; [by destruct Hold|].
    unfold n, clamp in Hk, Hpos. lia.
Qed.

Lemma marker_has_no_line_feed : 10%N ∉ cutMarker.
Proof.
  unfold cutMarker. intros Hin. apply list_elem_of_In in Hin.
  vm_compute in Hin. repeat destruct Hin as [Hin|Hin]; done.
Qed.

(** After an update, the first marker is where the new code starts. *)
Lemma indexOf_spliced (old rest : list N) (n : nat) :
  (n ≤ length old)%nat →
  (∀ k, (k ≤ n)%nat → strip_prefix cutMarker (drop k (take n old)) = None) →
  indexOf cutMarker (take n old ++ [10%N] ++ cutMarker ++ rest) =
  Z.of_nat (n + 1).
Proof.
  intros Hn Hhead.
  assert (length (take n old) = n) as Hlen by (rewrite length_take; lia).
  apply indexOf_found.
  - rewrite drop_app_ge by lia. rewrite Hlen.
    replace (n + 1 - n)%nat with 1%nat by lia.
    change (drop 1 ([10%N] ++ cutMarker ++ rest)) with (cutMarker ++ rest).
    rewrite strip_prefix_app. by eexists.
  - rewrite !length_app, Hlen. simpl. lia.
  - intros k Hk.
    destruct (strip_prefix cutMarker
                (drop k (take n old ++ [10%N] ++ cutMarker ++ rest)))
      as [r|] eqn:Hocc; [|done].
    exfalso. rewrite drop_app_le in Hocc by lia.
    apply strip_prefix_before_sep in Hocc; [|apply marker_has_no_line_feed].
    rewrite Hhead in Hocc by lia. by destruct Hocc.
Qed.

(** X18.  The text written over the database file is what precedes the
    first cut marker in the old text, less the character just before the
    marker, then a line feed and the new code, which starts with the
    marker.  Without a marker nothing of the old text is kept.  Hence an
    update after an update keeps the same head: the second update alone
    gives the same file, and the text above the marker survives every
    run. *)
Theorem update_keeps_what_precedes_the_marker (old : list N)
    (lines code : list (list N)) :
  (indexOf cutMarker old < 0 →
   spliced old code = [10%N] ++ join [10%N] code) ∧
  (∀ head c tail,
     old = head ++ c :: cutMarker ++ tail →
     indexOf cutMarker old = Z.of_nat (length head) + 1 →
     spliced old code = head ++ [10%N] ++ join [10%N] code) ∧
  spliced (spliced old (cutMarker :: lines)) code = spliced old code.
Proof.
  split; [|split].
  - intros Hnone. unfold spliced. rewrite substring_0.
    replace (clamp (indexOf cutMarker old - 1) old) with 0%nat
      by (unfold clamp; lia).
    by rewrite take_0.
  - intros head c tail -> Hidx. unfold spliced. rewrite substring_0, Hidx.
    replace (clamp (Z.of_nat (length head) + 1 - 1) (head ++ c :: cutMarker ++ tail))
      with (length head).
    + by rewrite take_app_length.
    + unfold clamp. rewrite length_app. simpl. lia.
  - destruct (kept_head old) as (n & Hkept & Hn & Hhead).
    destruct (join_cons_marker cutMarker lines) as [rest Hjoin].
    unfold spliced at 2. rewrite Hkept, Hjoin.
    unfold spliced. rewrite Hkept. f_equal.
    rewrite substring_0.
    rewrite (indexOf_spliced old rest n Hn Hhead).
    assert (length (take n old) = n) as Hlen by (rewrite length_take; lia).
    replace (clamp (Z.of_nat (n + 1) - 1)
               (take n old ++ [10%N] ++ cutMarker ++ rest))
      with (length (take n old)).
    + by rewrite take_app_length.
    + unfold clamp. rewrite !length_app, Hlen. simpl. lia.
Qed.

(** X18, at a file whose marker is on its third line. *)
Lemma update_keeps_what_precedes_the_marker_witness :
  spliced (js "-- header" ++ [10%N] ++ js "local x = 1" ++
           10%N :: cutMarker ++ 10%N :: js "version = 1")
    [cutMarker; js "version = 2"] =
  (js "-- header" ++ [10%N] ++ js "local x = 1") ++ [10%N] ++
  join [10%N] [cutMarker; js "version = 2"].
Proof.
  apply (proj1 (proj2 (update_keeps_what_precedes_the_marker
                         (js "-- header" ++ [10%N] ++ js "local x = 1" ++
                          10%N :: cutMarker ++ 10%N :: js "version = 1")
                         [] [cutMarker; js "version = 2"]))
           (js "-- header" ++ [10%N] ++ js "local x = 1") 10%N
           (10%N :: js "version = 1")).
  - by rewrite <- !app_assoc.
  - by vm_compute.
Defined.

(** ** [getVersionString] *)

Lemma digit_is_kept (c : N) :
  is_digit c = true → c ∉ [84; 58; 45]%N.
Proof.
  unfold is_digit. intros Hc. apply bool_decide_eq_true in Hc.
  rewrite !elem_of_cons, elem_of_nil. lia.
Qed.

Lemma filter_digits (run : list N) :
  Forall (λ c, is_digit c = true) run →
  filter (λ c, c ∉ [84; 58; 45]%N) run = run.
Proof.
  induction 1 as [|c run Hc _ IH]; [done|].
  rewrite filter_cons_True by by apply digit_is_kept. by rewrite IH.
Qed.

(** X19.  For a time that [toISOString] spells [YYYY-MM-DDTHH:mm:ss] and
    more, the version is the fourteen digits [YYYYMMDDHHmmss]: the first
    nineteen characters without the separators. *)
Theorem version_is_the_fourteen_digits (year month day hour minute second
    rest : list N) :
  length year = 4%nat → length month = 2%nat → length day = 2%nat →
  length hour = 2%nat → length minute = 2%nat → length second = 2%nat →
  Forall (λ c, is_digit c = true)
    (year ++ month ++ day ++ hour ++ minute ++ second) →
  getVersionString
    (year ++ js "-" ++ month ++ js "-" ++ day ++ js "T" ++ hour ++ js ":" ++
     minute ++ js ":" ++ second ++ rest) =
  year ++ month ++ day ++ hour ++ minute ++ second.
Proof.
  intros Hy Hmo Hd Hh Hmi Hs Hdigits. unfold getVersionString.
  rewrite substring_0.
  set (shown := year ++ js "-" ++ month ++ js "-" ++ day ++ js "T" ++ hour ++
                js ":" ++ minute ++ js ":" ++ second).
  assert (length shown = 19%nat) as Hlen.
  { unfold shown. rewrite !length_app, Hy, Hmo, Hd, Hh, Hmi, Hs. done. }
  replace (year ++ js "-" ++ month ++ js "-" ++ day ++ js "T" ++ hour ++
           js ":" ++ minute ++ js ":" ++ second ++ rest)
    with (shown ++ rest) by (unfold shown; by rewrite <- !app_assoc).
  replace (clamp 19 (shown ++ rest)) with (length shown)
    by (unfold clamp; rewrite length_app, Hlen; lia).
  rewrite take_app_length. unfold shown.
  apply Forall_app in Hdigits as [Hyd Hdigits].
  apply Forall_app in Hdigits as [Hmod Hdigits].
  apply Forall_app in Hdigits as [Hdd Hdigits].
  apply Forall_app in Hdigits as [Hhd Hdigits].
  apply Forall_app in Hdigits as [Hmid Hsd].
  assert (∀ c, c ∈ [84; 58; 45]%N →
               filter (λ c, c ∉ [84; 58; 45]%N) [c] = []) as Hsep.
  { intros c Hc. rewrite filter_cons_False; [done|]. by intros Hn. }
  change (js "-") with [45%N]. change (js "T") with [84%N].
  change (js ":") with [58%N].
  rewrite !filter_app.
  rewrite (filter_digits year), (filter_digits month), (filter_digits day),
    (filter_digits hour), (filter_digits minute), (filter_digits second)
    by done.
  rewrite !Hsep by (rewrite !elem_of_cons; auto). done.
Qed.

(** X19, at the first of August 2019. *)
Lemma version_is_the_fourteen_digits_witness :
  getVersionString
    (js "2019" ++ js "-" ++ js "08" ++ js "-" ++ js "01" ++ js "T" ++
     js "12" ++ js ":" ++ js "34" ++ js ":" ++ js "56" ++ js ".789Z") =
  js "2019" ++ js "08" ++ js "01" ++ js "12" ++ js "34" ++ js "56".
Proof.
  apply version_is_the_fourteen_digits; try done.
  repeat constructor.
Defined.

(** ** [prepareCategories]: the loop *)

Section Pages.
Context {World : Type} `{!Remote World} `{!Web World}.

Lemma prepareCategoryPage_cases (entry : string * string) (st : @Stage World) :
  (∃ data w,
     wowhead_get entry.2 (world (engine st)) = (inr data, w) ∧
     prepareCategoryPage entry st =
       Return tt
         (mkStage (<[entry.1 := data]> (pages st)) (database st)
            (spellNames st) (announced st ++ [entry.1]) (now st)
            (mkEnv (files (engine st)) w (out (engine st))
               (itemNames (engine st))))) ∨
  (∃ error w,
     wowhead_get entry.2 (world (engine st)) = (inl error, w) ∧
     prepareCategoryPage entry st =
       Throw error
         (mkStage (pages st) (database st) (spellNames st)
            (announced st ++ [entry.1]) (now st)
            (mkEnv (files (engine st)) w (out (engine st))
               (itemNames (engine st))))).
Proof.
  unfold prepareCategoryPage. simpl.
  destruct (wowhead_get entry.2 (world (engine st))) as [[error|data] w].
  - right. by exists error, w.
  - left. by exists data, w.
Qed.

Lemma prepareCategoryPage_loop (paths : list (string * string)) :
  ∀ st : @Stage World,
  ∃ done rest st',
    paths = done ++ rest ∧
    database st' = database st ∧ spellNames st' = spellNames st ∧
    now st' = now st ∧ files (engine st') = files (engine st) ∧
    out (engine st') = out (engine st) ∧
    itemNames (engine st') = itemNames (engine st) ∧
    (∀ category, category ∈ done.*1 →
       ∃ path data w w',
         (category, path) ∈ done ∧
         wowhead_get path w = (inr data, w') ∧
         pages st' !! category = Some data) ∧
    (∀ category, category ∉ done.*1 →
       pages st' !! category = pages st !! category) ∧
    match rest with
    | [] =>
        for_of prepareCategoryPage paths st = Return tt st' ∧
        announced st' = announced st ++ done.*1
    | failing :: _ =>
        ∃ error w w',
          for_of prepareCategoryPage paths st = Throw error st' ∧
          wowhead_get failing.2 w = (inl error, w') ∧
          announced st' = announced st ++ done.*1 ++ [failing.1]
    end.
Proof.
  induction paths as [|entry paths IH]; intros st.
  - exists [], [], st. simpl. rewrite app_nil_r. repeat split; try done.
    intros c Hc. by apply elem_of_nil in Hc.
  - destruct (prepareCategoryPage_cases entry st)
      as [(data & w & Hget & Hrun)|(error & w & Hget & Hrun)].
    + match type of Hrun with _ = Return tt ?s => set (st1 := s) in * end.
      destruct (IH st1)
        as (done & rest & st' & -> & Hd & Hs & Hn & Hf & Ho & Hi & Hdone &
            Hother & Hrest).
      exists (entry :: done), rest, st'. simpl in Hd, Hs, Hn, Hf, Ho, Hi.
      split; [done|]. do 6 (split; [done|]). split; [|split].
      * intros category Hc. rewrite fmap_cons in Hc.
        destruct (decide (category ∈ done.*1)) as [Hin|Hout].
        -- destruct (Hdone category Hin) as (path & data' & w1 & w2 & ? & ? & ?).
           exists path, data', w1, w2.
           split; [by apply list_elem_of_further | done].
        -- apply elem_of_cons in Hc as [->|?]; [|done].
           exists entry.2, data, (world (engine st)), w.
           split; [destruct entry; apply list_elem_of_here|].
           split; [done|]. rewrite (Hother _ Hout). unfold st1. simpl.
           apply lookup_insert_eq.
      * intros category Hc. rewrite fmap_cons in Hc.
        apply not_elem_of_cons in Hc as [Hne Hout].
        rewrite (Hother _ Hout). unfold st1. simpl.
        by apply lookup_insert_ne.
      * cbn [for_of app]. rewrite Hrun. destruct rest as [|failing rest].
        -- destruct Hrest as [-> ->]. split; [done|]. unfold st1. simpl.
           by rewrite <- app_assoc.
        -- destruct Hrest as (error & w1 & w2 & -> & ? & ->).
           exists error, w1, w2. split; [done|]. split; [done|].
           unfold st1. simpl. by rewrite <- !app_assoc.
    + match type of Hrun with
      | _ = Throw _ ?s => exists [], (entry :: paths), s
      end.
      simpl. split; [done|]. do 6 (split; [done|]). split.
      { intros c Hc. by apply elem_of_nil in Hc. }
      split; [done|].
      exists error, (world (engine st)), w. rewrite Hrun. done.
Qed.

End Pages.

(** X20.  [prepareCategories] never throws.  It announces and requests the
    pages in order and writes each page received, up to the first request
    that fails: that category is announced, its error is printed, and it
    and the later categories keep the page they had, the later ones
    without being announced or requested.  The other files are not
    touched. *)
Theorem pages_are_fetched_up_to_the_first_failure {World : Type}
    `{!Remote World} `{!Web World} (paths : list (string * string))
    (st : @Stage World) :
  ∃ done rest st',
    prepareCategories paths st = Return tt st' ∧
    paths = done ++ rest ∧
    (∀ category, category ∈ done.*1 →
       ∃ path data w w',
         (category, path) ∈ done ∧
         wowhead_get path w = (inr data, w') ∧
         pages st' !! category = Some data) ∧
    (∀ category, category ∉ done.*1 →
       pages st' !! category = pages st !! category) ∧
    files (engine st') = files (engine st) ∧ database st' = database st ∧
    match rest with
    | [] =>
        announced st' = announced st ++ done.*1 ∧
        out (engine st') = out (engine st)
    | failing :: _ =>
        ∃ error w w',
          wowhead_get failing.2 w = (inl error, w') ∧
          announced st' = announced st ++ done.*1 ++ [failing.1] ∧
          out (engine st') = out (engine st) ++ [LogError error]
    end.
Proof.
  destruct (prepareCategoryPage_loop paths st)
    as (done & rest & st' & Hpaths & Hd & Hs & Hn & Hf & Ho & Hi & Hdone &
        Hother & Hrest).
  unfold prepareCategories. destruct rest as [|failing rest].
  - destruct Hrest as [-> Ha]. by exists done, [], st'.
  - destruct Hrest as (error & w & w' & -> & Hget & Ha).
    exists done, (failing :: rest), (log_error error st'). simpl.
    split; [done|]. split; [done|]. do 4 (split; [done|]).
    exists error, w, w'. by rewrite Ho.
Qed.

(** ** [getMeDataz]: the stages in turn *)

Section Run.
Context {World : Type} `{!Remote World} `{!Web World}.

Lemma pages_of_loop_aux paths (st : @Stage World) :
  ∃ st1, prepareCategories paths st = Return tt st1 ∧
         database st1 = database st.
Proof.
  destruct (prepareCategoryPage_loop paths st)
    as (done & rest & st' & _ & Hd & _ & _ & _ & _ & _ & _ & _ & Hrest).
  unfold prepareCategories. destruct rest as [|failing rest].
  - destruct Hrest as [-> _]. by exists st'.
  - destruct Hrest as (error & w & w' & -> & _). by eexists.
Qed.

Lemma lists_of_loop_aux cs (st : @Stage World) :
  ∃ st2, prepareCategoryLists cs st = Return tt st2 ∧
         database st2 = database st.
Proof.
  destruct (prepareCategoryList_loop cs st)
    as (done & rest & st' & _ & _ & Hd & _ & _ & _ & _ & _ & _ & _ & _ & _ &
        Hrest).
  unfold prepareCategoryLists. destruct rest as [|failing rest].
  - rewrite Hrest. by exists st'.
  - destruct Hrest as (error & -> & _). by eexists.
Qed.

End Run.

(** X21.  Each of the first three stages catches what it throws, so that
    whatever fails in them the next stage runs.  The first two always
    return; the third returns or, when the fuel of the spell expansion is
    used up, leaves the run without an outcome, and never throws.  A run
    that has an outcome ends as its last stage [updateLibItemBuffs] does on
    the state that the three stages leave, which is by writing the database
    file, or by the exception of reading it when it does not exist. *)
Theorem the_four_stages_always_run {World : Type} `{!Remote World}
    `{!Web World} (fuel : nat) (st : @Stage World) :
  ∃ st1 st2,
    prepareCategories category_paths st = Return tt st1 ∧
    prepareCategoryLists categories st1 = Return tt st2 ∧
    match prepareItemAndSpellData fuel categories (engine st2) with
    | Return store e3 =>
        getMeDataz fuel st =
          updateLibItemBuffs categories (with_engine e3 st2) ∧
        match getMeDataz fuel st with
        | Return _ st' => is_Some (database st) ∧ is_Some (database st')
        | Throw error st' =>
            error = ENOENT ∧ database st = None ∧ database st' = None
        | OutOfFuel => False
        end
    | Throw _ _ => False
    | OutOfFuel => getMeDataz fuel st = OutOfFuel
    end.
Proof.
  destruct (pages_of_loop_aux category_paths st) as (st1 & Hrun1 & Hd1).
  destruct (lists_of_loop_aux categories st1) as (st2 & Hrun2 & Hd2).
  exists st1, st2. do 2 (split; [done|]).
  unfold getMeDataz. rewrite Hrun1, Hrun2.
  destruct (prepareItemAndSpellData fuel categories (engine st2))
    as [store e3|error e3|] eqn:Hrun3; [| |done].
  - split; [done|].
    pose proof (updateLibItemBuffs_outcome (with_engine e3 st2)) as Hlast.
    destruct (updateLibItemBuffs categories (with_engine e3 st2))
      as [[] st'|error st'|]; [| |done].
    + destruct Hlast as (old & t & c & Hold & Hnew & _). simpl in Hold.
      rewrite <- Hd1, <- Hd2, Hold, Hnew. by split.
    + destruct Hlast as (-> & Hold & Hnew & _). simpl in Hold.
      by rewrite <- Hd1, <- Hd2.
  - unfold prepareItemAndSpellData in Hrun3.
    by destruct (for_of _ categories _).
Qed.

(** A run from an empty cache, with a site that serves the same page for
    every category and a fuel of five: every category is announced, and
    the database file is rewritten below its first line.  Item 300 grants
    the spells 10 and 11 and is listed under the second alone. *)
Example run_from_an_empty_cache :
  ∃ st',
    @getMeDataz unit wowdb_run (same_page page_example) 5 run_start =
      Return tt st' ∧
    announced st' = category_paths.*1 ∧
    database st' =
      Some (join [10%N]
              [ js "-- header"; cutMarker; js "version = 20190801123456";
                js "-- Trinkets";
                js "trinkets[    10] =    100 -- Haste Boost (Swift Charm)";
                js "trinkets[    11] =    300 -- Regen (Twin Idol)";
                js "-- Consumables";
                js "consumables[    10] =    100 -- Haste Boost (Swift Charm)";
                js "consumables[    11] =    300 -- Regen (Twin Idol)";
                []; upgrade_line ]).
Proof. eexists. split; [by vm_compute|]. split; by vm_compute. Qed.

(** ** A listing read back *)

Lemma id_number_not_quote (c : N) (s : list N) :
  c ≠ 34%N → id_number (c :: s) = None.
Proof.
  intros Hc. unfold id_number. simpl. by rewrite decide_False by done.
Qed.

Lemma omap_tails_cons {A B : Type} (f : list A → option B) (c : A)
    (s : list A) :
  omap f (tails (c :: s)) =
  match f (c :: s) with
  | Some y => y :: omap f (tails s)
  | None => omap f (tails s)
  end.
Proof. done. Qed.

Lemma omap_id_number_skip (c : N) (s : list N) :
  c ≠ 34%N → omap id_number (tails (c :: s)) = omap id_number (tails s).
Proof.
  intros Hc. by rewrite omap_tails_cons, id_number_not_quote.
Qed.

(** No id starts in a text without a quote. *)
Lemma omap_id_number_no_quote (a b : list N) :
  34%N ∉ a →
  omap id_number (tails (a ++ b)) = omap id_number (tails b).
Proof.
  induction a as [|c a IH]; intros Hq; [done|].
  apply not_elem_of_cons in Hq as [Hc Ha].
  cbn [app]. rewrite omap_id_number_skip by done. by apply IH.
Qed.

Lemma digits_no_quote (n : Z) : 0 ≤ n → 34%N ∉ digits n.
Proof.
  intros Hn Hin. destruct (digits_spec n Hn) as (Hds & _).
  rewrite Forall_forall in Hds. specialize (Hds _ Hin).
  by vm_compute in Hds.
Qed.

(** One object of the line: its id, and nothing else. *)
Lemma omap_id_number_object (n : Z) (rest : list N) :
  0 ≤ n →
  omap id_number
    (tails ((js "{" ++ id_key ++ to_string n ++ js "},") ++ rest)) =
  n :: omap id_number (tails rest).
Proof.
  intros Hn. unfold to_string. rewrite decide_False by lia.
  destruct (digits_spec n Hn) as (Hds & Hne & Hval & _).
  change (js "{") with [123%N]. change (js "},") with [125; 44]%N.
  rewrite <- !app_assoc.
  set (tl := digits n ++ [125; 44]%N ++ rest).
  change ([123%N] ++ id_key ++ tl)
    with (123%N :: 34%N :: 105%N :: 100%N :: 34%N :: 58%N :: tl).
  rewrite omap_id_number_skip by done.
  rewrite omap_tails_cons.
  assert (id_number (34%N :: 105%N :: 100%N :: 34%N :: 58%N :: tl) = Some n)
    as ->.
  { change (34%N :: 105%N :: 100%N :: 34%N :: 58%N :: tl)
      with (id_key ++ tl).
    unfold id_number, tl. rewrite strip_prefix_app.
    rewrite take_while_app by done.
    change (take_while is_digit ([125; 44]%N ++ rest)) with (@nil N).
    rewrite app_nil_r. destruct (digits n) as [|d ds] eqn:Hd; [done|].
    by rewrite <- Hval. }
  f_equal.
  rewrite !omap_id_number_skip by done.
  rewrite omap_tails_cons.
  assert (id_number (34%N :: 58%N :: tl) = None) as -> by done.
  rewrite omap_id_number_skip by done.
  unfold tl.
  rewrite (omap_id_number_no_quote (digits n)) by by apply digits_no_quote.
  change ([125; 44]%N ++ rest) with (125%N :: 44%N :: rest).
  by rewrite !omap_id_number_skip by done.
Qed.

Lemma omap_id_number_objects (ids : list Z) (rest : list N) :
  Forall (λ n, 0 ≤ n) ids →
  omap id_number
    (tails (concat ((λ n, js "{" ++ id_key ++ to_string n ++ js "},") <$> ids)
            ++ rest)) =
  ids ++ omap id_number (tails rest).
Proof.
  induction 1 as [|n ids Hn _ IH]; [done|].
  rewrite fmap_cons. cbn [concat]. rewrite <- app_assoc.
  rewrite omap_id_number_object by done. by rewrite IH.
Qed.

Lemma objects_no_line_terminator (ids : list Z) :
  Forall (λ n, 0 ≤ n) ids →
  Forall (λ c, negb (LineTerminator c) = true)
    (concat ((λ n, js "{" ++ id_key ++ to_string n ++ js "},") <$> ids)).
Proof.
  induction 1 as [|n ids Hn _ IH]; [constructor|].
  rewrite fmap_cons. cbn [concat].
  unfold to_string. rewrite decide_False by lia.
  destruct (digits_spec n Hn) as (Hds & _).
  change (js "{") with [123%N]. change (js "},") with [125; 44]%N.
  apply Forall_app; split; [|exact IH].
  apply Forall_app; split; [by repeat constructor|].
  apply Forall_app; split; [by unfold id_key; repeat constructor|].
  apply Forall_app; split; [|by repeat constructor].
  eapply Forall_impl; [exact Hds|]. intros c Hc.
  unfold is_digit in Hc. apply bool_decide_eq_true in Hc.
  apply negb_true_iff, bool_decide_eq_false.
  rewrite !elem_of_cons, elem_of_nil. lia.
Qed.

(** A line of the searched form, found where it starts. *)
Lemma listview_here_line (run rest : list N) :
  run ≠ [] → Forall (λ c, negb (LineTerminator c) = true) run →
  listview_here
    ((js "var" ++ 32%N :: js "listviewitems" ++ run) ++ 10%N :: rest) =
  Some (js "var" ++ 32%N :: js "listviewitems" ++ run).
Proof.
  intros Hne Hrun. unfold listview_here.
  rewrite <- app_assoc, strip_prefix_app.
  change ((32%N :: js "listviewitems" ++ run) ++ 10%N :: rest)
    with (32%N :: (js "listviewitems" ++ run) ++ 10%N :: rest).
  change (white 32) with true. cbv iota.
  rewrite <- app_assoc, strip_prefix_app.
  rewrite take_while_app by done.
  change (take_while (λ c, negb (LineTerminator c)) (10%N :: rest))
    with (@nil N).
  rewrite app_nil_r. by destruct run.
Qed.

Lemma match_listview_line (run rest : list N) :
  run ≠ [] → Forall (λ c, negb (LineTerminator c) = true) run →
  match_listview true
    ((js "var" ++ 32%N :: js "listviewitems" ++ run) ++ 10%N :: rest) =
  Some (js "var" ++ 32%N :: js "listviewitems" ++ run).
Proof.
  intros Hne Hrun.
  pose proof (listview_here_line run rest Hne Hrun) as Hhere.
  destruct ((js "var" ++ 32%N :: js "listviewitems" ++ run) ++ 10%N :: rest)
    as [|c s] eqn:Hs; [done|].
  cbn [match_listview]. by rewrite Hhere.
Qed.


